(** * A shallow embedding of the backtracking Sudoku solver

    The development follows [sudoku_solver.c]: the puzzle state is the C
    struct [sudoku], every C function is a Rocq function of the same name
    over an error monad, and the theorems at the end relate the solver to
    the rules of the game.

    Conventions.
    - A C [int] is a [Z]; arithmetic on it is followed by [wrap], the
      two's-complement reduction to 32 bits.
    - [int constraints[N][N][N]] and [int inserted[N][N]] are the flat
      row-major blocks of memory that C lays them out as.  An access whose
      index is outside [0, N) is [Undefined].
    - A failed [assert] is [AssertFail].
    - Recursion depth is made explicit: [solve d s] may nest at most [d]
      recursive calls and answers [OutOfFuel] when it would need more.
    - Numbers are 0..8 and stand for the digits 1..9, as in [sudoku.h].
    - [stdin] and [stdout] are lists of bytes; [read_input], [print] and
      [main] thread them explicitly.  [abort()] is [AssertFail]. *)

From Stdlib Require Import ZArith List Lia Bool Sorted.

From Stdlib Require Import Strings.Byte.

From Stdlib Require Strings.String.

From stdpp Require Import base list.

Import (notations) Stdlib.Strings.String.

Import ListNotations.

Local Open Scope Z_scope.

(* ================================================================== *)
(** ** The error monad *)

Inductive result (A : Type) : Type :=
| Ok (a : A)
| AssertFail
| Undefined
| OutOfFuel.

Arguments Ok {A} a.
Arguments AssertFail {A}.
Arguments Undefined {A}.
Arguments OutOfFuel {A}.

Definition bind {A B : Type} (m : result A) (k : A -> result B) : result B :=
  match m with
  | Ok a => k a
  | AssertFail => AssertFail
  | Undefined => Undefined
  | OutOfFuel => OutOfFuel
  end.

Notation "'do' x <- m ;; k" := (bind m (fun x => k))
  (at level 10, x binder, m at level 99, k at level 200).

Definition assert (b : bool) : result unit :=
  if b then Ok tt else AssertFail.

(** [for (a = 0; a < n; a++) body] is [for_each (range n) body]. *)
Fixpoint for_each {A S : Type} (l : list A) (body : A -> S -> result S)
    (s : S) : result S :=
  match l with
  | [] => Ok s
  | a :: l' => do s' <- body a s ;; for_each l' body s'
  end.

Definition range (n : Z) : list Z := seqZ 0 n.

(* ================================================================== *)
(** ** Machine integers *)

Definition INT_MIN : Z := - 2 ^ 31.

Definition INT_MAX : Z := 2 ^ 31 - 1.

Definition wrap (x : Z) : Z := (x + 2 ^ 31) mod 2 ^ 32 - 2 ^ 31.

Definition is_int (x : Z) : Prop := INT_MIN <= x <= INT_MAX.

Definition is_intb (x : Z) : bool := (INT_MIN <=? x) && (x <=? INT_MAX).

(* ================================================================== *)
(** ** The puzzle state *)

Definition SQRT_N : Z := 3.

Definition N : Z := SQRT_N * SQRT_N.

Record sudoku : Type := mk_sudoku {
  constraints : list Z;   (* int constraints[N][N][N] *)
  inserted : list Z;      (* int inserted[N][N] *)
  ninserted : Z;
  nbacktracks : Z
}.

Definition with_constraints (s : sudoku) (m : list Z) : sudoku :=
  mk_sudoku m (inserted s) (ninserted s) (nbacktracks s).

Definition with_inserted (s : sudoku) (m : list Z) : sudoku :=
  mk_sudoku (constraints s) m (ninserted s) (nbacktracks s).

Definition with_ninserted (s : sudoku) (n : Z) : sudoku :=
  mk_sudoku (constraints s) (inserted s) n (nbacktracks s).

Definition with_nbacktracks (s : sudoku) (n : Z) : sudoku :=
  mk_sudoku (constraints s) (inserted s) (ninserted s) n.

Definition in_bounds (i : Z) : bool := (0 <=? i) && (i <? N).

(** Offsets of [a[i][j][n]] and [a[i][j]] inside their arrays. *)
Definition offset3 (i j n : Z) : result nat :=
  if in_bounds i && in_bounds j && in_bounds n
  then Ok (Z.to_nat ((i * N + j) * N + n))
  else Undefined.

Definition offset2 (i j : Z) : result nat :=
  if in_bounds i && in_bounds j
  then Ok (Z.to_nat (i * N + j))
  else Undefined.

Definition load (mem : list Z) (k : nat) : result Z :=
  match mem !! k with
  | Some x => Ok x
  | None => Undefined
  end.

Definition store (mem : list Z) (k : nat) (x : Z) : result (list Z) :=
  if (k <? length mem)%nat then Ok (<[k := x]> mem) else Undefined.

(** [s->constraints[i][j][n]] read, written and [+=]. *)
Definition get_constraint (s : sudoku) (i j n : Z) : result Z :=
  do k <- offset3 i j n ;; load (constraints s) k.

Definition set_constraint (s : sudoku) (i j n x : Z) : result sudoku :=
  do k <- offset3 i j n ;;
  do m <- store (constraints s) k x ;;
  Ok (with_constraints s m).

Definition add_constraint (s : sudoku) (i j n d : Z) : result sudoku :=
  do x <- get_constraint s i j n ;;
  set_constraint s i j n (wrap (x + d)).

(** [s->inserted[i][j]] read and written. *)
Definition get_inserted (s : sudoku) (i j : Z) : result Z :=
  do k <- offset2 i j ;; load (inserted s) k.

Definition set_inserted (s : sudoku) (i j x : Z) : result sudoku :=
  do k <- offset2 i j ;;
  do m <- store (inserted s) k x ;;
  Ok (with_inserted s m).

(* ================================================================== *)
(** ** [new_sudoku] *)

Definition new_sudoku (s : sudoku) : result sudoku :=
  do s <- for_each (range N) (fun i s =>
         for_each (range N) (fun j s =>
           do s <- set_inserted s i j 0 ;;
           for_each (range N) (fun n s => set_constraint s i j n 0) s) s) s ;;
  let s := with_ninserted s 0 in
  Ok (with_nbacktracks s 0).

(* ================================================================== *)
(** ** [change_state_at], [insert_number_at], [remove_number_at] *)

(** Lines 87-92: the row, the column and the cell itself. *)
Definition sweep_lines (s : sudoku) (row col number shift : Z) : result sudoku :=
  for_each (range N) (fun a s =>
    do s <- add_constraint s row a number shift ;;
    do s <- add_constraint s a col number shift ;;
    add_constraint s row col a shift) s.

(** Lines 94-102: the box.  C division truncates, hence [Z.quot]. *)
Definition sweep_box (s : sudoku) (row col number shift : Z) : result sudoku :=
  let sq_row := Z.quot row SQRT_N in
  let sq_col := Z.quot col SQRT_N in
  for_each (range SQRT_N) (fun i s =>
    for_each (range SQRT_N) (fun j s =>
      add_constraint s (SQRT_N * sq_row + i) (SQRT_N * sq_col + j) number shift)
      s) s.

(** Lines 76-102: everything before the second group of assertions. *)
Definition change_state_sweeps (s : sudoku) (row col number type : Z)
    : result sudoku :=
  do _ <- assert ((type =? -1) || (type =? 1)) ;;
  do _ <- assert ((number >=? 0) && (number <? N)) ;;
  do x <- get_constraint s row col number ;;
  do _ <- assert (x =? 0) ;;
  do s <- set_inserted s row col (if type =? -1 then 0 else 1) ;;
  let shift := type in
  do s <- sweep_lines s row col number shift ;;
  sweep_box s row col number shift.

Definition change_state_at (s : sudoku) (row col number type : Z)
    : result sudoku :=
  do s <- change_state_sweeps s row col number type ;;
  let shift := type in
  do x <- get_constraint s row col number ;;
  do _ <- assert (x =? wrap (shift * 4)) ;;
  do s <- set_constraint s row col number 0 ;;
  Ok (with_ninserted s (wrap (ninserted s + shift))).

Definition insert_number_at (s : sudoku) (row col number : Z) : result sudoku :=
  change_state_at s row col number 1.

Definition remove_number_at (s : sudoku) (row col number : Z) : result sudoku :=
  change_state_at s row col number (-1).

(* ================================================================== *)
(** ** [get_possibilities_at] and [get_most_constrained_cell] *)

(** Writes to and reads from the [N]-element candidate buffer. *)
Definition store_buf (buf : list Z) (k x : Z) : result (list Z) :=
  if 0 <=? k then store buf (Z.to_nat k) x else Undefined.

Definition load_buf (buf : list Z) (k : Z) : result Z :=
  if 0 <=? k then load buf (Z.to_nat k) else Undefined.

Definition get_possibilities_at (s : sudoku) (row col : Z) (buf : list Z)
    : result (list Z * Z) :=
  for_each (range N) (fun n '(buf, poss_counter) =>
    do x <- get_constraint s row col n ;;
    if x =? 0 then
      do buf <- store_buf buf poss_counter n ;;
      Ok (buf, wrap (poss_counter + 1))
    else Ok (buf, poss_counter)) (buf, 0).

(** The scan of lines 142-155.  Its state is the pair [*row, *col]
    ([None] while still indeterminate), the buffer and [min]. *)
Definition scan_cell (s : sudoku) (i j : Z) (st : option (Z * Z) * list Z * Z)
    : result (option (Z * Z) * list Z * Z) :=
  let '(sel, buf, min) := st in
  do ins <- get_inserted s i j ;;
  if ins =? 0 then
    do '(buf, poss_count) <- get_possibilities_at s i j buf ;;
    if poss_count <? min then Ok (Some (i, j), buf, poss_count)
    else Ok (sel, buf, min)
  else Ok (sel, buf, min).

Definition get_most_constrained_cell (s : sudoku) (buf : list Z)
    : result (Z * Z * list Z * Z) :=
  do '(sel, buf, _) <- for_each (range N) (fun i st =>
                      for_each (range N) (fun j st => scan_cell s i j st) st)
                      (None, buf, N + 1) ;;
  match sel with
  | None => Undefined
  | Some (row, col) =>
      do '(buf, poss_count) <- get_possibilities_at s row col buf ;;
      Ok (row, col, buf, poss_count)
  end.

(* ================================================================== *)
(** ** [solve] *)

(** The buffer returned by [malloc(N * sizeof(int))]; its contents are
    never read before being written.  Allocation is taken to succeed. *)
Definition malloc_buffer : list Z := replicate (Z.to_nat N) 0.

(** The loop of lines 263-271, with the recursive call abstracted. *)
Fixpoint solve_loop (rec : sudoku -> result (Z * sudoku)) (row col : Z)
    (buf : list Z) (idxs : list Z) (s : sudoku) : result (Z * sudoku) :=
  match idxs with
  | [] => Ok (0, s)
  | i :: idxs' =>
      do v <- load_buf buf i ;;
      do s <- insert_number_at s row col v ;;
      do '(found_solution, s) <- rec s ;;
      if found_solution =? 0 then
        do v <- load_buf buf i ;;
        do s <- remove_number_at s row col v ;;
        solve_loop rec row col buf idxs' s
      else Ok (found_solution, s)
  end.

Fixpoint solve (depth : nat) (s : sudoku) : result (Z * sudoku) :=
  if ninserted s =? N * N then Ok (1, s)
  else
    do '(row, col, buf, poss_count) <- get_most_constrained_cell s malloc_buffer ;;
    if poss_count =? 0 then
      Ok (0, with_nbacktracks s (wrap (nbacktracks s + 1)))
    else
      match depth with
      | O => OutOfFuel
      | S depth' =>
          solve_loop (solve depth') row col buf (range poss_count) s
      end.

(* ================================================================== *)
(** ** Reading the state without the monad

    Total accessors used in specifications; on a state of the right shape
    and inside the bounds they agree with the monadic reads. *)

Definition slot := (Z * Z * Z)%type.   (* (row, col, number) *)

Definition cell := (Z * Z)%type.       (* (row, col) *)

Definition slot_eqb (p q : slot) : bool :=
  let '(i, j, n) := p in let '(i', j', n') := q in
  (i =? i') && (j =? j') && (n =? n').

Definition cell_eqb (x y : cell) : bool :=
  let '(i, j) := x in let '(i', j') := y in (i =? i') && (j =? j').

Definition off3 (q : slot) : nat :=
  let '(i, j, n) := q in Z.to_nat ((i * N + j) * N + n).

Definition off2 (x : cell) : nat :=
  let '(i, j) := x in Z.to_nat (i * N + j).

Arguments off3 : simpl never.
Arguments off2 : simpl never.

(** [constraints[i][j][n]] and [inserted[i][j]], 0 outside the arrays. *)
Definition count_at (s : sudoku) (q : slot) : Z :=
  default 0 (constraints s !! off3 q).

Definition flag_at (s : sudoku) (x : cell) : Z :=
  default 0 (inserted s !! off2 x).

(** The pure effect of one write and of one [+=]. *)
Definition put_count (s : sudoku) (q : slot) (x : Z) : sudoku :=
  with_constraints s (<[off3 q := x]> (constraints s)).

Definition put_flag (s : sudoku) (x : cell) (b : Z) : sudoku :=
  with_inserted s (<[off2 x := b]> (inserted s)).

Definition add_count (d : Z) (s : sudoku) (q : slot) : sudoku :=
  put_count s q (wrap (count_at s q + d)).

(** How often a slot occurs in a list of slots. *)
Fixpoint times (q : slot) (ts : list slot) : Z :=
  match ts with
  | [] => 0
  | t :: ts' => (if slot_eqb t q then 1 else 0) + times q ts'
  end.

Definition cell_ok (x : cell) : Prop :=
  let '(i, j) := x in 0 <= i < N /\ 0 <= j < N.

Definition slot_ok (q : slot) : Prop :=
  let '(i, j, n) := q in 0 <= i < N /\ 0 <= j < N /\ 0 <= n < N.

Definition shape (s : sudoku) : Prop :=
  length (constraints s) = Z.to_nat (N * N * N) /\
  length (inserted s) = Z.to_nat (N * N).

(** Every field holds a value of type [int]. *)
Definition wf (s : sudoku) : Prop :=
  shape s /\
  Forall is_int (constraints s) /\ Forall is_int (inserted s) /\
  is_int (ninserted s) /\ is_int (nbacktracks s).

Definition wfb (s : sudoku) : bool :=
  (length (constraints s) =? Z.to_nat (N * N * N))%nat &&
  (length (inserted s) =? Z.to_nat (N * N))%nat &&
  forallb is_intb (constraints s) && forallb is_intb (inserted s) &&
  is_intb (ninserted s) && is_intb (nbacktracks s).

(** Same observable puzzle: everything but the statistics counter. *)
Definition obs_eq (s s' : sudoku) : Prop :=
  constraints s' = constraints s /\
  inserted s' = inserted s /\
  ninserted s' = ninserted s.

(* ================================================================== *)
(** ** The slots swept by [change_state_at] *)

(** The slots touched by lines 87-92, in program order. *)
Definition lines_slots (row col number : Z) : list slot :=
  flat_map (fun a => [(row, a, number); (a, col, number); (row, col, a)])
           (range N).

(** The slots touched by lines 98-102, in program order. *)
Definition box_slots (row col number : Z) : list slot :=
  flat_map (fun i =>
              map (fun j => (SQRT_N * Z.quot row SQRT_N + i,
                             SQRT_N * Z.quot col SQRT_N + j, number))
                  (range SQRT_N))
           (range SQRT_N).

Definition sweep_slots (row col number : Z) : list slot :=
  lines_slots row col number ++ box_slots row col number.

(** *** What one committed number weighs on a slot

    A cell shares up to three groups with another cell: its row, its
    column and its box. *)
Definition same_box (x y : cell) : bool :=
  (fst x / SQRT_N =? fst y / SQRT_N) && (snd x / SQRT_N =? snd y / SQRT_N).

Definition shared_groups (x y : cell) : Z :=
  Z.b2z (fst x =? fst y) + Z.b2z (snd x =? snd y) + Z.b2z (same_box x y).

Definition peers (x y : cell) : bool :=
  negb (cell_eqb x y) &&
  ((fst x =? fst y) || (snd x =? snd y) || same_box x y).

(** The weight that number [v0] committed at [(r0, c0)] puts on slot
    [(r, c, v)]: on its own cell it blocks every other number once; on
    another cell it blocks [v0] once for each group the two cells share. *)
Definition contrib (p q : slot) : Z :=
  let '(r0, c0, v0) := p in
  let '(r, c, v) := q in
  if cell_eqb (r0, c0) (r, c) then (if v0 =? v then 0 else 1)
  else if v0 =? v then shared_groups (r0, c0) (r, c) else 0.

(** Exhaustive checks over the grid. *)
Definition forall3 (f : Z -> Z -> Z -> bool) : bool :=
  forallb (fun i => forallb (fun j => forallb (fun n => f i j n)
    (range N)) (range N)) (range N).

Definition slot_okb (q : slot) : bool :=
  let '(i, j, n) := q in in_bounds i && in_bounds j && in_bounds n.

(** *** Counting the sweeps cell by cell

    The row and column sweeps and the box sweep touch number [number]
    only, at the cells listed here; the third statement of the first
    loop touches every number of the cell itself. *)
Definition lines_cells (row col : Z) : list cell :=
  flat_map (fun a => [(row, a); (a, col)]) (range N).

Definition box_cells_of (row col : Z) : list cell :=
  flat_map (fun i =>
              map (fun j => (SQRT_N * Z.quot row SQRT_N + i,
                             SQRT_N * Z.quot col SQRT_N + j))
                  (range SQRT_N))
           (range SQRT_N).

Fixpoint cell_times (x : cell) (l : list cell) : Z :=
  match l with
  | [] => 0
  | y :: l' => (if cell_eqb y x then 1 else 0) + cell_times x l'
  end.

Fixpoint num_times (v : Z) (l : list Z) : Z :=
  match l with
  | [] => 0
  | a :: l' => (if a =? v then 1 else 0) + num_times v l'
  end.

Definition forall2 (f : Z -> Z -> bool) : bool :=
  forallb (fun i => forallb (fun j => f i j) (range N)) (range N).

Definition cell_check (row col r c : Z) : bool :=
  cell_times (r, c) (lines_cells row col ++ box_cells_of row col) =?
    (if cell_eqb (row, col) (r, c) then 3 else shared_groups (row, col) (r, c)).

(* ================================================================== *)
(** ** The sweeps of [change_state_at] as a sequence of [+=] *)

(** The state that [change_state_at] builds, field by field. *)
Definition swept (s : sudoku) (p : slot) (type : Z) : sudoku :=
  let '(row, col, number) := p in
  foldl (add_count type)
        (put_flag s (row, col) (if type =? -1 then 0 else 1))
        (sweep_slots row col number).

Definition changed (s : sudoku) (p : slot) (type : Z) : sudoku :=
  let s1 := put_count (swept s p type) p 0 in
  with_ninserted s1 (wrap (ninserted s1 + type)).

Definition cell_of (p : slot) : cell := let '(r, c, _) := p in (r, c).

Definition number_of (p : slot) : Z := let '(_, _, v) := p in v.

(* ================================================================== *)
(** ** The committed numbers and what they weigh on each slot

    The C state does not record which number a cell holds; the history of
    commits does.  A list of slots [(r, c, v)] stands for "number [v] is
    committed at [(r, c)]". *)

Fixpoint weight (ps : list slot) (q : slot) : Z :=
  match ps with
  | [] => 0
  | p :: ps' => contrib p q + weight ps' q
  end.

Definition occupied (ps : list slot) (x : cell) : bool :=
  existsb (fun p => cell_eqb (cell_of p) x) ps.

Definition remove_slot (p : slot) (ps : list slot) : list slot :=
  List.filter (fun p' => negb (slot_eqb p p')) ps.

(** The state is exactly the one described by the committed numbers. *)
Definition Inv (ps : list slot) (s : sudoku) : Prop :=
  wf s /\
  Forall slot_ok ps /\
  NoDup (map cell_of ps) /\
  (forall q, slot_ok q -> count_at s q = weight ps q) /\
  (forall x, cell_ok x -> flag_at s x = if occupied ps x then 1 else 0) /\
  ninserted s = Z.of_nat (length ps) /\
  (forall p, p ∈ ps -> weight ps p = 0).

(** *** There are only [N * N] cells *)

Definition all_cells : list cell :=
  flat_map (fun i => map (fun j => (i, j)) (range N)) (range N).

(* ================================================================== *)
(** ** [get_possibilities_at] *)

(** The numbers still open at a cell, in ascending order. *)
Definition candidates (s : sudoku) (x : cell) : list Z :=
  List.filter (fun n => count_at s (fst x, snd x, n) =? 0) (range N).

Definition poss_count (s : sudoku) (x : cell) : Z :=
  Z.of_nat (length (candidates s x)).

(** A buffer whose first entries were overwritten with [l]. *)
Definition filled (buf l : list Z) : list Z := l ++ drop (length l) buf.

(* ================================================================== *)
(** ** [get_most_constrained_cell] *)

Definition scan_state : Type := (option (Z * Z) * list Z * Z)%type.

(** What one step of the scan does when nothing is out of bounds. *)
Definition scan_step (s : sudoku) (st : scan_state) (x : cell) : scan_state :=
  let '(sel, buf, min) := st in
  if flag_at s x =? 0 then
    if poss_count s x <? min
    then (Some x, filled buf (candidates s x), poss_count s x)
    else (sel, filled buf (candidates s x), min)
  else st.

Definition scan_buf_ok (st : scan_state) : Prop :=
  length (snd (fst st)) = Z.to_nat N.

Definition scan_all (s : sudoku) (buf : list Z) : scan_state :=
  foldl (scan_step s) (None, buf, N + 1) all_cells.

(** The selection after scanning [done]: nothing yet, or the first
    uncommitted cell of [done] with the fewest candidates. *)
Definition scan_inv (s : sudoku) (done : list cell) (st : scan_state) : Prop :=
  let '(sel, _, min) := st in
  match sel with
  | None => min = N + 1 /\ forall y, y ∈ done -> flag_at s y <> 0
  | Some x =>
      exists l1 l2, done = l1 ++ x :: l2 /\
        flag_at s x = 0 /\ min = poss_count s x /\
        (forall y, y ∈ l1 -> flag_at s y = 0 -> poss_count s x < poss_count s y) /\
        (forall y, y ∈ l2 -> flag_at s y = 0 -> poss_count s x <= poss_count s y)
  end.

(** *** Row-major order *)

Definition row_major (x : cell) : Z := fst x * N + snd x.

(* ================================================================== *)
(** ** The rules of the game *)

(** A completed grid gives every cell a number. *)
Definition grid : Type := cell -> Z.

Definition row_cells (r : Z) : list cell := map (fun c => (r, c)) (range N).

Definition col_cells (c : Z) : list cell := map (fun r => (r, c)) (range N).

Definition box_cells (b : Z) : list cell :=
  flat_map (fun i =>
              map (fun j => (SQRT_N * (b / SQRT_N) + i, SQRT_N * (b mod SQRT_N) + j))
                  (range SQRT_N))
           (range SQRT_N).

(** How many cells of [u] hold number [v]. *)
Definition occurrences (h : grid) (u : list cell) (v : Z) : nat :=
  length (List.filter (fun x => h x =? v) u).

(** Every row, every column and every box holds each number exactly once. *)
Definition valid_grid (h : grid) : Prop :=
  forall k v, 0 <= k < N -> 0 <= v < N ->
    occurrences h (row_cells k) v = 1%nat /\
    occurrences h (col_cells k) v = 1%nat /\
    occurrences h (box_cells k) v = 1%nat.

(** [h] completes the partial assignment [ps]. *)
Definition extends (ps : list slot) (h : grid) : Prop :=
  forall p, p ∈ ps -> h (cell_of p) = number_of p.

(** The grid stored in a state: the first open number of each cell, which
    is how [print] shows a cell in [VALUE] mode. *)
Definition read_grid (s : sudoku) : grid := fun x => hd 0 (candidates s x).

(** The grid described by a list of committed numbers. *)
Definition grid_of (ps : list slot) : grid := fun x =>
  match List.find (fun p => cell_eqb (cell_of p) x) ps with
  | Some p => number_of p
  | None => 0
  end.

(** *** The 27 groups *)

Definition units : list (list cell) :=
  map row_cells (range N) ++ map col_cells (range N) ++ map box_cells (range N).

Definition cell_okb (x : cell) : bool := in_bounds (fst x) && in_bounds (snd x).

Definition memb (x : cell) (u : list cell) : bool := existsb (cell_eqb x) u.

Fixpoint distinctb (l : list cell) : bool :=
  match l with
  | [] => true
  | x :: l' => negb (memb x l') && distinctb l'
  end.

Definition unit_check (u : list cell) : bool :=
  (length u =? 9)%nat && forallb cell_okb u && distinctb u &&
  forallb (fun x => forallb (fun y => cell_eqb x y || peers x y) u) u.

Definition peers_check (x y : cell) : bool :=
  implb (peers x y) (existsb (fun u => memb x u && memb y u) units).

(* ================================================================== *)
(** ** The search *)

(** What a call of [solve] at depth budget [d] may answer on a state
    whose committed numbers are [ps]. *)
Definition solve_post (d : nat) (ps : list slot) (r : result (Z * sudoku)) : Prop :=
  match r with
  | Ok (res, s') =>
      (res = 1 /\
       exists ps', Inv ps' s' /\ length ps' = 81%nat /\
                   (forall p, p ∈ ps -> p ∈ ps') /\ (81 - length ps <= d)%nat)
      \/
      (res = 0 /\ Inv ps s' /\ forall h, valid_grid h -> ~ extends ps h)
  | OutOfFuel => (d < 81 - length ps)%nat
  | _ => False
  end.

(** The same for the loop over the candidates [cands] of cell [x]. *)
Definition loop_post (d : nat) (ps : list slot) (x : cell) (cands idxs : list Z)
    (r : result (Z * sudoku)) : Prop :=
  match r with
  | Ok (res, s') =>
      (res = 1 /\
       exists ps', Inv ps' s' /\ length ps' = 81%nat /\
                   (forall p, p ∈ ps -> p ∈ ps') /\ (81 - length ps <= d)%nat)
      \/
      (res = 0 /\ Inv ps s' /\
       forall i, i ∈ idxs -> forall h, valid_grid h ->
         ~ extends ((fst x, snd x, nth (Z.to_nat i) cands 0) :: ps) h)
  | OutOfFuel => (d < 81 - length ps)%nat
  | _ => False
  end.

(* ================================================================== *)
(** ** [new_sudoku] builds the empty puzzle *)

Definition zero_sudoku : sudoku :=
  mk_sudoku (replicate (Z.to_nat (N * N * N)) 0) (replicate (Z.to_nat (N * N)) 0) 0 0.

(** What the body of the two outer loops does to cell [x]. *)
Definition clear_cell (s : sudoku) (x : cell) : sudoku :=
  foldl (fun s n => put_count s (fst x, snd x, n) 0) (put_flag s x 0) (range N).

(* ================================================================== *)
(** ** Reachable states *)

(** The states built by [new_sudoku] followed by commits that respect the
    preconditions of [insert_number_at]; the index is the list of numbers
    committed so far, most recent first. *)
Inductive reachable_by_commits : list slot -> sudoku -> Prop :=
| rbc_new s0 s :
    shape s0 -> new_sudoku s0 = Ok s -> reachable_by_commits [] s
| rbc_insert ps s row col number s' :
    reachable_by_commits ps s ->
    get_inserted s row col = Ok 0 ->
    0 <= number < N ->
    get_constraint s row col number = Ok 0 ->
    insert_number_at s row col number = Ok s' ->
    reachable_by_commits ((row, col, number) :: ps) s'.

(** The same with retractions of numbers that are currently committed. *)
Inductive reachable : list slot -> sudoku -> Prop :=
| reach_new s0 s :
    shape s0 -> new_sudoku s0 = Ok s -> reachable [] s
| reach_insert ps s row col number s' :
    reachable ps s ->
    get_inserted s row col = Ok 0 ->
    0 <= number < N ->
    get_constraint s row col number = Ok 0 ->
    insert_number_at s row col number = Ok s' ->
    reachable ((row, col, number) :: ps) s'
| reach_remove ps s row col number s' :
    reachable ps s ->
    (row, col, number) ∈ ps ->
    remove_number_at s row col number = Ok s' ->
    reachable (remove_slot (row, col, number) ps) s'.

(** *** Example states

    The state obtained by committing a list of clues, last clue first, and
    the check that makes each of these commits a valid one. *)
Definition commit_all (ps : list slot) : sudoku :=
  foldr (fun p s => changed s p 1) zero_sudoku ps.

Fixpoint clues_ok (ps : list slot) : bool :=
  match ps with
  | [] => true
  | p :: ps' =>
      slot_okb p && negb (occupied ps' (cell_of p)) && (weight ps' p =? 0) &&
      clues_ok ps'
  end.

(** The clues of a puzzle given as 81 digits in row-major order, 0 for a
    blank, as [read_input] takes them. *)
Definition clues_of_digits (digits : list Z) : list slot :=
  fst (foldl (fun '(ps, k) d =>
                (if (1 <=? d) && (d <=? 9) then (k / N, k mod N, d - 1) :: ps else ps,
                 k + 1))
             ([], 0) digits).

(** A state with one clue. *)
Definition one_clue : sudoku := commit_all [(0, 0, 4)].

(* ================================================================== *)
(** ** Vocabulary of the main results, example states *)

(** How many committed cells other than [x] that share a row, a column or
    a box with [x] hold number [v]. *)
Definition peer_count (ps : list slot) (x : cell) (v : Z) : nat :=
  length (List.filter (fun p => peers (cell_of p) x && (number_of p =? v)) ps).

(** The state in which a call of [solve] ends, [default] if it does not
    return. *)
Definition final_state (r : result (Z * sudoku)) (default : sudoku) : sudoku :=
  match r with
  | Ok (_, s') => s'
  | _ => default
  end.

(** A puzzle with three blanks, at the end of the last row. *)
Definition nearly_done_clues : list slot :=
  clues_of_digits
    [5; 3; 4; 6; 7; 8; 9; 1; 2;
     6; 7; 2; 1; 9; 5; 3; 4; 8;
     1; 9; 8; 3; 4; 2; 5; 6; 7;
     8; 5; 9; 7; 6; 1; 4; 2; 3;
     4; 2; 6; 8; 5; 3; 7; 9; 1;
     7; 1; 3; 9; 2; 4; 8; 5; 6;
     9; 6; 1; 5; 3; 7; 2; 8; 4;
     2; 8; 7; 4; 1; 9; 6; 3; 5;
     3; 4; 5; 2; 8; 6; 0; 0; 0].

Definition nearly_done : sudoku := commit_all nearly_done_clues.

Definition nearly_done_solved : sudoku := final_state (solve 3 nearly_done) nearly_done.

(** A puzzle without solution that [solve] has to branch on: row 0 holds
    0..6, and 7 is already in columns 7 and 8, so both free cells of
    row 0 are left with the single candidate 8. *)
Definition stuck_clues : list slot :=
  [(6, 8, 7); (3, 7, 7);
   (0, 6, 6); (0, 5, 5); (0, 4, 4); (0, 3, 3); (0, 2, 2); (0, 1, 1); (0, 0, 0)].

Definition stuck : sudoku := commit_all stuck_clues.

Definition stuck_after_solve : sudoku := final_state (solve 81 stuck) stuck.

(* ================================================================== *)
(** * Beyond the solver: more of the state machine, input and output *)

(* ================================================================== *)
(** ** More on commits and retractions *)

(** Two clues in different boxes, rows and columns. *)
Definition two_clues : sudoku := commit_all [(3, 3, 4); (0, 0, 4)].

(** A memory block of the right size filled with arbitrary values. *)
Definition garbage : sudoku :=
  mk_sudoku (replicate (Z.to_nat (N * N * N)) 7) (replicate (Z.to_nat (N * N)) (-3))
            12 99.

(** [inserted[i][j] == x], for the exhaustive checks on example states. *)
Definition inserted_is (s : sudoku) (x i j : Z) : bool :=
  match get_inserted s i j with
  | Ok y => y =? x
  | _ => false
  end.

(** A reachable dead end: row 0 holds 0..7 and 8 is in column 8, so the
    last cell of row 0 has no candidate. *)
Definition dead_end_clues : list slot :=
  [(4, 8, 8);
   (0, 7, 7); (0, 6, 6); (0, 5, 5); (0, 4, 4); (0, 3, 3); (0, 2, 2); (0, 1, 1);
   (0, 0, 0)].

Definition dead_end : sudoku := commit_all dead_end_clues.

(** *** No count exceeds 4 *)

(** How many committed numbers satisfy [f]. *)
Fixpoint tally (f : slot -> bool) (ps : list slot) : Z :=
  match ps with
  | [] => 0
  | p :: ps' => Z.b2z (f p) + tally f ps'
  end.

(** The four ways in which a committed number weighs on slot [q]. *)
Definition blocks_cell (q p : slot) : bool :=
  cell_eqb (cell_of p) (cell_of q) && negb (number_of p =? number_of q).

Definition blocks_row (q p : slot) : bool :=
  negb (cell_eqb (cell_of p) (cell_of q)) && (number_of p =? number_of q) &&
  (fst (cell_of p) =? fst (cell_of q)).

Definition blocks_col (q p : slot) : bool :=
  negb (cell_eqb (cell_of p) (cell_of q)) && (number_of p =? number_of q) &&
  (snd (cell_of p) =? snd (cell_of q)).

Definition blocks_box (q p : slot) : bool :=
  negb (cell_eqb (cell_of p) (cell_of q)) && (number_of p =? number_of q) &&
  same_box (cell_of p) (cell_of q).

(* ================================================================== *)
(** ** Standard input and output

    [stdin] is the list of bytes not read yet together with its
    end-of-file indicator, which [getchar] sets when it finds nothing
    left to read; [stdout] is the list of bytes written so far.
    Messages to [stderr] are not modelled. *)

Definition EOF : Z := -1.

Record stream : Type := mk_stream {
  pending : list byte;
  eof_flag : bool
}.

Definition Z_of_byte (b : byte) : Z := Z.of_N (Byte.to_N b).

(** [(unsigned char) x]. *)
Definition byte_of_Z (x : Z) : byte :=
  default Byte.x00 (Byte.of_N (Z.to_N (x mod 256))).

Definition getchar (inp : stream) : Z * stream :=
  match pending inp with
  | [] => (EOF, mk_stream [] true)
  | b :: rest => (Z_of_byte b, mk_stream rest (eof_flag inp))
  end.

Definition feof (inp : stream) : bool := eof_flag inp.

Definition putchar (x : Z) (out : list byte) : list byte := out ++ [byte_of_Z x].

(** The value of an [int] once stored in a [char].  Whether [char] is
    signed is the implementation's choice, hence a parameter. *)
Definition to_char (signed_char : bool) (x : Z) : Z :=
  if signed_char then (x + 128) mod 256 - 128 else x mod 256.

(** The bytes of a string literal. *)
Definition bytes_of (t : String.string) : list byte := String.list_byte_of_string t.

(* ================================================================== *)
(** ** [read_input] *)

Definition LINEAR_INPUT : Z := 1.

Definition GRID_INPUT : Z := 2.

(** A loop body either goes on to the next iteration or leaves the
    function with [return]. *)
Inductive ctl (S : Type) : Type :=
| Next (s : S)
| Return (s : S).

Arguments Next {S} s.
Arguments Return {S} s.

Fixpoint for_each_ctl {A S : Type} (l : list A) (body : A -> S -> result (ctl S))
    (s : S) : result (ctl S) :=
  match l with
  | [] => Ok (Next s)
  | a :: l' =>
      do r <- body a s ;;
      match r with
      | Next s' => for_each_ctl l' body s'
      | Return s' => Ok (Return s')
      end
  end.

(** Lines 222-226; ['1'] is 49 and ['9'] is 57. *)
Definition read_cell (signed_char : bool) (i j : Z) (st : sudoku * stream)
    : result (ctl (sudoku * stream)) :=
  let '(s, inp) := st in
  let '(x, inp) := getchar inp in
  let c := to_char signed_char x in
  if c =? EOF then Ok (Return (s, inp))
  else if (c >=? 49) && (c <=? 57) then
    do s <- insert_number_at s i j (wrap (c - 49)) ;;
    Ok (Next (s, inp))
  else Ok (Next (s, inp)).

(** Lines 220-229. *)
Definition read_row (signed_char : bool) (intype : Z) (i : Z) (st : sudoku * stream)
    : result (ctl (sudoku * stream)) :=
  do r <- for_each_ctl (range N) (read_cell signed_char i) st ;;
  match r with
  | Return st => Ok (Return st)
  | Next (s, inp) =>
      if intype =? GRID_INPUT then Ok (Next (s, snd (getchar inp)))
      else Ok (Next (s, inp))
  end.

Definition read_input (signed_char : bool) (s : sudoku) (intype : Z) (inp : stream)
    : result (sudoku * stream) :=
  do r <- for_each_ctl (range N) (read_row signed_char intype) (s, inp) ;;
  match r with
  | Return st => Ok st
  | Next (s, inp) =>
      if intype =? LINEAR_INPUT then Ok (s, snd (getchar inp))
      else Ok (s, inp)
  end.

(* ================================================================== *)
(** ** What [read_input] reads

    In the linear format cell [(i, j)] is the character at position
    [9 i + j] of the input, in the grid format the one at [10 i + j]. *)

Definition stride (intype : Z) : Z := if intype =? GRID_INPUT then N + 1 else N.

(** The number of characters of one puzzle. *)
Definition consumed (intype : Z) : Z :=
  if intype =? GRID_INPUT then N * (N + 1) else N * N + 1.

(** The character at position [k], [EOF] past the end. *)
Definition char_at (bytes : list byte) (k : Z) : Z :=
  match bytes !! Z.to_nat k with
  | Some b => Z_of_byte b
  | None => EOF
  end.

(** The clue that the input gives for cell [x], if any. *)
Definition clue_at (width : Z) (bytes : list byte) (x : cell) : option slot :=
  let c := char_at bytes (fst x * width + snd x) in
  if (49 <=? c) && (c <=? 57) then Some (fst x, snd x, c - 49) else None.

Definition add_clue (width : Z) (bytes : list byte) (ps : list slot) (x : cell)
    : list slot :=
  option_list (clue_at width bytes x) ++ ps.

(** The clues of the input, last cell first. *)
Definition clues_read (width : Z) (bytes : list byte) : list slot :=
  foldl (add_clue width bytes) [] all_cells.

(** [stdin] after [k] calls of [getchar]. *)
Definition stream_at (bytes : list byte) (k : Z) : stream :=
  mk_stream (drop (Z.to_nat k) bytes) (Z.of_nat (length bytes) <? k).

(** A byte that [read_input] takes for the end of the input: 255 where
    [char] is signed, none where it is not. *)
Definition eof_like (signed_char : bool) (b : byte) : bool :=
  to_char signed_char (Z_of_byte b) =? EOF.

(** What a loop of [read_input] has done when it stops after [k]
    characters with the clues [ps]. *)
Definition read_result (bytes : list byte) (r : result (ctl (sudoku * stream)))
    (ps : list slot) (k : Z) : Prop :=
  if clues_ok ps then
    r = Ok (Next (commit_all ps, stream_at bytes k)) \/
    (r = Ok (Return (commit_all ps, stream_at bytes k)) /\
     Z.of_nat (length bytes) < k)
  else r = AssertFail.


Definition grid_puzzle : list byte :=
  flat_map (fun row => bytes_of row ++ ["010"%byte])
    ["534678912"; "672195348"; "198342567"; "859761423"; "426853791";
     "713924856"; "961537284"; "287419635"; "345286___"]%string.


(* ================================================================== *)
(** ** [print] *)

Definition HYPOTHESIS_COUNT : Z := 0.

Definition VALUE : Z := 1.

Definition ALL_HYPOTHESIS : Z := 2.

(** [abort()] ends the process as a failed assertion does. *)
Definition abort {A : Type} : result A := AssertFail.

(** The [switch] of lines 182-204; ['0'] is 48, ['*'] 42, ['['] 91,
    [' '] 32 and [']'] 93. *)
Definition print_cell (s : sudoku) (mode : Z) (i j : Z) (buf : list Z)
    (poss_count : Z) (out : list byte) : result (list byte) :=
  if mode =? HYPOTHESIS_COUNT then Ok (putchar (wrap (poss_count + 48)) out)
  else if mode =? VALUE then
    if poss_count =? 1 then
      do v <- load_buf buf 0 ;;
      Ok (putchar (wrap (v + 49)) out)
    else Ok (putchar 42 out)
  else if mode =? ALL_HYPOTHESIS then
    let out := putchar 91 out in
    do out <- for_each (range N) (fun n out =>
                do x <- get_constraint s i j n ;;
                if x =? 0 then Ok (putchar (wrap (n + 49)) out)
                else Ok (putchar 32 out)) out ;;
    Ok (putchar 93 out)
  else abort.

Definition print (s : sudoku) (mode : Z) (out : list byte) : result (list byte) :=
  let possibilities := malloc_buffer in
  do '(_, out) <- for_each (range N) (fun i '(buf, out) =>
      do '(buf, out) <- for_each (range N) (fun j '(buf, out) =>
          do '(buf, poss_count) <- get_possibilities_at s i j buf ;;
          do out <- print_cell s mode i j buf poss_count out ;;
          Ok (buf, out)) (buf, out) ;;
      Ok (buf, putchar 10 out)) (possibilities, out) ;;
  Ok (putchar 10 out).

(* ================================================================== *)
(** ** What [print] writes *)

(** The characters that stand for one cell. *)
Definition cell_text (s : sudoku) (mode : Z) (x : cell) : list byte :=
  if mode =? HYPOTHESIS_COUNT then [byte_of_Z (poss_count s x + 48)]
  else if mode =? VALUE then
    match candidates s x with
    | [v] => [byte_of_Z (v + 49)]
    | _ => ["*"%byte]
    end
  else
    ["["%byte] ++
    map (fun n => if count_at s (fst x, snd x, n) =? 0
                  then byte_of_Z (n + 49) else " "%byte) (range N) ++
    ["]"%byte].

(** Nine lines of nine cells, each ended by a newline, and an empty line. *)
Definition rendering (s : sudoku) (mode : Z) : list byte :=
  flat_map (fun i => flat_map (fun j => cell_text s mode (i, j)) (range N) ++
                     ["010"%byte]) (range N) ++
  ["010"%byte].

(** A completed grid as [print] shows it in [VALUE] mode. *)
Definition show_grid (h : grid) : list byte :=
  flat_map (fun i => map (fun j => byte_of_Z (h (i, j) + 49)) (range N) ++
                     ["010"%byte]) (range N) ++
  ["010"%byte].

(* ================================================================== *)
(** ** [main] *)

(** The loop of lines 302-316.  [fuel] bounds the number of iterations
    and [depth] the recursion of [solve]. *)
Fixpoint main_loop (fuel depth : nat) (signed_char : bool) (intype : Z)
    (s : sudoku) (inp : stream) (out : list byte) : result (list byte) :=
  if feof inp then Ok out
  else
    match fuel with
    | O => OutOfFuel
    | S fuel' =>
        do s <- new_sudoku s ;;
        do '(s, inp) <- read_input signed_char s intype inp ;;
        if ninserted s =? 0 then Ok out
        else
          do '(_, s) <- solve depth s ;;
          do out <- print s VALUE out ;;
          main_loop fuel' depth signed_char intype s inp out
    end.

(** [main] returns the exit status and what was written to [stdout].
    [strtol] is the C library's: it maps the argument to the value it
    parsed and to the characters left from [*endptr] on.  [s] is the
    indeterminate content of the local variable [s]. *)
Definition main (strtol : list byte -> Z * list byte) (fuel depth : nat)
    (signed_char : bool) (s : sudoku) (argc : Z) (argv : list (list byte))
    (stdin : list byte) : result (Z * list byte) :=
  if negb (argc =? 2) then Ok (1, [])
  else
    match argv !! 1%nat with
    | None => Undefined
    | Some arg =>
        let '(value, rest) := strtol arg in
        let intype := wrap value in
        if negb (match rest with [] => true | _ => false end) ||
           (intype <? 1) || (intype >? 2)
        then Ok (1, [])
        else
          do out <- main_loop fuel depth signed_char intype s
                      (mk_stream stdin false) [] ;;
          Ok (0, out)
    end.

(* ================================================================== *)
(** ** What a run of the program prints *)

(** One puzzle of the input: as many characters as [read_input] consumes,
    none of them taken for the end of the input, with at least one clue
    and no two clues that clash. *)
Definition puzzle_ok (signed_char : bool) (intype : Z) (p : list byte) : Prop :=
  Z.of_nat (length p) = consumed intype /\
  Forall (fun b => eof_like signed_char b = false) p /\
  clues_ok (clues_read (stride intype) p) = true /\
  clues_read (stride intype) p <> [].

(** What is printed for a puzzle with clues [ps]: a valid completed grid
    that keeps the clues, or, when there is none, the state that holds
    just the clues. *)
Definition answer_for (ps : list slot) (text : list byte) : Prop :=
  (exists h, valid_grid h /\ extends ps h /\ text = show_grid h) \/
  ((forall h, valid_grid h -> ~ extends ps h) /\
   text = rendering (commit_all ps) VALUE).

Definition answer (intype : Z) (p text : list byte) : Prop :=
  answer_for (clues_read (stride intype) p) text.

(** A stand-in for [strtol] on arguments of one digit. *)
Definition strtol_digit (arg : list byte) : Z * list byte :=
  match arg with
  | [] => (0, [])
  | b :: rest =>
      if (48 <=? Z_of_byte b) && (Z_of_byte b <=? 57)
      then (Z_of_byte b - 48, rest) else (0, arg)
  end.



(* ================================================================== *)
(** ** The solution, and the output read back *)

(** Every uncommitted cell has exactly one candidate. *)
Definition singles_check (ps : list slot) (s : sudoku) : bool :=
  forallb (fun x => implb (negb (occupied ps x))
                          (length (candidates s x) =? 1)%nat) all_cells.

(* ================================================================== *)
(** * Proofs *)

(* ================================================================== *)
(** ** Basic facts: bounds, wrap-around, offsets *)

Lemma N_eq : N = 9.
Proof. reflexivity. Qed.

Lemma in_bounds_true i : in_bounds i = true <-> 0 <= i < N.
Proof. unfold in_bounds. rewrite andb_true_iff, Z.leb_le, Z.ltb_lt. tauto. Qed.

Lemma is_intb_true x : is_intb x = true <-> is_int x.
Proof.
  unfold is_intb, is_int. rewrite andb_true_iff, !Z.leb_le. tauto.
Qed.

Lemma wrap_small x : is_int x -> wrap x = x.
Proof.
  unfold is_int, INT_MIN, INT_MAX, wrap. intros H.
  rewrite Z.mod_small; lia.
Qed.

Lemma wrap_is_int x : is_int (wrap x).
Proof.
  unfold is_int, INT_MIN, INT_MAX, wrap.
  pose proof (Z.mod_pos_bound (x + 2 ^ 31) (2 ^ 32) ltac:(lia)). lia.
Qed.

Lemma wrap_add_l x y : wrap (wrap x + y) = wrap (x + y).
Proof.
  unfold wrap. generalize (2 ^ 31) (2 ^ 32). intros h m. f_equal.
  replace ((x + h) mod m - h + y + h) with ((x + h) mod m + y) by lia.
  rewrite Zplus_mod_idemp_l. f_equal. lia.
Qed.

Lemma slot_eqb_true p q : slot_eqb p q = true <-> p = q.
Proof.
  destruct p as [[i j] n], q as [[i' j'] n']. simpl.
  rewrite !andb_true_iff, !Z.eqb_eq. split.
  - intros [[-> ->] ->]. reflexivity.
  - intros [= -> -> ->]. auto.
Qed.

Lemma slot_eqb_false p q : slot_eqb p q = false <-> p <> q.
Proof.
  rewrite <- slot_eqb_true. destruct (slot_eqb p q); split; congruence.
Qed.

Lemma cell_eqb_true x y : cell_eqb x y = true <-> x = y.
Proof.
  destruct x as [i j], y as [i' j']. simpl.
  rewrite andb_true_iff, !Z.eqb_eq. split.
  - intros [-> ->]. reflexivity.
  - intros [= -> ->]. auto.
Qed.

Lemma cell_eqb_false x y : cell_eqb x y = false <-> x <> y.
Proof.
  rewrite <- cell_eqb_true. destruct (cell_eqb x y); split; congruence.
Qed.

Lemma off3_lt q : slot_ok q -> (off3 q < Z.to_nat (N * N * N))%nat.
Proof.
  destruct q as [[i j] n]. unfold slot_ok, off3. rewrite N_eq. lia.
Qed.

Lemma off2_lt x : cell_ok x -> (off2 x < Z.to_nat (N * N))%nat.
Proof. destruct x as [i j]. unfold cell_ok, off2. rewrite N_eq. lia. Qed.

Lemma off3_inj p q : slot_ok p -> slot_ok q -> off3 p = off3 q -> p = q.
Proof.
  destruct p as [[i j] n], q as [[i' j'] n'].
  unfold slot_ok, off3. rewrite N_eq. intros Hp Hq H.
  assert (i = i') by lia. assert (j = j') by lia. assert (n = n') by lia.
  congruence.
Qed.

Lemma off2_inj x y : cell_ok x -> cell_ok y -> off2 x = off2 y -> x = y.
Proof.
  destruct x as [i j], y as [i' j'].
  unfold cell_ok, off2. rewrite N_eq. intros Hx Hy H.
  assert (i = i') by lia. assert (j = j') by lia. congruence.
Qed.

(** Every offset inside the arrays is the offset of some slot or cell. *)
Lemma off3_surj k :
  (k < Z.to_nat (N * N * N))%nat -> exists q, slot_ok q /\ off3 q = k.
Proof.
  rewrite N_eq. intros Hk.
  exists (Z.of_nat k / 81, (Z.of_nat k / 9) mod 9, Z.of_nat k mod 9).
  unfold slot_ok, off3. rewrite N_eq. split; [|].
  - split; [|split].
    + split; [apply Z.div_pos; lia | apply Z.div_lt_upper_bound; lia].
    + apply Z.mod_pos_bound; lia.
    + apply Z.mod_pos_bound; lia.
  - pose proof (Z.div_mod (Z.of_nat k) 9 ltac:(lia)).
    pose proof (Z.div_mod (Z.of_nat k / 9) 9 ltac:(lia)).
    replace (Z.of_nat k / 81) with (Z.of_nat k / 9 / 9)
      by (rewrite Z.div_div; [reflexivity | lia | lia]).
    lia.
Qed.

Lemma off2_surj k :
  (k < Z.to_nat (N * N))%nat -> exists x, cell_ok x /\ off2 x = k.
Proof.
  rewrite N_eq. intros Hk.
  exists (Z.of_nat k / 9, Z.of_nat k mod 9).
  unfold cell_ok, off2. rewrite N_eq. split.
  - split.
    + split; [apply Z.div_pos; lia | apply Z.div_lt_upper_bound; lia].
    + apply Z.mod_pos_bound; lia.
  - pose proof (Z.div_mod (Z.of_nat k) 9 ltac:(lia)). lia.
Qed.

(* ================================================================== *)
(** ** Memory accesses on a state of the right shape *)

Lemma shape_put_count s q x : shape s -> shape (put_count s q x).
Proof. unfold shape, put_count. simpl. rewrite length_insert. tauto. Qed.

Lemma shape_put_flag s x b : shape s -> shape (put_flag s x b).
Proof. unfold shape, put_flag. simpl. rewrite length_insert. tauto. Qed.

Lemma offset3_ok i j n : slot_ok (i, j, n) -> offset3 i j n = Ok (off3 (i, j, n)).
Proof.
  intros (Hi & Hj & Hn). unfold offset3.
  apply in_bounds_true in Hi, Hj, Hn. rewrite Hi, Hj, Hn. reflexivity.
Qed.

Lemma offset2_ok i j : cell_ok (i, j) -> offset2 i j = Ok (off2 (i, j)).
Proof.
  intros (Hi & Hj). unfold offset2.
  apply in_bounds_true in Hi, Hj. rewrite Hi, Hj. reflexivity.
Qed.

Lemma load_ok (mem : list Z) k :
  (k < length mem)%nat -> load mem k = Ok (default 0 (mem !! k)).
Proof.
  intros Hk. unfold load.
  destruct (lookup_lt_is_Some_2 mem k Hk) as [x ->]. reflexivity.
Qed.

Lemma store_ok (mem : list Z) k x :
  (k < length mem)%nat -> store mem k x = Ok (<[k := x]> mem).
Proof.
  intros Hk. unfold store.
  destruct (Nat.ltb_spec k (length mem)); [reflexivity | lia].
Qed.

Lemma get_constraint_ok s i j n :
  shape s -> slot_ok (i, j, n) ->
  get_constraint s i j n = Ok (count_at s (i, j, n)).
Proof.
  intros [Hc _] Hq. unfold get_constraint. rewrite offset3_ok by assumption.
  simpl. apply load_ok. rewrite Hc. apply off3_lt, Hq.
Qed.

Lemma set_constraint_ok s i j n x :
  shape s -> slot_ok (i, j, n) ->
  set_constraint s i j n x = Ok (put_count s (i, j, n) x).
Proof.
  intros [Hc _] Hq. unfold set_constraint. rewrite offset3_ok by assumption.
  simpl. rewrite store_ok; [reflexivity |]. rewrite Hc. apply off3_lt, Hq.
Qed.

Lemma add_constraint_ok s i j n d :
  shape s -> slot_ok (i, j, n) ->
  add_constraint s i j n d = Ok (add_count d s (i, j, n)).
Proof.
  intros Hs Hq. unfold add_constraint.
  rewrite get_constraint_ok by assumption. simpl.
  apply set_constraint_ok; assumption.
Qed.

Lemma get_inserted_ok s i j :
  shape s -> cell_ok (i, j) -> get_inserted s i j = Ok (flag_at s (i, j)).
Proof.
  intros [_ Hi] Hx. unfold get_inserted. rewrite offset2_ok by assumption.
  simpl. apply load_ok. rewrite Hi. apply off2_lt, Hx.
Qed.

Lemma set_inserted_ok s i j b :
  shape s -> cell_ok (i, j) -> set_inserted s i j b = Ok (put_flag s (i, j) b).
Proof.
  intros [_ Hi] Hx. unfold set_inserted. rewrite offset2_ok by assumption.
  simpl. rewrite store_ok; [reflexivity |]. rewrite Hi. apply off2_lt, Hx.
Qed.

Lemma count_at_put_count s p q x :
  shape s -> slot_ok p -> slot_ok q ->
  count_at (put_count s p x) q = if slot_eqb p q then x else count_at s q.
Proof.
  intros [Hc _] Hp Hq. unfold count_at, put_count. simpl.
  destruct (slot_eqb p q) eqn:E.
  - apply slot_eqb_true in E. subst q.
    rewrite list_lookup_insert_eq; [reflexivity |].
    rewrite Hc. apply off3_lt, Hp.
  - apply slot_eqb_false in E.
    rewrite list_lookup_insert_ne; [reflexivity |].
    intros H. apply E. apply off3_inj; assumption.
Qed.

Lemma flag_at_put_flag s x y b :
  shape s -> cell_ok x -> cell_ok y ->
  flag_at (put_flag s x b) y = if cell_eqb x y then b else flag_at s y.
Proof.
  intros [_ Hi] Hx Hy. unfold flag_at, put_flag. simpl.
  destruct (cell_eqb x y) eqn:E.
  - apply cell_eqb_true in E. subst y.
    rewrite list_lookup_insert_eq; [reflexivity |].
    rewrite Hi. apply off2_lt, Hx.
  - apply cell_eqb_false in E.
    rewrite list_lookup_insert_ne; [reflexivity |].
    intros H. apply E. apply off2_inj; assumption.
Qed.

(** Two arrays of the right length that agree at every slot are equal. *)
Lemma constraints_ext s s' :
  shape s -> shape s' ->
  (forall q, slot_ok q -> count_at s q = count_at s' q) ->
  constraints s = constraints s'.
Proof.
  intros [Hc _] [Hc' _] H. apply list_eq. intros k.
  destruct (Nat.lt_ge_cases k (Z.to_nat (N * N * N))) as [Hk | Hk].
  - destruct (off3_surj k Hk) as (q & Hq & <-).
    specialize (H q Hq). unfold count_at in H.
    destruct (lookup_lt_is_Some_2 (constraints s) (off3 q)) as [x Hx];
      [rewrite Hc; apply off3_lt, Hq |].
    destruct (lookup_lt_is_Some_2 (constraints s') (off3 q)) as [x' Hx'];
      [rewrite Hc'; apply off3_lt, Hq |].
    rewrite Hx, Hx' in *. simpl in H. congruence.
  - rewrite !lookup_ge_None_2; [reflexivity | lia | lia].
Qed.

Lemma inserted_ext s s' :
  shape s -> shape s' ->
  (forall x, cell_ok x -> flag_at s x = flag_at s' x) ->
  inserted s = inserted s'.
Proof.
  intros [_ Hi] [_ Hi'] H. apply list_eq. intros k.
  destruct (Nat.lt_ge_cases k (Z.to_nat (N * N))) as [Hk | Hk].
  - destruct (off2_surj k Hk) as (x & Hx & <-).
    specialize (H x Hx). unfold flag_at in H.
    destruct (lookup_lt_is_Some_2 (inserted s) (off2 x)) as [b Hb];
      [rewrite Hi; apply off2_lt, Hx |].
    destruct (lookup_lt_is_Some_2 (inserted s') (off2 x)) as [b' Hb'];
      [rewrite Hi'; apply off2_lt, Hx |].
    rewrite Hb, Hb' in *. simpl in H. congruence.
  - rewrite !lookup_ge_None_2; [reflexivity | lia | lia].
Qed.

(** Values read from a well-formed state are [int]s. *)
Lemma count_at_is_int s q : wf s -> is_int (count_at s q).
Proof.
  intros (_ & Hc & _). unfold count_at.
  destruct (constraints s !! off3 q) as [x |] eqn:E; simpl.
  - rewrite Forall_forall in Hc. apply Hc.
    eapply list_elem_of_lookup_2, E.
  - unfold is_int, INT_MIN, INT_MAX. lia.
Qed.

Lemma flag_at_is_int s x : wf s -> is_int (flag_at s x).
Proof.
  intros (_ & _ & Hi & _). unfold flag_at.
  destruct (inserted s !! off2 x) as [b |] eqn:E; simpl.
  - rewrite Forall_forall in Hi. apply Hi.
    eapply list_elem_of_lookup_2, E.
  - unfold is_int, INT_MIN, INT_MAX. lia.
Qed.

Lemma Forall_is_int_insert (l : list Z) k x :
  Forall is_int l -> is_int x -> Forall is_int (<[k := x]> l).
Proof.
  intros Hl Hx. apply Forall_forall. intros y Hy.
  apply list_elem_of_lookup in Hy as [i Hi].
  destruct (decide (i = k)) as [-> | Hne].
  - destruct (Nat.lt_ge_cases k (length l)).
    + rewrite list_lookup_insert_eq in Hi by assumption. congruence.
    + rewrite list_insert_ge in Hi by assumption.
      rewrite Forall_forall in Hl. apply Hl.
      eapply list_elem_of_lookup_2, Hi.
  - rewrite list_lookup_insert_ne in Hi by congruence.
    rewrite Forall_forall in Hl. apply Hl.
    eapply list_elem_of_lookup_2, Hi.
Qed.

Lemma wf_put_count s q x : wf s -> is_int x -> wf (put_count s q x).
Proof.
  intros (Hs & Hc & Hi & Hn & Hb) Hx. split; [apply shape_put_count, Hs |].
  unfold put_count. simpl. split; [| split; [| split]]; try assumption.
  apply Forall_is_int_insert; assumption.
Qed.

Lemma wf_put_flag s x b : wf s -> is_int b -> wf (put_flag s x b).
Proof.
  intros (Hs & Hc & Hi & Hn & Hb) Hx. split; [apply shape_put_flag, Hs |].
  unfold put_flag. simpl. split; [| split; [| split]]; try assumption.
  apply Forall_is_int_insert; assumption.
Qed.

Lemma wf_add_count d s q : wf s -> wf (add_count d s q).
Proof. intros H. apply wf_put_count; [assumption | apply wrap_is_int]. Qed.

Lemma forallb_is_intb (l : list Z) : forallb is_intb l = true <-> Forall is_int l.
Proof.
  induction l as [| x l IH]; simpl.
  - split; [constructor | reflexivity].
  - rewrite andb_true_iff, Forall_cons, is_intb_true, IH. tauto.
Qed.

Lemma wfb_true s : wfb s = true <-> wf s.
Proof.
  unfold wfb, wf, shape.
  rewrite !andb_true_iff, !Nat.eqb_eq, !forallb_is_intb, !is_intb_true.
  tauto.
Qed.

(* ================================================================== *)
(** ** The slots swept by [change_state_at] *)

Lemma slot_okb_true q : slot_okb q = true <-> slot_ok q.
Proof.
  destruct q as [[i j] n]. unfold slot_okb, slot_ok.
  rewrite !andb_true_iff, !in_bounds_true. tauto.
Qed.

Lemma elem_of_range i n : i ∈ range n <-> 0 <= i < n.
Proof. unfold range. rewrite elem_of_seqZ. lia. Qed.

Lemma forallb_range (f : Z -> bool) n :
  forallb f (range n) = true -> forall i, 0 <= i < n -> f i = true.
Proof.
  intros H i Hi. rewrite forallb_forall in H. apply H.
  apply list_elem_of_In, elem_of_range, Hi.
Qed.

Lemma forall3_true (f : Z -> Z -> Z -> bool) :
  forall3 f = true -> forall i j n, slot_ok (i, j, n) -> f i j n = true.
Proof.
  unfold forall3. intros H i j n (Hi & Hj & Hn).
  apply (forallb_range _ _ H) in Hi.
  apply (forallb_range _ _ Hi) in Hj.
  apply (forallb_range _ _ Hj) in Hn. exact Hn.
Qed.

Lemma forall2_true (f : Z -> Z -> bool) :
  forall2 f = true -> forall i j, cell_ok (i, j) -> f i j = true.
Proof.
  unfold forall2. intros H i j (Hi & Hj).
  apply (forallb_range _ _ H) in Hi.
  apply (forallb_range _ _ Hi) in Hj. exact Hj.
Qed.

Lemma cell_check_true :
  forall2 (fun row col => forall2 (cell_check row col)) = true.
Proof. vm_compute. reflexivity. Qed.

Lemma num_times_range v : 0 <= v < N -> num_times v (range N) = 1.
Proof.
  intros Hv.
  pose proof (forallb_range (fun v => num_times v (range N) =? 1) N eq_refl v Hv) as H.
  apply Z.eqb_eq, H.
Qed.

Lemma cell_times_app x l1 l2 :
  cell_times x (l1 ++ l2) = cell_times x l1 + cell_times x l2.
Proof. induction l1 as [| y l1 IH]; simpl; [reflexivity | rewrite IH; lia]. Qed.

Lemma times_app q l1 l2 : times q (l1 ++ l2) = times q l1 + times q l2.
Proof. induction l1 as [| y l1 IH]; simpl; [reflexivity | rewrite IH; lia]. Qed.

Lemma times_lines row col number r c v (l : list Z) :
  times (r, c, v)
        (flat_map (fun a => [(row, a, number); (a, col, number); (row, col, a)]) l) =
  Z.b2z (number =? v) * cell_times (r, c) (flat_map (fun a => [(row, a); (a, col)]) l) +
  Z.b2z (cell_eqb (row, col) (r, c)) * num_times v l.
Proof.
  induction l as [| a l IH]; [simpl; lia |].
  cbn [flat_map app times cell_times num_times]. rewrite IH.
  unfold slot_eqb, cell_eqb.
  destruct (row =? r), (col =? c), (number =? v), (a =? r), (a =? c), (a =? v);
    cbn [andb Z.b2z]; lia.
Qed.

Lemma times_numbered number r c v (l : list cell) :
  times (r, c, v) (map (fun x => (fst x, snd x, number)) l) =
  Z.b2z (number =? v) * cell_times (r, c) l.
Proof.
  induction l as [| [i j] l IH]; [simpl; lia |].
  cbn [map times cell_times fst snd]. rewrite IH.
  unfold slot_eqb, cell_eqb.
  destruct (i =? r), (j =? c), (number =? v); cbn [andb Z.b2z]; lia.
Qed.

Lemma box_slots_numbered row col number :
  box_slots row col number =
  map (fun x => (fst x, snd x, number)) (box_cells_of row col).
Proof. reflexivity. Qed.

Lemma times_sweep_slots row col number q :
  slot_ok (row, col, number) -> slot_ok q ->
  times q (sweep_slots row col number) =
  if slot_eqb (row, col, number) q then 4 else contrib (row, col, number) q.
Proof.
  destruct q as [[r c] v]. intros (Hrow & Hcol & Hnum) (Hr & Hc & Hv).
  unfold sweep_slots, lines_slots.
  rewrite times_app, times_lines, box_slots_numbered, times_numbered.
  rewrite num_times_range by assumption.
  fold (lines_cells row col).
  pose proof (forall2_true _ (forall2_true _ cell_check_true row col (conj Hrow Hcol))
                r c (conj Hr Hc)) as H.
  unfold cell_check in H. apply Z.eqb_eq in H. rewrite cell_times_app in H.
  unfold contrib, slot_eqb. fold (cell_eqb (row, col) (r, c)).
  destruct (cell_eqb (row, col) (r, c)), (number =? v); cbn [andb Z.b2z]; lia.
Qed.

Lemma sweep_bounds_check_true :
  forall3 (fun row col number => forallb slot_okb (sweep_slots row col number))
  = true.
Proof. vm_compute. reflexivity. Qed.

Lemma sweep_slots_ok row col number :
  slot_ok (row, col, number) -> Forall slot_ok (sweep_slots row col number).
Proof.
  intros Hp.
  pose proof (forall3_true (fun row col number => forallb slot_okb (sweep_slots row col number)) sweep_bounds_check_true row col number Hp) as H.
  cbv beta in H.
  apply Forall_forall. intros q Hq. apply slot_okb_true.
  rewrite forallb_forall in H. apply H, list_elem_of_In, Hq.
Qed.

(* ================================================================== *)
(** ** Loops whose body cannot fail *)

Lemma for_each_pure {A S : Type} (P : S -> Prop) (ok : A -> Prop)
    (g : S -> A -> S) (body : A -> S -> result S) (l : list A) :
  (forall a s, ok a -> P s -> body a s = Ok (g s a) /\ P (g s a)) ->
  Forall ok l ->
  forall s, P s -> for_each l body s = Ok (foldl g s l) /\ P (foldl g s l).
Proof.
  intros Hbody Hl. induction Hl as [| a l Ha Hl IH]; intros s Hs; simpl.
  - auto.
  - destruct (Hbody a s Ha Hs) as [-> HP]. simpl. apply IH, HP.
Qed.

Lemma foldl_flat_map {A B S : Type} (f : S -> B -> S) (h : A -> list B)
    (l : list A) (s : S) :
  foldl (fun s a => foldl f s (h a)) s l = foldl f s (flat_map h l).
Proof.
  revert s. induction l as [| a l IH]; intros s; simpl.
  - reflexivity.
  - rewrite foldl_app. apply IH.
Qed.

Lemma Forall_range_bounds n : Forall (fun i => 0 <= i < n) (range n).
Proof. apply Forall_forall. intros i. apply elem_of_range. Qed.

(** *** A sequence of [+=] on a well-formed state *)

Lemma wf_foldl_add_count d ts s : wf s -> wf (foldl (add_count d) s ts).
Proof.
  revert s. induction ts as [| t ts IH]; intros s Hs; simpl.
  - assumption.
  - apply IH, wf_add_count, Hs.
Qed.

Lemma foldl_add_count_frame d ts s :
  inserted (foldl (add_count d) s ts) = inserted s /\
  ninserted (foldl (add_count d) s ts) = ninserted s /\
  nbacktracks (foldl (add_count d) s ts) = nbacktracks s.
Proof.
  revert s. induction ts as [| t ts IH]; intros s; simpl.
  - auto.
  - destruct (IH (add_count d s t)) as (-> & -> & ->). auto.
Qed.

Lemma count_at_foldl_add_count d ts :
  Forall slot_ok ts ->
  forall s q, wf s -> slot_ok q ->
  count_at (foldl (add_count d) s ts) q =
  wrap (count_at s q + d * times q ts).
Proof.
  induction 1 as [| t ts Ht Hts IH]; intros s q Hs Hq; simpl.
  - rewrite Z.mul_0_r, Z.add_0_r. symmetry.
    apply wrap_small, count_at_is_int, Hs.
  - rewrite IH by (try apply wf_add_count; assumption).
    unfold add_count.
    rewrite count_at_put_count by (try apply Hs; assumption).
    destruct (slot_eqb t q) eqn:E.
    + apply slot_eqb_true in E. subst t.
      rewrite wrap_add_l. f_equal. lia.
    + f_equal.
Qed.

(* ================================================================== *)
(** ** The sweeps of [change_state_at] as a sequence of [+=] *)

Lemma foldl_map {A B S : Type} (f : S -> B -> S) (h : A -> B) (l : list A) (s : S) :
  foldl (fun s a => f s (h a)) s l = foldl f s (map h l).
Proof.
  revert s. induction l as [| a l IH]; intros s; simpl; [reflexivity | apply IH].
Qed.

Lemma shape_add_count d s q : shape s -> shape (add_count d s q).
Proof. apply shape_put_count. Qed.

Lemma sweep_lines_ok s row col number d :
  shape s -> slot_ok (row, col, number) ->
  sweep_lines s row col number d =
    Ok (foldl (add_count d) s (lines_slots row col number)) /\
  shape (foldl (add_count d) s (lines_slots row col number)).
Proof.
  intros Hs (Hrow & Hcol & Hnum). unfold sweep_lines, lines_slots.
  rewrite <- foldl_flat_map.
  apply (for_each_pure shape (fun a => 0 <= a < N));
    [| apply Forall_range_bounds | assumption].
  intros a s' Ha Hs'. simpl.
  rewrite add_constraint_ok by (unfold slot_ok; auto). simpl.
  rewrite add_constraint_ok
    by (try apply shape_add_count; unfold slot_ok; auto). simpl.
  rewrite add_constraint_ok
    by (repeat apply shape_add_count; unfold slot_ok; auto).
  split; [reflexivity | repeat apply shape_add_count; assumption].
Qed.

Lemma box_index_bounds x i :
  0 <= x < N -> 0 <= i < SQRT_N -> 0 <= SQRT_N * Z.quot x SQRT_N + i < N.
Proof.
  rewrite N_eq. unfold SQRT_N. intros Hx Hi.
  rewrite Z.quot_div_nonneg by lia.
  pose proof (Z.div_mod x 3 ltac:(lia)).
  pose proof (Z.mod_pos_bound x 3 ltac:(lia)). lia.
Qed.

Lemma sweep_box_ok s row col number d :
  shape s -> slot_ok (row, col, number) ->
  sweep_box s row col number d =
    Ok (foldl (add_count d) s (box_slots row col number)) /\
  shape (foldl (add_count d) s (box_slots row col number)).
Proof.
  intros Hs (Hrow & Hcol & Hnum). unfold sweep_box, box_slots. cbv zeta.
  rewrite <- foldl_flat_map.
  apply (for_each_pure shape (fun i => 0 <= i < SQRT_N));
    [| apply Forall_range_bounds | assumption].
  intros i s' Hi Hs'.
  rewrite <- foldl_map.
  apply (for_each_pure shape (fun j => 0 <= j < SQRT_N));
    [| apply Forall_range_bounds | assumption].
  intros j s'' Hj Hs''.
  rewrite add_constraint_ok;
    [split; [reflexivity | apply shape_add_count, Hs''] | assumption |].
  unfold slot_ok. auto using box_index_bounds.
Qed.

Lemma change_state_sweeps_ok s row col number type :
  shape s -> slot_ok (row, col, number) -> type = 1 \/ type = -1 ->
  count_at s (row, col, number) = 0 ->
  change_state_sweeps s row col number type =
    Ok (swept s (row, col, number) type) /\
  shape (swept s (row, col, number) type).
Proof.
  intros Hs Hp Ht H0. unfold change_state_sweeps, swept.
  assert (Ha1 : (type =? -1) || (type =? 1) = true)
    by (destruct Ht; subst; reflexivity).
  rewrite Ha1. cbn [bind assert].
  assert (Ha2 : (number >=? 0) && (number <? N) = true).
  { destruct Hp as (_ & _ & Hn). rewrite andb_true_iff, Z.geb_le, Z.ltb_lt. lia. }
  rewrite Ha2. cbn [bind assert].
  rewrite get_constraint_ok by assumption. cbn [bind assert]. rewrite H0. cbn [bind assert Z.eqb].
  rewrite set_inserted_ok by (try assumption; unfold cell_ok, slot_ok in *; tauto).
  cbn [bind assert].
  set (s0 := put_flag s (row, col) (if type =? -1 then 0 else 1)).
  assert (Hs0 : shape s0) by apply shape_put_flag, Hs.
  destruct (sweep_lines_ok s0 row col number type Hs0 Hp) as [-> Hs1]. cbn [bind assert].
  unfold sweep_slots. rewrite foldl_app.
  apply sweep_box_ok; assumption.
Qed.

Lemma cell_of_ok p : slot_ok p -> cell_ok (cell_of p).
Proof. destruct p as [[r c] v]. unfold slot_ok, cell_ok, cell_of. tauto. Qed.

Lemma is_int_small x : -1000 <= x <= 1000 -> is_int x.
Proof. unfold is_int, INT_MIN, INT_MAX. lia. Qed.

Lemma wf_swept s p type : wf s -> wf (swept s p type).
Proof.
  intros Hs. destruct p as [[row col] number]. unfold swept.
  apply wf_foldl_add_count, wf_put_flag; [assumption |].
  apply is_int_small. destruct (type =? -1); lia.
Qed.

Lemma swept_frame s p type :
  ninserted (swept s p type) = ninserted s /\
  nbacktracks (swept s p type) = nbacktracks s.
Proof.
  destruct p as [[row col] number]. unfold swept.
  match goal with
  | |- context [foldl (add_count ?d) ?s0 ?ts] =>
      destruct (foldl_add_count_frame d ts s0) as (_ & -> & ->)
  end.
  split; reflexivity.
Qed.

Lemma count_at_swept s p type q :
  wf s -> slot_ok p -> slot_ok q ->
  count_at (swept s p type) q =
  wrap (count_at s q + type * (if slot_eqb p q then 4 else contrib p q)).
Proof.
  intros Hs Hp Hq. destruct p as [[row col] number]. unfold swept.
  rewrite count_at_foldl_add_count;
    [| apply sweep_slots_ok, Hp
     | apply wf_put_flag; [assumption | apply is_int_small; destruct (type =? -1); lia]
     | assumption].
  rewrite times_sweep_slots by assumption. reflexivity.
Qed.

Lemma flag_at_swept s p type x :
  shape s -> slot_ok p -> cell_ok x ->
  flag_at (swept s p type) x =
  if cell_eqb (cell_of p) x then (if type =? -1 then 0 else 1) else flag_at s x.
Proof.
  intros Hs Hp Hx. destruct p as [[row col] number]. unfold swept, cell_of.
  rewrite <- (flag_at_put_flag s (row, col) x) by (try apply (cell_of_ok _ Hp); assumption).
  unfold flag_at.
  match goal with
  | |- context [foldl (add_count ?d) ?s0 ?ts] =>
      destruct (foldl_add_count_frame d ts s0) as (-> & _ & _)
  end.
  reflexivity.
Qed.

Lemma wrap_times_4 type : type = 1 \/ type = -1 -> wrap (type * 4) = type * 4.
Proof. intros [-> | ->]; reflexivity. Qed.

(** [change_state_at] cannot fail when its three leading assertions hold. *)
Lemma change_state_at_ok s row col number type :
  wf s -> slot_ok (row, col, number) -> type = 1 \/ type = -1 ->
  count_at s (row, col, number) = 0 ->
  change_state_at s row col number type = Ok (changed s (row, col, number) type).
Proof.
  intros Hs Hp Ht H0. unfold change_state_at, changed.
  destruct (change_state_sweeps_ok s row col number type (proj1 Hs) Hp Ht H0)
    as [-> Hs1].
  cbn [bind]. rewrite get_constraint_ok by assumption. cbn [bind].
  rewrite count_at_swept by assumption.
  assert (E : slot_eqb (row, col, number) (row, col, number) = true)
    by (apply slot_eqb_true; reflexivity).
  rewrite E, H0, Z.add_0_l, Z.eqb_refl. cbn [bind assert].
  rewrite set_constraint_ok by assumption. reflexivity.
Qed.

Lemma wf_changed s p type : wf s -> wf (changed s p type).
Proof.
  intros Hs. unfold changed.
  pose proof (wf_put_count (swept s p type) p 0 (wf_swept s p type Hs)
                (is_int_small 0 ltac:(lia))) as (H1 & H2 & H3 & H4 & H5).
  split; [exact H1 |]. simpl. split; [exact H2 |]. split; [exact H3 |].
  split; [apply wrap_is_int | exact H5].
Qed.

Lemma count_at_changed s p type q :
  wf s -> slot_ok p -> slot_ok q ->
  count_at (changed s p type) q =
  if slot_eqb p q then 0 else wrap (count_at s q + type * contrib p q).
Proof.
  intros Hs Hp Hq. unfold changed.
  change (count_at (with_ninserted ?s1 ?n) q) with (count_at s1 q).
  rewrite count_at_put_count by (try apply wf_swept; assumption).
  destruct (slot_eqb p q) eqn:E; [reflexivity |].
  rewrite count_at_swept by assumption. rewrite E. reflexivity.
Qed.

Lemma flag_at_changed s p type x :
  shape s -> slot_ok p -> cell_ok x ->
  flag_at (changed s p type) x =
  if cell_eqb (cell_of p) x then (if type =? -1 then 0 else 1) else flag_at s x.
Proof.
  intros Hs Hp Hx. unfold changed.
  change (flag_at (with_ninserted (put_count ?s1 ?p' ?z) ?n) x) with (flag_at s1 x).
  apply flag_at_swept; assumption.
Qed.

Lemma ninserted_changed s p type :
  ninserted (changed s p type) = wrap (ninserted s + type).
Proof.
  unfold changed. simpl. destruct (swept_frame s p type) as [-> _]. reflexivity.
Qed.

Lemma nbacktracks_changed s p type :
  nbacktracks (changed s p type) = nbacktracks s.
Proof.
  unfold changed. simpl. apply (swept_frame s p type).
Qed.

(* ================================================================== *)
(** ** The committed numbers and what they weigh on each slot

    The C state does not record which number a cell holds; the history of
    commits does.  A list of slots [(r, c, v)] stands for "number [v] is
    committed at [(r, c)]". *)

Lemma contrib_sym p q : contrib p q = contrib q p.
Proof.
  destruct p as [[r0 c0] v0], q as [[r c] v].
  unfold contrib, shared_groups, same_box, cell_eqb. simpl.
  rewrite (Z.eqb_sym r r0), (Z.eqb_sym c c0), (Z.eqb_sym v v0).
  rewrite (Z.eqb_sym (r / SQRT_N)), (Z.eqb_sym (c / SQRT_N)). reflexivity.
Qed.

Lemma contrib_bounds p q : 0 <= contrib p q <= 3.
Proof.
  destruct p as [[r0 c0] v0], q as [[r c] v].
  unfold contrib, shared_groups, same_box, cell_eqb. simpl.
  repeat match goal with
         | |- context [?a =? ?b] => destruct (a =? b)
         end; simpl; lia.
Qed.

Lemma contrib_self p : contrib p p = 0.
Proof.
  destruct p as [[r c] v]. unfold contrib, cell_eqb.
  rewrite !Z.eqb_refl. reflexivity.
Qed.

Lemma weight_bounds ps q : 0 <= weight ps q <= 3 * Z.of_nat (length ps).
Proof.
  induction ps as [| p ps IH]; simpl length; simpl weight.
  - lia.
  - pose proof (contrib_bounds p q). lia.
Qed.

Lemma weight_zero ps q : weight ps q = 0 <-> forall p, p ∈ ps -> contrib p q = 0.
Proof.
  induction ps as [| p ps IH]; simpl.
  - split; [intros _ p Hp; inversion Hp | reflexivity].
  - pose proof (contrib_bounds p q) as Hb1.
    pose proof (weight_bounds ps q) as Hb2. split.
    + intros H p' Hp'. apply elem_of_cons in Hp' as [-> | Hp'];
        [lia | apply IH; [lia | assumption]].
    + intros H'. rewrite (H' p) by apply list_elem_of_here.
      rewrite (proj2 IH); [reflexivity |].
      intros p' Hp'. apply H'. apply list_elem_of_further, Hp'.
Qed.

Lemma occupied_true ps x : occupied ps x = true <-> x ∈ map cell_of ps.
Proof.
  unfold occupied. rewrite existsb_exists. rewrite list_elem_of_In, in_map_iff.
  split; intros (p & H1 & H2); exists p.
  - apply cell_eqb_true in H2. auto.
  - rewrite cell_eqb_true. auto.
Qed.

Lemma occupied_false ps x : occupied ps x = false <-> x ∉ map cell_of ps.
Proof.
  rewrite <- occupied_true. destruct (occupied ps x); split; congruence.
Qed.

Lemma elem_of_all_cells x : cell_ok x -> x ∈ all_cells.
Proof.
  destruct x as [i j]. intros [Hi Hj]. unfold all_cells.
  apply list_elem_of_In, in_flat_map. exists i. split.
  - apply list_elem_of_In, elem_of_range, Hi.
  - apply in_map, list_elem_of_In, elem_of_range, Hj.
Qed.

Lemma all_cells_ok x : x ∈ all_cells -> cell_ok x.
Proof.
  unfold all_cells. rewrite list_elem_of_In, in_flat_map.
  intros (i & Hi & Hx). apply in_map_iff in Hx as (j & <- & Hj).
  apply list_elem_of_In, elem_of_range in Hi, Hj. split; assumption.
Qed.

Lemma length_all_cells : length all_cells = 81%nat.
Proof. reflexivity. Qed.

Lemma NoDup_all_cells : NoDup all_cells.
Proof.
  apply NoDup_ListNoDup.
  apply (NoDup_map_inv off2).
  vm_compute. apply NoDup_ListNoDup, NoDup_seq with (j := 0%nat) (n := 81%nat).
Qed.

Lemma cells_bound ps :
  Forall slot_ok ps -> NoDup (map cell_of ps) -> (length ps <= 81)%nat.
Proof.
  intros Hok Hnd. rewrite <- (length_map cell_of), <- length_all_cells.
  apply submseteq_length, NoDup_submseteq; [assumption |].
  intros x Hx. apply elem_of_all_cells.
  apply list_elem_of_In, in_map_iff in Hx as (p & <- & Hp).
  apply cell_of_ok. rewrite Forall_forall in Hok. apply Hok, list_elem_of_In, Hp.
Qed.

(** With every cell committed, each cell holds a number. *)
Lemma cells_full ps x :
  Forall slot_ok ps -> NoDup (map cell_of ps) -> length ps = 81%nat ->
  cell_ok x -> x ∈ map cell_of ps.
Proof.
  intros Hok Hnd Hlen Hx.
  assert (Hsub : map cell_of ps ⊆+ all_cells).
  { apply NoDup_submseteq; [assumption |].
    intros y Hy. apply elem_of_all_cells.
    apply list_elem_of_In, in_map_iff in Hy as (p & <- & Hp).
    apply cell_of_ok. rewrite Forall_forall in Hok. apply Hok, list_elem_of_In, Hp. }
  apply submseteq_length_Permutation in Hsub;
    [| rewrite length_map, Hlen, length_all_cells; lia].
  rewrite Hsub. apply elem_of_all_cells, Hx.
Qed.

Lemma Inv_length ps s : Inv ps s -> (length ps <= 81)%nat.
Proof. intros (_ & Hok & Hnd & _). apply cells_bound; assumption. Qed.

(* ================================================================== *)
(** ** Commit and retract preserve the invariant *)

Lemma wrap_weight_add ps p q :
  (length ps <= 81)%nat -> wrap (weight ps q + 1 * contrib p q) = contrib p q + weight ps q.
Proof.
  intros Hlen. pose proof (weight_bounds ps q). pose proof (contrib_bounds p q).
  rewrite wrap_small; [lia | apply is_int_small; lia].
Qed.

Lemma Inv_insert ps s p :
  Inv ps s -> slot_ok p -> occupied ps (cell_of p) = false -> weight ps p = 0 ->
  Inv (p :: ps) (changed s p 1).
Proof.
  intros HI Hp Hfree Hzero.
  pose proof (Inv_length _ _ HI) as Hlen.
  destruct HI as (Hwf & Hok & Hnd & Hcnt & Hflag & Hn & Hcons).
  split; [apply wf_changed, Hwf |].
  split; [constructor; assumption |].
  split; [simpl; constructor; [apply occupied_false, Hfree | assumption] |].
  split; [| split; [| split]].
  - intros q Hq. rewrite count_at_changed by assumption. simpl weight.
    destruct (slot_eqb p q) eqn:E.
    + apply slot_eqb_true in E. subst q. rewrite contrib_self, Hzero. reflexivity.
    + rewrite Hcnt by assumption. apply wrap_weight_add, Hlen.
  - intros x Hx. rewrite flag_at_changed by (try apply Hwf; assumption).
    simpl occupied. destruct (cell_eqb (cell_of p) x); [reflexivity |].
    simpl. apply Hflag, Hx.
  - rewrite ninserted_changed, Hn. simpl length.
    rewrite wrap_small; [lia | apply is_int_small; lia].
  - intros p' Hp'. simpl weight. apply elem_of_cons in Hp' as [-> | Hp'].
    + rewrite contrib_self, Hzero. reflexivity.
    + rewrite (Hcons p' Hp'), contrib_sym.
      rewrite weight_zero in Hzero. rewrite (Hzero p' Hp'). reflexivity.
Qed.

Lemma elem_of_remove_slot p ps p' : p' ∈ remove_slot p ps <-> p' ∈ ps /\ p' <> p.
Proof.
  unfold remove_slot. rewrite !list_elem_of_In, filter_In, negb_true_iff, slot_eqb_false.
  split; intros [H1 H2]; split; auto.
Qed.

Lemma remove_slot_notin p ps : p ∉ ps -> remove_slot p ps = ps.
Proof.
  induction ps as [| p' ps IH]; intros Hp; simpl; [reflexivity |].
  rewrite not_elem_of_cons in Hp. destruct Hp as [Hne Hp].
  destruct (slot_eqb p p') eqn:E.
  - apply slot_eqb_true in E. congruence.
  - simpl. f_equal. apply IH, Hp.
Qed.

Lemma remove_slot_head p ps : p ∉ ps -> remove_slot p (p :: ps) = ps.
Proof.
  intros Hp. simpl.
  assert (E : slot_eqb p p = true) by (apply slot_eqb_true; reflexivity).
  rewrite E. simpl. apply remove_slot_notin, Hp.
Qed.

Lemma weight_remove_slot p ps q :
  NoDup ps -> p ∈ ps -> weight (remove_slot p ps) q = weight ps q - contrib p q.
Proof.
  induction 1 as [| p' ps Hnotin Hnd IH]; intros Hp; [inversion Hp |].
  simpl. destruct (slot_eqb p p') eqn:E.
  - apply slot_eqb_true in E. subst p'. simpl.
    fold (remove_slot p ps). rewrite remove_slot_notin by assumption. lia.
  - apply slot_eqb_false in E. simpl. fold (remove_slot p ps).
    apply elem_of_cons in Hp as [-> | Hp]; [congruence |].
    rewrite IH by assumption. lia.
Qed.

Lemma length_remove_slot p ps :
  NoDup ps -> p ∈ ps -> S (length (remove_slot p ps)) = length ps.
Proof.
  induction 1 as [| p' ps Hnotin Hnd IH]; intros Hp; [inversion Hp |].
  simpl. destruct (slot_eqb p p') eqn:E.
  - apply slot_eqb_true in E. subst p'. simpl.
    fold (remove_slot p ps). rewrite remove_slot_notin by assumption. reflexivity.
  - apply slot_eqb_false in E. simpl. fold (remove_slot p ps).
    apply elem_of_cons in Hp as [-> | Hp]; [congruence |].
    rewrite IH by assumption. reflexivity.
Qed.

Lemma cells_remove_slot p ps x :
  x ∈ map cell_of (remove_slot p ps) -> x ∈ map cell_of ps.
Proof.
  rewrite !list_elem_of_In, !in_map_iff. intros (p' & <- & Hp').
  exists p'. split; [reflexivity |].
  apply list_elem_of_In, elem_of_remove_slot in Hp'. apply list_elem_of_In, Hp'.
Qed.

Lemma NoDup_cells_remove_slot p ps :
  NoDup (map cell_of ps) -> NoDup (map cell_of (remove_slot p ps)).
Proof.
  induction ps as [| p' ps IH]; simpl; intros Hnd; [constructor |].
  apply NoDup_cons in Hnd as [Hnotin Hnd].
  destruct (slot_eqb p p'); simpl; fold (remove_slot p ps).
  - apply IH, Hnd.
  - constructor; [| apply IH, Hnd].
    intros Hin. apply Hnotin. eapply cells_remove_slot, Hin.
Qed.

Lemma NoDup_slots ps : NoDup (map cell_of ps) -> NoDup ps.
Proof. apply (NoDup_fmap_1 cell_of). Qed.

Lemma occupied_remove_slot p ps x :
  NoDup (map cell_of ps) -> p ∈ ps ->
  occupied (remove_slot p ps) x =
  if cell_eqb (cell_of p) x then false else occupied ps x.
Proof.
  intros Hnd Hp. destruct (cell_eqb (cell_of p) x) eqn:E.
  - apply cell_eqb_true in E. subst x. apply occupied_false.
    intros Hin. apply list_elem_of_In, in_map_iff in Hin as (p' & Hc & Hp').
    apply list_elem_of_In, elem_of_remove_slot in Hp' as [Hp' Hne].
    apply Hne.
    apply list_elem_of_lookup in Hp as [i Hi].
    apply list_elem_of_lookup in Hp' as [j Hj].
    assert (i = j).
    { apply (NoDup_lookup _ i j (cell_of p) Hnd).
      - change (map cell_of ps) with (cell_of <$> ps).
        rewrite list_lookup_fmap, Hi. reflexivity.
      - change (map cell_of ps) with (cell_of <$> ps).
        rewrite list_lookup_fmap, Hj. simpl. congruence. }
    congruence.
  - apply cell_eqb_false in E.
    destruct (occupied ps x) eqn:O.
    + apply occupied_true. apply occupied_true in O.
      apply list_elem_of_In, in_map_iff in O as (p' & Hc & Hp').
      apply list_elem_of_In, in_map_iff. exists p'. split; [assumption |].
      apply list_elem_of_In, elem_of_remove_slot. split; [apply list_elem_of_In, Hp' |].
      intros ->. congruence.
    + apply occupied_false. apply occupied_false in O.
      intros Hin. apply O. eapply cells_remove_slot, Hin.
Qed.

Lemma Inv_remove ps s p :
  Inv ps s -> p ∈ ps -> Inv (remove_slot p ps) (changed s p (-1)).
Proof.
  intros HI Hp.
  pose proof (Inv_length _ _ HI) as Hlen.
  destruct HI as (Hwf & Hok & Hnd & Hcnt & Hflag & Hn & Hcons).
  pose proof (NoDup_slots _ Hnd) as Hnd'.
  assert (Hpok : slot_ok p) by (rewrite Forall_forall in Hok; apply Hok, Hp).
  split; [apply wf_changed, Hwf |].
  split.
  { apply Forall_forall. intros p' Hp'. apply elem_of_remove_slot in Hp' as [Hp' _].
    rewrite Forall_forall in Hok. apply Hok, Hp'. }
  split; [apply NoDup_cells_remove_slot, Hnd |].
  split; [| split; [| split]].
  - intros q Hq. rewrite count_at_changed by assumption.
    rewrite weight_remove_slot by assumption.
    destruct (slot_eqb p q) eqn:E.
    + apply slot_eqb_true in E. subst q. rewrite contrib_self, (Hcons p Hp). reflexivity.
    + rewrite Hcnt by assumption.
      pose proof (weight_bounds (remove_slot p ps) q) as Hb.
      rewrite weight_remove_slot in Hb by assumption.
      pose proof (length_remove_slot p ps Hnd' Hp).
      rewrite wrap_small; [lia | apply is_int_small; lia].
  - intros x Hx. rewrite flag_at_changed by (try apply Hwf; assumption).
    rewrite occupied_remove_slot by assumption.
    destruct (cell_eqb (cell_of p) x); [reflexivity |]. apply Hflag, Hx.
  - rewrite ninserted_changed, Hn.
    pose proof (length_remove_slot p ps Hnd' Hp).
    rewrite wrap_small; [lia | apply is_int_small; lia].
  - intros p' Hp'. apply elem_of_remove_slot in Hp' as [Hp' Hne].
    rewrite weight_remove_slot by assumption.
    pose proof (Hcons p' Hp') as Hz. rewrite Hz.
    rewrite weight_zero in Hz. rewrite (Hz p Hp). reflexivity.
Qed.

(** The committed numbers determine the observable state. *)
Lemma Inv_obs_eq ps s s' : Inv ps s -> Inv ps s' -> obs_eq s s'.
Proof.
  intros (Hwf & _ & _ & Hcnt & Hflag & Hn & _) (Hwf' & _ & _ & Hcnt' & Hflag' & Hn' & _).
  split; [| split].
  - apply constraints_ext; [apply Hwf' | apply Hwf |].
    intros q Hq. rewrite Hcnt, Hcnt' by assumption. reflexivity.
  - apply inserted_ext; [apply Hwf' | apply Hwf |].
    intros x Hx. rewrite Hflag, Hflag' by assumption. reflexivity.
  - congruence.
Qed.

Lemma Inv_obs_eq_transfer ps s s' : wf s' -> obs_eq s s' -> Inv ps s -> Inv ps s'.
Proof.
  intros Hwf' (Hc & Hi & Hn) (Hwf & Hok & Hnd & Hcnt & Hflag & Hlen & Hcons).
  split; [assumption |]. split; [assumption |]. split; [assumption |].
  split; [| split; [| split]]; try assumption.
  - intros q Hq. unfold count_at. rewrite Hc. apply Hcnt, Hq.
  - intros x Hx. unfold flag_at. rewrite Hi. apply Hflag, Hx.
  - congruence.
Qed.

(* ================================================================== *)
(** ** Nested loops over the grid are one loop over its cells *)

Lemma for_each_app {A S : Type} (body : A -> S -> result S) (l1 l2 : list A) (s : S) :
  for_each (l1 ++ l2) body s = (do s' <- for_each l1 body s ;; for_each l2 body s').
Proof.
  revert s. induction l1 as [| a l1 IH]; intros s; simpl; [reflexivity |].
  destruct (body a s); simpl; auto.
Qed.

Lemma for_each_map {A B S : Type} (h : A -> B) (body : B -> S -> result S)
    (l : list A) (s : S) :
  for_each (map h l) body s = for_each l (fun a => body (h a)) s.
Proof.
  revert s. induction l as [| a l IH]; intros s; simpl; [reflexivity |].
  destruct (body (h a) s); simpl; auto.
Qed.

Lemma for_each_flat_map {A B S : Type} (h : A -> list B)
    (body : B -> S -> result S) (l : list A) (s : S) :
  for_each (flat_map h l) body s = for_each l (fun a s => for_each (h a) body s) s.
Proof.
  revert s. induction l as [| a l IH]; intros s; simpl; [reflexivity |].
  rewrite for_each_app. destruct (for_each (h a) body s); simpl; auto.
Qed.

Lemma for_each_grid {S : Type} (body : Z -> Z -> S -> result S) (s : S) :
  for_each (range N) (fun i st => for_each (range N) (fun j st => body i j st) st) s =
  for_each all_cells (fun x st => body (fst x) (snd x) st) s.
Proof.
  unfold all_cells. rewrite for_each_flat_map.
  f_equal.
Qed.

(* ================================================================== *)
(** ** [get_possibilities_at] *)

Lemma length_filled buf l :
  (length l <= length buf)%nat -> length (filled buf l) = length buf.
Proof. intros H. unfold filled. rewrite length_app, length_drop. lia. Qed.

Lemma filled_snoc buf l n :
  (length l < length buf)%nat ->
  <[length l := n]> (filled buf l) = filled buf (l ++ [n]).
Proof.
  intros H. unfold filled.
  rewrite insert_app_r_alt by lia. rewrite Nat.sub_diag.
  destruct (lookup_lt_is_Some_2 buf (length l) H) as [y Hy].
  rewrite (drop_S _ _ _ Hy). simpl.
  rewrite <- app_assoc. simpl. rewrite length_app. simpl.
  rewrite Nat.add_1_r. reflexivity.
Qed.

Lemma length_filter_le {A} (f : A -> bool) (l : list A) :
  (length (List.filter f l) <= length l)%nat.
Proof.
  induction l as [| a l IH]; simpl; [lia |]. destruct (f a); simpl; lia.
Qed.

Lemma possibilities_loop s row col buf l :
  shape s -> cell_ok (row, col) -> Forall (fun n => 0 <= n < N) l ->
  forall pre,
  (length pre + length l <= length buf)%nat ->
  (length buf <= 1000)%nat ->
  for_each l (fun n '(buf, poss_counter) =>
      do x <- get_constraint s row col n ;;
      if x =? 0 then
        do buf <- store_buf buf poss_counter n ;;
        Ok (buf, wrap (poss_counter + 1))
      else Ok (buf, poss_counter))
    (filled buf pre, Z.of_nat (length pre)) =
  Ok (filled buf (pre ++ List.filter (fun n => count_at s (row, col, n) =? 0) l),
      Z.of_nat (length (pre ++ List.filter (fun n => count_at s (row, col, n) =? 0) l))).
Proof.
  intros Hs [Hr Hc] Hl. induction Hl as [| n l Hn Hl IH]; intros pre Hlen Hbig.
  - simpl. rewrite app_nil_r. reflexivity.
  - simpl for_each. simpl length in Hlen.
    rewrite get_constraint_ok by (unfold slot_ok; auto). cbn [bind].
    simpl List.filter.
    destruct (count_at s (row, col, n) =? 0).
    + unfold store_buf.
      destruct (Z.leb_spec 0 (Z.of_nat (length pre))); [| lia].
      rewrite Nat2Z.id, store_ok by (rewrite length_filled; lia).
      cbn [bind]. rewrite filled_snoc by lia.
      rewrite wrap_small by (apply is_int_small; lia).
      replace (Z.of_nat (length pre) + 1) with (Z.of_nat (length (pre ++ [n])))
        by (rewrite length_app; simpl; lia).
      rewrite IH by (try rewrite length_app; simpl; lia).
      rewrite <- app_assoc. reflexivity.
    + apply IH; lia.
Qed.

Lemma get_possibilities_at_ok s row col buf :
  shape s -> cell_ok (row, col) -> length buf = Z.to_nat N ->
  get_possibilities_at s row col buf =
    Ok (filled buf (candidates s (row, col)), poss_count s (row, col)).
Proof.
  intros Hs Hx Hbuf. unfold get_possibilities_at.
  pose proof (possibilities_loop s row col buf (range N) Hs Hx
                (Forall_range_bounds N) []) as H.
  simpl app in H. unfold filled at 1 in H. simpl in H.
  rewrite drop_0 in H. apply H.
  - rewrite Hbuf. reflexivity.
  - rewrite Hbuf. rewrite N_eq. lia.
Qed.

Lemma length_candidates s x : (length (candidates s x) <= 9)%nat.
Proof. unfold candidates. apply (length_filter_le _ (range N)). Qed.

Lemma poss_count_bounds s x : 0 <= poss_count s x <= 9.
Proof. unfold poss_count. pose proof (length_candidates s x). lia. Qed.

Lemma elem_of_candidates s x n :
  n ∈ candidates s x <-> 0 <= n < N /\ count_at s (fst x, snd x, n) = 0.
Proof.
  unfold candidates. rewrite list_elem_of_In, filter_In, <- list_elem_of_In.
  rewrite elem_of_range, Z.eqb_eq. tauto.
Qed.

Lemma take_filled buf l :
  take (length l) (filled buf l) = l.
Proof. unfold filled. rewrite take_app_length. reflexivity. Qed.

Lemma load_buf_filled buf l i :
  0 <= i < Z.of_nat (length l) ->
  load_buf (filled buf l) i = Ok (nth (Z.to_nat i) l 0).
Proof.
  intros Hi. unfold load_buf. destruct (Z.leb_spec 0 i); [| lia].
  unfold load, filled. rewrite lookup_app_l by lia.
  destruct (lookup_lt_is_Some_2 l (Z.to_nat i) ltac:(lia)) as [y Hy].
  rewrite Hy. f_equal. symmetry. apply nth_lookup_Some with (d := 0) in Hy. exact Hy.
Qed.

(* ================================================================== *)
(** ** [get_most_constrained_cell] *)

Lemma scan_cell_ok s x st :
  shape s -> cell_ok x -> scan_buf_ok st ->
  scan_cell s (fst x) (snd x) st = Ok (scan_step s st x) /\
  scan_buf_ok (scan_step s st x).
Proof.
  intros Hs Hx Hst. destruct x as [i j], st as [[sel buf] min].
  unfold scan_buf_ok in *. simpl in Hst. simpl fst. simpl snd.
  unfold scan_cell, scan_step.
  rewrite get_inserted_ok by assumption. cbn [bind].
  destruct (flag_at s (i, j) =? 0); [| auto].
  rewrite get_possibilities_at_ok by assumption. cbn [bind].
  assert (length (filled buf (candidates s (i, j))) = Z.to_nat N).
  { rewrite length_filled; [assumption |].
    rewrite Hst. apply (length_candidates s (i, j)). }
  destruct (poss_count s (i, j) <? min); auto.
Qed.

Lemma scan_all_ok s buf :
  shape s -> length buf = Z.to_nat N ->
  for_each (range N) (fun i st =>
      for_each (range N) (fun j st => scan_cell s i j st) st) (None, buf, N + 1)
    = Ok (scan_all s buf) /\ scan_buf_ok (scan_all s buf).
Proof.
  intros Hs Hbuf. rewrite (for_each_grid (scan_cell s)).
  apply (for_each_pure scan_buf_ok cell_ok (scan_step s)).
  - intros x st Hx Hst. apply scan_cell_ok; assumption.
  - apply Forall_forall. apply all_cells_ok.
  - exact Hbuf.
Qed.

Lemma scan_inv_step s done st y :
  scan_inv s done st -> scan_inv s (done ++ [y]) (scan_step s st y).
Proof.
  destruct st as [[sel buf] min]. unfold scan_inv, scan_step.
  destruct (Z.eqb_spec (flag_at s y) 0) as [Hf | Hf].
  - pose proof (poss_count_bounds s y) as Hb.
    destruct (Z.ltb_spec (poss_count s y) min) as [Hlt | Hge].
    + intros H. exists done, []. split; [reflexivity |].
      split; [assumption |]. split; [reflexivity |].
      split; [| intros z Hz; inversion Hz].
      destruct sel as [x |].
      * destruct H as (l1 & l2 & -> & Hfx & -> & H1 & H2).
        intros z Hz Hfz. apply elem_of_app in Hz as [Hz | Hz].
        -- specialize (H1 z Hz Hfz). lia.
        -- apply elem_of_cons in Hz as [-> | Hz]; [assumption |].
           specialize (H2 z Hz Hfz). lia.
      * destruct H as [_ H]. intros z Hz Hfz. exfalso. exact (H z Hz Hfz).
    + destruct sel as [x |].
      * intros (l1 & l2 & -> & Hfx & -> & H1 & H2).
        exists l1, (l2 ++ [y]). split; [rewrite <- app_assoc; reflexivity |].
        split; [assumption |]. split; [reflexivity |]. split; [assumption |].
        intros z Hz Hfz. apply elem_of_app in Hz as [Hz | Hz]; [auto |].
        apply list_elem_of_singleton in Hz. subst z. assumption.
      * intros [-> _]. rewrite N_eq in Hge. lia.
  - destruct sel as [x |].
    + intros (l1 & l2 & -> & Hfx & -> & H1 & H2).
      exists l1, (l2 ++ [y]). split; [rewrite <- app_assoc; reflexivity |].
      split; [assumption |]. split; [reflexivity |]. split; [assumption |].
      intros z Hz Hfz. apply elem_of_app in Hz as [Hz | Hz]; [auto |].
      apply list_elem_of_singleton in Hz. subst z. contradiction.
    + intros [-> H]. split; [reflexivity |].
      intros z Hz. apply elem_of_app in Hz as [Hz | Hz]; [auto |].
      apply list_elem_of_singleton in Hz. subst z. assumption.
Qed.

Lemma scan_inv_foldl s l :
  forall done st, scan_inv s done st -> scan_inv s (done ++ l) (foldl (scan_step s) st l).
Proof.
  induction l as [| y l IH]; intros done st H; simpl.
  - rewrite app_nil_r. assumption.
  - replace (done ++ y :: l) with ((done ++ [y]) ++ l)
      by (rewrite <- app_assoc; reflexivity).
    apply IH, scan_inv_step, H.
Qed.

Lemma scan_inv_all s buf : scan_inv s all_cells (scan_all s buf).
Proof.
  apply (scan_inv_foldl s all_cells [] (None, buf, N + 1)).
  simpl. split; [reflexivity |]. intros y Hy. inversion Hy.
Qed.

Lemma row_major_all_cells : map row_major all_cells = seqZ 0 81.
Proof. reflexivity. Qed.

Lemma all_cells_order l1 x l2 y :
  all_cells = l1 ++ x :: l2 -> y ∈ l2 -> row_major x < row_major y.
Proof.
  intros Hsplit Hy.
  pose proof row_major_all_cells as Hrm. rewrite Hsplit in Hrm.
  rewrite map_app in Hrm. simpl in Hrm.
  apply list_elem_of_lookup in Hy as [j Hj].
  assert (Hx : seqZ 0 81 !! length l1 = Some (row_major x)).
  { rewrite <- Hrm. rewrite lookup_app_r by (rewrite length_map; lia).
    rewrite length_map, Nat.sub_diag. reflexivity. }
  assert (Hy : seqZ 0 81 !! (length l1 + S j)%nat = Some (row_major y)).
  { rewrite <- Hrm. rewrite lookup_app_r by (rewrite length_map; lia).
    rewrite length_map. replace (length l1 + S j - length l1)%nat with (S j) by lia.
    simpl. change (map row_major l2) with (row_major <$> l2).
    rewrite list_lookup_fmap, Hj. reflexivity. }
  apply lookup_seqZ in Hx, Hy. lia.
Qed.

Lemma get_most_constrained_cell_ok s buf :
  shape s -> length buf = Z.to_nat N ->
  (exists y, cell_ok y /\ flag_at s y = 0) ->
  exists x buf',
    get_most_constrained_cell s buf =
      Ok (fst x, snd x, filled buf' (candidates s x), poss_count s x) /\
    length buf' = Z.to_nat N /\
    cell_ok x /\ flag_at s x = 0 /\
    forall y, cell_ok y -> flag_at s y = 0 ->
      poss_count s x <= poss_count s y /\
      (poss_count s y = poss_count s x -> row_major x <= row_major y).
Proof.
  intros Hs Hbuf (y0 & Hy0 & Hf0). unfold get_most_constrained_cell.
  destruct (scan_all_ok s buf Hs Hbuf) as [-> Hlen]. cbn [bind].
  pose proof (scan_inv_all s buf) as HI.
  destruct (scan_all s buf) as [[sel buf'] min]. unfold scan_buf_ok in Hlen.
  simpl in Hlen. unfold scan_inv in HI. destruct sel as [x |].
  - destruct HI as (l1 & l2 & Hsplit & Hfx & -> & H1 & H2).
    assert (Hx : cell_ok x).
    { apply all_cells_ok. rewrite Hsplit. apply elem_of_app. right. apply list_elem_of_here. }
    exists x, buf'. destruct x as [row col].
    rewrite get_possibilities_at_ok by assumption. cbn [bind].
    split; [reflexivity |]. split; [assumption |]. split; [assumption |].
    split; [assumption |].
    intros y Hy Hfy. pose proof (elem_of_all_cells y Hy) as Hin.
    rewrite Hsplit in Hin. apply elem_of_app in Hin as [Hin | Hin].
    + specialize (H1 y Hin Hfy). split; lia.
    + apply elem_of_cons in Hin as [-> | Hin]; [split; lia |].
      specialize (H2 y Hin Hfy).
      pose proof (all_cells_order _ _ _ _ Hsplit Hin). split; lia.
  - destruct HI as [_ HI]. exfalso.
    exact (HI y0 (elem_of_all_cells y0 Hy0) Hf0).
Qed.

(* ================================================================== *)
(** ** The rules of the game *)

Lemma units_check_true : forallb unit_check units = true.
Proof. vm_compute. reflexivity. Qed.

Lemma peers_check_true :
  forallb (fun x => forallb (peers_check x) all_cells) all_cells = true.
Proof. vm_compute. reflexivity. Qed.

Lemma cell_okb_true x : cell_okb x = true <-> cell_ok x.
Proof.
  destruct x as [i j]. unfold cell_okb, cell_ok. simpl.
  rewrite andb_true_iff, !in_bounds_true. tauto.
Qed.

Lemma memb_true x u : memb x u = true <-> x ∈ u.
Proof.
  unfold memb. rewrite existsb_exists, list_elem_of_In. split.
  - intros (y & Hy & E). apply cell_eqb_true in E. subst. assumption.
  - intros H. exists x. split; [assumption | apply cell_eqb_true; reflexivity].
Qed.

Lemma distinctb_NoDup l : distinctb l = true -> NoDup l.
Proof.
  induction l as [| x l IH]; simpl; intros H; [constructor |].
  apply andb_true_iff in H as [H1 H2]. constructor; [| apply IH, H2].
  rewrite <- memb_true. destruct (memb x l); [discriminate | congruence].
Qed.

Lemma unit_facts u :
  u ∈ units ->
  length u = 9%nat /\ Forall cell_ok u /\ NoDup u /\
  forall x y, x ∈ u -> y ∈ u -> x <> y -> peers x y = true.
Proof.
  intros Hu. pose proof units_check_true as H.
  rewrite forallb_forall in H. specialize (H u (proj1 (list_elem_of_In _ _) Hu)).
  unfold unit_check in H. rewrite !andb_true_iff in H.
  destruct H as [[[H1 H2] H3] H4].
  split; [apply Nat.eqb_eq, H1 |].
  split.
  { apply Forall_forall. intros x Hx. apply cell_okb_true.
    rewrite forallb_forall in H2. apply H2, list_elem_of_In, Hx. }
  split; [apply distinctb_NoDup, H3 |].
  intros x y Hx Hy Hne. rewrite forallb_forall in H4.
  specialize (H4 x (proj1 (list_elem_of_In _ _) Hx)).
  rewrite forallb_forall in H4.
  specialize (H4 y (proj1 (list_elem_of_In _ _) Hy)).
  apply orb_true_iff in H4 as [E | E]; [| exact E].
  apply cell_eqb_true in E. contradiction.
Qed.

Lemma peers_share_unit x y :
  cell_ok x -> cell_ok y -> peers x y = true ->
  exists u, u ∈ units /\ x ∈ u /\ y ∈ u.
Proof.
  intros Hx Hy Hp. pose proof peers_check_true as H.
  rewrite forallb_forall in H.
  specialize (H x (proj1 (list_elem_of_In _ _) (elem_of_all_cells x Hx))).
  rewrite forallb_forall in H.
  specialize (H y (proj1 (list_elem_of_In _ _) (elem_of_all_cells y Hy))).
  unfold peers_check in H. rewrite Hp in H. cbn [implb] in H.
  apply existsb_exists in H as (u & Hu & H).
  apply andb_true_iff in H as [H1 H2].
  exists u. rewrite <- !memb_true. rewrite list_elem_of_In. auto.
Qed.

Lemma elem_of_units u :
  u ∈ units <->
  exists k, 0 <= k < N /\ (u = row_cells k \/ u = col_cells k \/ u = box_cells k).
Proof.
  unfold units. rewrite !elem_of_app, !list_elem_of_In, !in_map_iff.
  split.
  - intros [(k & <- & Hk) | [(k & <- & Hk) | (k & <- & Hk)]];
      exists k; (split; [apply elem_of_range, list_elem_of_In, Hk | auto]).
  - intros (k & Hk & [-> | [-> | ->]]);
      apply elem_of_range, list_elem_of_In in Hk; eauto.
Qed.

Lemma valid_grid_units h :
  valid_grid h <->
  forall u, u ∈ units -> forall v, 0 <= v < N -> occurrences h u v = 1%nat.
Proof.
  split.
  - intros H u Hu v Hv. apply elem_of_units in Hu as (k & Hk & Hu).
    destruct (H k v Hk Hv) as (H1 & H2 & H3).
    destruct Hu as [-> | [-> | ->]]; assumption.
  - intros H k v Hk Hv. repeat split; apply H; try assumption;
      apply elem_of_units; exists k; auto.
Qed.

(** Every cell lies in a row. *)
Lemma cell_in_unit x : cell_ok x -> exists u, u ∈ units /\ x ∈ u.
Proof.
  destruct x as [i j]. intros [Hi Hj]. exists (row_cells i). split.
  - apply elem_of_units. exists i. auto.
  - unfold row_cells. apply list_elem_of_In, in_map, list_elem_of_In, elem_of_range, Hj.
Qed.

(* ================================================================== *)
(** ** Valid grids and conflict-free assignments *)

Lemma length_range n : 0 <= n -> length (range n) = Z.to_nat n.
Proof. intros _. unfold range. apply length_seqZ. Qed.

Lemma NoDup_range n : NoDup (range n).
Proof. apply NoDup_seqZ. Qed.

Lemma occurrences_pos h u v :
  (1 <= occurrences h u v)%nat -> exists y, y ∈ u /\ h y = v.
Proof.
  unfold occurrences. intros H.
  destruct (List.filter (fun x => h x =? v) u) as [| y l] eqn:E; [simpl in H; lia |].
  assert (Hy : In y (List.filter (fun x => h x =? v) u)) by (rewrite E; left; reflexivity).
  apply filter_In in Hy as [Hy1 Hy2]. exists y. split.
  - apply list_elem_of_In, Hy1.
  - apply Z.eqb_eq, Hy2.
Qed.

Lemma occurrences_two h u v x y :
  NoDup u -> x ∈ u -> y ∈ u -> x <> y -> h x = v -> h y = v ->
  (2 <= occurrences h u v)%nat.
Proof.
  intros Hnd Hx Hy Hne Hhx Hhy. unfold occurrences.
  change 2%nat with (length [x; y]).
  apply submseteq_length, NoDup_submseteq.
  - constructor; [| constructor; [| constructor]].
    + intros H. apply list_elem_of_singleton in H. contradiction.
    + intros H. inversion H.
  - intros z Hz. apply list_elem_of_In, filter_In.
    apply elem_of_cons in Hz as [-> | Hz];
      [| apply list_elem_of_singleton in Hz; subst z];
      (split; [apply list_elem_of_In; assumption | apply Z.eqb_eq; assumption]).
Qed.

Lemma occurrences_ext h h' u v :
  (forall x, x ∈ u -> h x = h' x) -> occurrences h u v = occurrences h' u v.
Proof.
  intros H. unfold occurrences. f_equal. apply filter_ext_in.
  intros x Hx. rewrite (H x) by (apply list_elem_of_In, Hx). reflexivity.
Qed.

(** The numbers of a valid grid are in range. *)
Lemma valid_grid_bounds h x : valid_grid h -> cell_ok x -> 0 <= h x < N.
Proof.
  intros Hv Hx. destruct (cell_in_unit x Hx) as (u & Hu & Hxu).
  rewrite valid_grid_units in Hv. specialize (Hv u Hu).
  destruct (unit_facts u Hu) as (Hlen & _ & _ & _).
  assert (Hsub : range N ⊆+ map h u).
  { apply NoDup_submseteq; [apply NoDup_range |].
    intros v Hvr. apply elem_of_range in Hvr.
    destruct (occurrences_pos h u v) as (y & Hy & <-); [rewrite Hv by assumption; lia |].
    apply list_elem_of_In, in_map, list_elem_of_In, Hy. }
  apply submseteq_length_Permutation in Hsub;
    [| rewrite length_map, Hlen, length_range by (rewrite N_eq; lia); rewrite N_eq; lia].
  apply elem_of_range. rewrite Hsub.
  apply list_elem_of_In, in_map, list_elem_of_In, Hxu.
Qed.

Lemma peers_neq x y : peers x y = true -> x <> y.
Proof.
  unfold peers. rewrite andb_true_iff, negb_true_iff, cell_eqb_false. tauto.
Qed.

(** Two cells that share a group hold different numbers. *)
Lemma valid_grid_peers h x y :
  valid_grid h -> cell_ok x -> cell_ok y -> peers x y = true -> h x <> h y.
Proof.
  intros Hv Hx Hy Hp Heq.
  destruct (peers_share_unit x y Hx Hy Hp) as (u & Hu & Hxu & Hyu).
  destruct (unit_facts u Hu) as (_ & _ & Hnd & _).
  pose proof (valid_grid_bounds h x Hv Hx) as Hb.
  pose proof (occurrences_two h u (h x) x y Hnd Hxu Hyu (peers_neq _ _ Hp)
                eq_refl (eq_sym Heq)) as H2.
  rewrite valid_grid_units in Hv. rewrite (Hv u Hu (h x) Hb) in H2. lia.
Qed.

(** *** From committed numbers to a grid *)

Lemma grid_of_elem ps p :
  NoDup (map cell_of ps) -> p ∈ ps -> grid_of ps (cell_of p) = number_of p.
Proof.
  unfold grid_of. induction ps as [| p' ps IH]; intros Hnd Hp; [inversion Hp |].
  simpl in Hnd. apply NoDup_cons in Hnd as [Hnotin Hnd]. simpl.
  destruct (cell_eqb (cell_of p') (cell_of p)) eqn:E.
  - apply cell_eqb_true in E. apply elem_of_cons in Hp as [-> | Hp]; [reflexivity |].
    exfalso. apply Hnotin. rewrite E.
    apply list_elem_of_In, in_map, list_elem_of_In, Hp.
  - apply cell_eqb_false in E. apply elem_of_cons in Hp as [-> | Hp]; [congruence |].
    apply IH; assumption.
Qed.

Lemma extends_grid_of ps : NoDup (map cell_of ps) -> extends ps (grid_of ps).
Proof. intros Hnd p Hp. apply grid_of_elem; assumption. Qed.

Lemma contrib_peers p p' :
  peers (cell_of p') (cell_of p) = true -> number_of p' = number_of p ->
  1 <= contrib p' p.
Proof.
  destruct p as [[r c] v], p' as [[r' c'] v']. simpl. intros Hp ->.
  unfold peers in Hp. apply andb_true_iff in Hp as [Hne Hp].
  apply negb_true_iff in Hne. unfold contrib.
  change ((r' =? r) && (c' =? c)) with (cell_eqb (r', c') (r, c)).
  rewrite Hne, Z.eqb_refl.
  unfold shared_groups. simpl in *.
  destruct (r' =? r), (c' =? c), (same_box (r', c') (r, c)); simpl in *;
    try lia; discriminate.
Qed.

Lemma contrib_same_cell p p' :
  cell_of p' = cell_of p -> number_of p' <> number_of p -> contrib p' p = 1.
Proof.
  destruct p as [[r c] v], p' as [[r' c'] v']. simpl. intros [= -> ->] Hne.
  unfold contrib, cell_eqb. rewrite !Z.eqb_refl. simpl.
  destruct (Z.eqb_spec v' v); [contradiction | reflexivity].
Qed.

(** The committed numbers never clash. *)
Lemma Inv_no_clash ps s p p' :
  Inv ps s -> p ∈ ps -> p' ∈ ps ->
  peers (cell_of p') (cell_of p) = true -> number_of p' <> number_of p.
Proof.
  intros (_ & _ & _ & _ & _ & _ & Hcons) Hp Hp' Hpeers Heq.
  pose proof (contrib_peers p p' Hpeers Heq) as H1.
  pose proof (Hcons p Hp) as Hz. rewrite weight_zero in Hz.
  rewrite (Hz p' Hp') in H1. lia.
Qed.

Lemma Inv_slot_of_cell ps s x :
  Inv ps s -> x ∈ map cell_of ps ->
  exists p, p ∈ ps /\ cell_of p = x /\ grid_of ps x = number_of p /\ slot_ok p.
Proof.
  intros (_ & Hok & Hnd & _) Hx.
  apply list_elem_of_In, in_map_iff in Hx as (p & <- & Hp).
  apply list_elem_of_In in Hp.
  exists p. split; [assumption |]. split; [reflexivity |].
  split; [apply grid_of_elem; assumption |].
  rewrite Forall_forall in Hok. apply Hok, Hp.
Qed.

Lemma number_of_bounds p : slot_ok p -> 0 <= number_of p < N.
Proof. destruct p as [[r c] v]. unfold slot_ok. simpl. tauto. Qed.

Lemma NoDup_all_equal (l : list Z) v :
  NoDup l -> (forall x, x ∈ l -> x = v) -> (length l <= 1)%nat.
Proof.
  intros Hnd Hall. change 1%nat with (length [v]).
  apply submseteq_length, NoDup_submseteq; [assumption |].
  intros x Hx. rewrite (Hall x Hx). apply list_elem_of_here.
Qed.

(** A full conflict-free assignment is a valid grid. *)
Lemma Inv_full_valid ps s :
  Inv ps s -> length ps = 81%nat -> valid_grid (grid_of ps).
Proof.
  intros HI Hfull. apply valid_grid_units. intros u Hu v Hv.
  destruct (unit_facts u Hu) as (Hlen & Hok & Hnd & Hpeers).
  pose proof HI as (_ & Hpok & Hcnd & _).
  assert (Hcell : forall x, x ∈ u ->
            exists p, p ∈ ps /\ cell_of p = x /\ grid_of ps x = number_of p /\ slot_ok p).
  { intros x Hx. apply (Inv_slot_of_cell ps s x HI).
    apply cells_full; try assumption. rewrite Forall_forall in Hok. apply Hok, Hx. }
  assert (Hinj : forall x y, x ∈ u -> y ∈ u -> grid_of ps x = grid_of ps y -> x = y).
  { intros x y Hx Hy Heq. destruct (decide (x = y)) as [| Hne]; [assumption |].
    exfalso.
    destruct (Hcell x Hx) as (p & Hp & Hpc & Hpv & _).
    destruct (Hcell y Hy) as (p' & Hp' & Hpc' & Hpv' & _).
    apply (Inv_no_clash ps s p p' HI Hp Hp').
    - rewrite Hpc, Hpc'. apply Hpeers; auto.
    - congruence. }
  assert (Hnd' : NoDup (map (grid_of ps) u)).
  { apply (NoDup_fmap_2_strong (grid_of ps)); assumption. }
  assert (Hperm : map (grid_of ps) u ≡ₚ range N).
  { apply submseteq_length_Permutation.
    - apply NoDup_submseteq; [assumption |].
      intros w Hw. apply list_elem_of_In, in_map_iff in Hw as (x & <- & Hx).
      apply list_elem_of_In in Hx.
      destruct (Hcell x Hx) as (p & _ & _ & -> & Hpo).
      apply elem_of_range, number_of_bounds, Hpo.
    - rewrite length_map, Hlen, length_range by (rewrite N_eq; lia). rewrite N_eq. lia. }
  assert (Hin : v ∈ map (grid_of ps) u) by (rewrite Hperm; apply elem_of_range, Hv).
  apply list_elem_of_In, in_map_iff in Hin as (x & Hxv & Hx).
  assert (H1 : (1 <= occurrences (grid_of ps) u v)%nat).
  { unfold occurrences.
    assert (Hf : In x (List.filter (fun y => grid_of ps y =? v) u))
      by (apply filter_In; split; [assumption | apply Z.eqb_eq, Hxv]).
    destruct (List.filter (fun y => grid_of ps y =? v) u); [inversion Hf | simpl; lia]. }
  assert (H2 : (occurrences (grid_of ps) u v <= 1)%nat).
  { unfold occurrences. rewrite <- (length_map (grid_of ps)).
    apply (NoDup_all_equal _ v).
    - apply (NoDup_fmap_2_strong (grid_of ps)).
      + intros a b Ha Hb. apply list_elem_of_In, filter_In in Ha as [Ha _].
        apply list_elem_of_In, filter_In in Hb as [Hb _].
        apply Hinj; apply list_elem_of_In; assumption.
      + apply NoDup_ListNoDup, List.NoDup_filter, NoDup_ListNoDup, Hnd.
    - intros w Hw. apply list_elem_of_In, in_map_iff in Hw as (a & <- & Ha).
      apply filter_In in Ha as [_ Ha]. apply Z.eqb_eq, Ha. }
  lia.
Qed.

(* ================================================================== *)
(** ** Candidates in a state that satisfies the invariant *)

Lemma Inv_candidates ps s x v :
  Inv ps s -> cell_ok x ->
  v ∈ candidates s x <-> 0 <= v < N /\ weight ps (fst x, snd x, v) = 0.
Proof.
  intros (_ & _ & _ & Hcnt & _) Hx. rewrite elem_of_candidates.
  destruct x as [r c]. simpl. split; intros [Hv H]; (split; [assumption |]).
  - rewrite <- Hcnt; [assumption | unfold slot_ok; destruct Hx; auto].
  - rewrite Hcnt; [assumption | unfold slot_ok; destruct Hx; auto].
Qed.

Lemma filter_eqb_range v :
  0 <= v < N -> List.filter (fun n => n =? v) (range N) = [v].
Proof.
  rewrite N_eq. intros Hv.
  assert (H : v = 0 \/ v = 1 \/ v = 2 \/ v = 3 \/ v = 4 \/ v = 5 \/ v = 6 \/ v = 7 \/ v = 8)
    by lia.
  repeat (destruct H as [-> | H]; [reflexivity |]). subst v. reflexivity.
Qed.

(** A committed cell has its own number as only candidate. *)
Lemma Inv_candidates_committed ps s p :
  Inv ps s -> p ∈ ps -> candidates s (cell_of p) = [number_of p].
Proof.
  intros HI Hp. pose proof HI as (_ & Hok & _ & Hcnt & _ & _ & Hcons).
  assert (Hpok : slot_ok p) by (rewrite Forall_forall in Hok; apply Hok, Hp).
  rewrite <- (filter_eqb_range (number_of p)) by apply number_of_bounds, Hpok.
  unfold candidates. apply filter_ext_in. intros n Hn.
  apply list_elem_of_In, elem_of_range in Hn.
  destruct p as [[r c] v]. simpl in *.
  rewrite Hcnt by (unfold slot_ok in *; tauto).
  destruct (Z.eqb_spec n v) as [-> | Hne].
  - rewrite (Hcons _ Hp). reflexivity.
  - assert (H1 : contrib (r, c, v) (r, c, n) = 1)
      by (apply contrib_same_cell; [reflexivity | simpl; congruence]).
    destruct (Z.eqb_spec (weight ps (r, c, n)) 0) as [Hz | ]; [| reflexivity].
    rewrite weight_zero in Hz. rewrite (Hz _ Hp) in H1. discriminate.
Qed.

Lemma Inv_read_grid ps s x :
  Inv ps s -> x ∈ map cell_of ps -> read_grid s x = grid_of ps x.
Proof.
  intros HI Hx. destruct (Inv_slot_of_cell ps s x HI Hx) as (p & Hp & <- & -> & _).
  unfold read_grid. rewrite (Inv_candidates_committed ps s p HI Hp). reflexivity.
Qed.

(** In any completion, a free cell holds one of its candidates. *)
Lemma completion_candidate ps s h x :
  Inv ps s -> valid_grid h -> extends ps h ->
  cell_ok x -> occupied ps x = false ->
  h x ∈ candidates s x.
Proof.
  intros HI Hv Hext Hx Hfree.
  apply (Inv_candidates ps s x (h x) HI Hx).
  split; [apply valid_grid_bounds; assumption |].
  apply weight_zero. intros p Hp.
  pose proof HI as (_ & Hok & _).
  assert (Hpok : slot_ok p) by (rewrite Forall_forall in Hok; apply Hok, Hp).
  pose proof (Hext p Hp) as Hhp.
  assert (Hne : cell_of p <> x).
  { intros <-. apply occupied_false in Hfree. apply Hfree.
    apply list_elem_of_In, in_map, list_elem_of_In, Hp. }
  destruct p as [[r c] v], x as [r' c']. cbn [cell_of number_of fst snd] in *.
  unfold contrib. apply cell_eqb_false in Hne. rewrite Hne.
  destruct (Z.eqb_spec v (h (r', c'))) as [Hv' | ]; [| reflexivity].
  destruct (peers (r, c) (r', c')) eqn:Hp'.
  - exfalso. apply (valid_grid_peers h (r, c) (r', c') Hv); try assumption.
    + unfold slot_ok, cell_ok in *. tauto.
    + congruence.
  - unfold peers in Hp'. rewrite Hne in Hp'. simpl in Hp'.
    unfold shared_groups. simpl.
    destruct (r =? r'), (c =? c'), (same_box (r, c) (r', c')); simpl in *;
      try discriminate; reflexivity.
Qed.

(** While fewer than [N * N] numbers are committed some cell is free. *)
Lemma Inv_free_cell ps s :
  Inv ps s -> (length ps < 81)%nat ->
  exists x, cell_ok x /\ flag_at s x = 0.
Proof.
  intros (_ & Hok & Hnd & _ & Hflag & _) Hlen.
  destruct (existsb (fun x => negb (occupied ps x)) all_cells) eqn:E.
  - apply existsb_exists in E as (x & Hx & Hfree).
    apply list_elem_of_In, all_cells_ok in Hx.
    exists x. split; [assumption |]. rewrite Hflag by assumption.
    apply negb_true_iff in Hfree. rewrite Hfree. reflexivity.
  - exfalso.
    assert (Hsub : all_cells ⊆+ map cell_of ps).
    { apply NoDup_submseteq; [apply NoDup_all_cells |].
      intros x Hx. apply occupied_true.
      destruct (occupied ps x) eqn:O; [reflexivity |].
      assert (existsb (fun x => negb (occupied ps x)) all_cells = true).
      { apply existsb_exists. exists x. split; [apply list_elem_of_In, Hx |].
        rewrite O. reflexivity. }
      congruence. }
    apply submseteq_length in Hsub.
    rewrite length_all_cells, length_map in Hsub. lia.
Qed.

Lemma Inv_flag_free ps s x :
  Inv ps s -> cell_ok x -> flag_at s x = 0 -> occupied ps x = false.
Proof.
  intros (_ & _ & _ & _ & Hflag & _) Hx H. rewrite Hflag in H by assumption.
  destruct (occupied ps x); [discriminate | reflexivity].
Qed.

(* ================================================================== *)
(** ** The search *)

Lemma solve_unfold depth s :
  solve depth s =
  if ninserted s =? N * N then Ok (1, s)
  else
    do '(row, col, buf, poss_count) <- get_most_constrained_cell s malloc_buffer ;;
    if poss_count =? 0 then
      Ok (0, with_nbacktracks s (wrap (nbacktracks s + 1)))
    else
      match depth with
      | O => OutOfFuel
      | S depth' => solve_loop (solve depth') row col buf (range poss_count) s
      end.
Proof. destruct depth; reflexivity. Qed.

Lemma Inv_count_zero ps s p : Inv ps s -> p ∈ ps -> count_at s p = 0.
Proof.
  intros (_ & Hok & _ & Hcnt & _ & _ & Hcons) Hp.
  rewrite Hcnt; [apply Hcons, Hp |]. rewrite Forall_forall in Hok. apply Hok, Hp.
Qed.

Lemma solve_loop_spec d' rec ps x buf cands :
  (forall ps1 s1, Inv ps1 s1 -> solve_post d' ps1 (rec s1)) ->
  cell_ok x -> occupied ps x = false ->
  (forall v, v ∈ cands -> 0 <= v < N /\ weight ps (fst x, snd x, v) = 0) ->
  forall idxs, (forall i, i ∈ idxs -> 0 <= i < Z.of_nat (length cands)) ->
  forall s, Inv ps s ->
  loop_post (S d') ps x cands idxs
    (solve_loop rec (fst x) (snd x) (filled buf cands) idxs s).
Proof.
  intros Hrec Hx Hfree Hcands. induction idxs as [| i idxs IH]; intros Hidx s HI.
  - simpl. right. split; [reflexivity |]. split; [assumption |].
    intros i Hi. inversion Hi.
  - simpl solve_loop.
    assert (Hi : 0 <= i < Z.of_nat (length cands)) by apply Hidx, list_elem_of_here.
    rewrite load_buf_filled by assumption. cbn [bind].
    set (v := nth (Z.to_nat i) cands 0).
    assert (Hv : v ∈ cands) by (apply list_elem_of_In, nth_In; lia).
    destruct (Hcands v Hv) as [Hvb Hw].
    set (p := (fst x, snd x, v)).
    assert (Hp : slot_ok p) by (destruct x; unfold p, slot_ok; simpl; destruct Hx; auto).
    pose proof HI as (Hwf & _ & _ & Hcnt & _).
    unfold insert_number_at.
    rewrite change_state_at_ok; try assumption; [| auto | rewrite Hcnt; assumption].
    cbn [bind]. fold p.
    assert (HI1 : Inv (p :: ps) (changed s p 1)).
    { apply Inv_insert; try assumption. destruct x; exact Hfree. }
    specialize (Hrec _ _ HI1). unfold solve_post in Hrec.
    destruct (rec (changed s p 1)) as [[res s2] | | |]; try contradiction.
    + cbn [bind]. destruct Hrec as [(-> & ps' & HI' & Hlen & Hsub & Hd) | (-> & HI2 & Hno)].
      * cbn [Z.eqb]. left. split; [reflexivity |]. exists ps'.
        split; [assumption |]. split; [assumption |]. split.
        -- intros q Hq. apply Hsub, list_elem_of_further, Hq.
        -- simpl in Hd. lia.
      * cbn [Z.eqb].
        unfold remove_number_at.
        rewrite change_state_at_ok; try assumption;
          [| apply HI2 | auto | apply (Inv_count_zero _ _ _ HI2), list_elem_of_here].
        cbn [bind]. fold p.
        assert (HI3 : Inv ps (changed s2 p (-1))).
        { rewrite <- (remove_slot_head p ps).
          - apply Inv_remove; [assumption | apply list_elem_of_here].
          - intros Hin. apply occupied_false in Hfree. apply Hfree.
            apply list_elem_of_In, (in_map cell_of) in Hin.
            destruct x. apply list_elem_of_In, Hin. }
        specialize (IH (fun j Hj => Hidx j (list_elem_of_further _ _ _ Hj)) _ HI3).
        unfold loop_post in *.
        destruct (solve_loop rec (fst x) (snd x) (filled buf cands) idxs
                    (changed s2 p (-1))) as [[res s4] | | |]; try assumption.
        destruct IH as [IH | (-> & HI4 & Hno')]; [left; assumption |].
        right. split; [reflexivity |]. split; [assumption |].
        intros j Hj. apply elem_of_cons in Hj as [-> | Hj]; [exact Hno | auto].
    + simpl. simpl in Hrec. lia.
Qed.

Lemma length_malloc_buffer : length malloc_buffer = Z.to_nat N.
Proof. reflexivity. Qed.

Lemma Inv_with_nbacktracks ps s n :
  Inv ps s -> is_int n -> Inv ps (with_nbacktracks s n).
Proof.
  intros HI Hn. apply (Inv_obs_eq_transfer ps s); [| | assumption].
  - destruct HI as ((Hs & Hc & Hi & Hni & _) & _).
    split; [exact Hs |]. simpl. auto.
  - split; [| split]; reflexivity.
Qed.

(** On a state that satisfies the invariant, [solve] never hits an
    assertion or undefined behaviour, and what it answers is right. *)
Lemma solve_spec d : forall ps s, Inv ps s -> solve_post d ps (solve d s).
Proof.
  induction d as [| d' IHd]; intros ps s HI; rewrite solve_unfold;
    pose proof (Inv_length _ _ HI) as Hlen;
    pose proof HI as (Hwf & _ & _ & _ & _ & Hn & _);
    (destruct (Z.eqb_spec (ninserted s) (N * N)) as [Hfull | Hnot];
     [ left; split; [reflexivity |]; exists ps;
       rewrite N_eq in Hfull;
       split; [assumption |]; split; [lia |]; split; [auto | lia]
     | ]);
    (assert (Hlt : (length ps < 81)%nat) by (rewrite N_eq in Hnot; lia));
    destruct (Inv_free_cell ps s HI Hlt) as (y0 & Hy0 & Hf0);
    destruct (get_most_constrained_cell_ok s malloc_buffer (proj1 Hwf)
                length_malloc_buffer (ex_intro _ y0 (conj Hy0 Hf0)))
      as (x & buf' & -> & Hbuf' & Hx & Hfx & _);
    cbn [bind];
    pose proof (Inv_flag_free ps s x HI Hx Hfx) as Hfree;
    (destruct (Z.eqb_spec (poss_count s x) 0) as [Hzero | Hpos];
     [ right; split; [reflexivity |];
       split; [apply Inv_with_nbacktracks; [assumption | apply wrap_is_int] |];
       intros h Hv Hext;
       pose proof (completion_candidate ps s h x HI Hv Hext Hx Hfree) as Hc;
       unfold poss_count in Hzero;
       destruct (candidates s x); [inversion Hc | simpl in Hzero; lia]
     | ]).
  - simpl. lia.
  - pose proof (solve_loop_spec d' (solve d') ps x buf' (candidates s x) IHd Hx Hfree)
      as Hloop.
    specialize (Hloop (fun v Hv => proj1 (Inv_candidates ps s x v HI Hx) Hv)).
    specialize (Hloop (range (poss_count s x))).
    specialize (Hloop (fun i Hi => proj1 (elem_of_range i _) Hi) s HI).
    unfold loop_post in Hloop. unfold solve_post.
    destruct (solve_loop (solve d') (fst x) (snd x) (filled buf' (candidates s x))
                (range (poss_count s x)) s) as [[res s'] | | |]; try assumption.
    destruct Hloop as [Hl | (-> & HI' & Hno)]; [left; assumption |].
    right. split; [reflexivity |]. split; [assumption |].
    intros h Hv Hext.
    pose proof (completion_candidate ps s h x HI Hv Hext Hx Hfree) as Hc.
    apply list_elem_of_lookup in Hc as [j Hj].
    pose proof (lookup_lt_Some _ _ _ Hj) as Hjlt.
    refine (Hno (Z.of_nat j) _ h Hv _);
      [apply elem_of_range; unfold poss_count; lia |].
    rewrite Nat2Z.id. rewrite (nth_lookup_Some _ _ 0 _ Hj).
    intros p Hp. apply elem_of_cons in Hp as [-> | Hp]; [| apply Hext, Hp].
    destruct x; reflexivity.
Qed.

(* ================================================================== *)
(** ** [new_sudoku] builds the empty puzzle *)

Lemma clear_numbers_spec s x l :
  shape s -> cell_ok x -> Forall (fun n => 0 <= n < N) l ->
  let s' := foldl (fun s n => put_count s (fst x, snd x, n) 0) s l in
  shape s' /\ inserted s' = inserted s /\
  forall q, slot_ok q ->
    count_at s' q =
    if cell_eqb x (cell_of q) && existsb (Z.eqb (number_of q)) l then 0
    else count_at s q.
Proof.
  intros Hs Hx Hl. revert s Hs. induction Hl as [| n l Hn Hl IH]; intros s Hs; simpl.
  - split; [assumption |]. split; [reflexivity |]. intros q _.
    rewrite andb_false_r. reflexivity.
  - assert (Hp : slot_ok (fst x, snd x, n))
      by (destruct x; unfold slot_ok; simpl; destruct Hx; auto).
    destruct (IH (put_count s (fst x, snd x, n) 0) (shape_put_count _ _ _ Hs))
      as (Hs' & Hi' & Hc').
    split; [assumption |]. split; [rewrite Hi'; reflexivity |].
    intros q Hq. rewrite Hc' by assumption.
    rewrite count_at_put_count by assumption.
    destruct q as [[r c] v], x as [i j]. simpl.
    unfold cell_eqb.
    destruct (i =? r) eqn:E1, (j =? c) eqn:E2, (v =? n) eqn:E3;
      simpl; rewrite ?E1, ?E2, ?E3; simpl;
      try rewrite (Z.eqb_sym n v), E3; simpl;
      destruct (existsb (Z.eqb v) l); simpl; try reflexivity;
      rewrite ?andb_false_r; reflexivity.
Qed.

Lemma clear_cell_spec s x :
  shape s -> cell_ok x ->
  shape (clear_cell s x) /\
  (forall y, cell_ok y ->
     flag_at (clear_cell s x) y = if cell_eqb x y then 0 else flag_at s y) /\
  (forall q, slot_ok q ->
     count_at (clear_cell s x) q =
     if cell_eqb x (cell_of q) then 0 else count_at s q).
Proof.
  intros Hs Hx. unfold clear_cell.
  destruct (clear_numbers_spec (put_flag s x 0) x (range N)
              (shape_put_flag _ _ _ Hs) Hx (Forall_range_bounds N))
    as (Hs' & Hi' & Hc').
  split; [assumption |]. split.
  - intros y Hy. unfold flag_at at 1. rewrite Hi'.
    apply (flag_at_put_flag s x y 0); assumption.
  - intros q Hq. rewrite Hc' by assumption.
    assert (E : existsb (Z.eqb (number_of q)) (range N) = true).
    { apply existsb_exists. exists (number_of q). split; [| apply Z.eqb_refl].
      apply list_elem_of_In, elem_of_range, number_of_bounds, Hq. }
    rewrite E, andb_true_r. reflexivity.
Qed.

Lemma clear_cells_spec l :
  Forall cell_ok l ->
  forall s, shape s ->
  shape (foldl clear_cell s l) /\
  (forall y, cell_ok y ->
     flag_at (foldl clear_cell s l) y = if memb y l then 0 else flag_at s y) /\
  (forall q, slot_ok q ->
     count_at (foldl clear_cell s l) q =
     if memb (cell_of q) l then 0 else count_at s q).
Proof.
  induction 1 as [| x l Hx Hl IH]; intros s Hs; simpl.
  - auto.
  - destruct (clear_cell_spec s x Hs Hx) as (Hs1 & Hf1 & Hc1).
    destruct (IH _ Hs1) as (Hs2 & Hf2 & Hc2).
    split; [assumption |]. split.
    + intros y Hy. rewrite Hf2, Hf1 by assumption.
      replace (cell_eqb y x) with (cell_eqb x y).
      * destruct (memb y l), (cell_eqb x y); reflexivity.
      * destruct (cell_eqb x y) eqn:E.
        -- apply cell_eqb_true in E. subst. symmetry. apply cell_eqb_true. reflexivity.
        -- apply cell_eqb_false in E. symmetry. apply cell_eqb_false. congruence.
    + intros q Hq. rewrite Hc2, Hc1 by assumption.
      replace (cell_eqb (cell_of q) x) with (cell_eqb x (cell_of q)).
      * destruct (memb (cell_of q) l), (cell_eqb x (cell_of q)); reflexivity.
      * destruct (cell_eqb x (cell_of q)) eqn:E.
        -- apply cell_eqb_true in E. rewrite <- E. symmetry. apply cell_eqb_true. reflexivity.
        -- apply cell_eqb_false in E. symmetry. apply cell_eqb_false. congruence.
Qed.

Lemma shape_zero_sudoku : shape zero_sudoku.
Proof. split; reflexivity. Qed.

Lemma count_at_zero_sudoku q : count_at zero_sudoku q = 0.
Proof.
  unfold count_at, zero_sudoku. cbn [constraints].
  destruct (replicate (Z.to_nat (N * N * N)) 0 !! off3 q) as [z |] eqn:E; [| reflexivity].
  apply lookup_replicate in E as [-> _]. reflexivity.
Qed.

Lemma flag_at_zero_sudoku x : flag_at zero_sudoku x = 0.
Proof.
  unfold flag_at, zero_sudoku. cbn [inserted].
  destruct (replicate (Z.to_nat (N * N)) 0 !! off2 x) as [z |] eqn:E; [| reflexivity].
  apply lookup_replicate in E as [-> _]. reflexivity.
Qed.

(** Whatever the memory held before, [new_sudoku] leaves the empty puzzle. *)
Lemma new_sudoku_ok s0 : shape s0 -> new_sudoku s0 = Ok zero_sudoku.
Proof.
  intros Hs0. unfold new_sudoku.
  rewrite (for_each_grid (fun i j s =>
             do s <- set_inserted s i j 0 ;;
             for_each (range N) (fun n s => set_constraint s i j n 0) s)).
  destruct (for_each_pure shape cell_ok clear_cell
              (fun x s => do s <- set_inserted s (fst x) (snd x) 0 ;;
                 for_each (range N) (fun n s => set_constraint s (fst x) (snd x) n 0) s)
              all_cells) with (s := s0) as [-> Hs1].
  - intros x s Hx Hs. destruct x as [i j]. simpl fst. simpl snd.
    rewrite set_inserted_ok by assumption. cbn [bind].
    apply (for_each_pure shape (fun n => 0 <= n < N)
             (fun s n => put_count s (i, j, n) 0)).
    + intros n s' Hn Hs'. rewrite set_constraint_ok;
        [split; [reflexivity | apply shape_put_count, Hs'] | assumption |].
      destruct Hx. unfold slot_ok. auto.
    + apply Forall_range_bounds.
    + apply shape_put_flag, Hs.
  - apply Forall_forall. apply all_cells_ok.
  - assumption.
  - cbn [bind].
    destruct (clear_cells_spec all_cells (proj2 (Forall_forall _ _) all_cells_ok) s0 Hs0)
      as (_ & Hf & Hc).
    set (s1 := foldl clear_cell s0 all_cells) in *.
    assert (E1 : constraints s1 = constraints zero_sudoku).
    { apply constraints_ext; [assumption | apply shape_zero_sudoku |].
      intros q Hq. rewrite Hc, count_at_zero_sudoku by assumption.
      rewrite (proj2 (memb_true _ _) (elem_of_all_cells _ (cell_of_ok _ Hq))). reflexivity. }
    assert (E2 : inserted s1 = inserted zero_sudoku).
    { apply inserted_ext; [assumption | apply shape_zero_sudoku |].
      intros y Hy. rewrite Hf, flag_at_zero_sudoku by assumption.
      rewrite (proj2 (memb_true _ _) (elem_of_all_cells _ Hy)). reflexivity. }
    unfold with_nbacktracks, with_ninserted.
    cbn [constraints inserted ninserted nbacktracks]. rewrite E1, E2. reflexivity.
Qed.

Lemma wf_zero_sudoku : wf zero_sudoku.
Proof. apply wfb_true. vm_compute. reflexivity. Qed.

Lemma Inv_zero_sudoku : Inv [] zero_sudoku.
Proof.
  split; [apply wf_zero_sudoku |]. split; [constructor |]. split; [constructor |].
  split; [| split; [| split]].
  - intros q _. apply count_at_zero_sudoku.
  - intros x _. apply flag_at_zero_sudoku.
  - reflexivity.
  - intros p Hp. inversion Hp.
Qed.

(* ================================================================== *)
(** ** Reachable states *)

Lemma reachable_by_commits_reachable ps s :
  reachable_by_commits ps s -> reachable ps s.
Proof.
  induction 1; [eapply reach_new | eapply reach_insert]; eassumption.
Qed.

Lemma get_inserted_inv s i j x : get_inserted s i j = Ok x -> cell_ok (i, j).
Proof.
  unfold get_inserted, offset2.
  destruct (in_bounds i) eqn:Ei, (in_bounds j) eqn:Ej; simpl; try discriminate.
  intros _. split; apply in_bounds_true; assumption.
Qed.

Lemma get_constraint_inv s i j n x : get_constraint s i j n = Ok x -> slot_ok (i, j, n).
Proof.
  unfold get_constraint, offset3.
  destruct (in_bounds i) eqn:Ei, (in_bounds j) eqn:Ej, (in_bounds n) eqn:En;
    simpl; try discriminate.
  intros _. repeat split; apply in_bounds_true; assumption.
Qed.

Lemma get_inserted_flag s i j x :
  shape s -> get_inserted s i j = Ok x -> cell_ok (i, j) /\ flag_at s (i, j) = x.
Proof.
  intros Hs H. pose proof (get_inserted_inv _ _ _ _ H) as Hx.
  rewrite get_inserted_ok in H by assumption. split; [assumption | congruence].
Qed.

Lemma get_constraint_count s i j n x :
  shape s -> get_constraint s i j n = Ok x ->
  slot_ok (i, j, n) /\ count_at s (i, j, n) = x.
Proof.
  intros Hs H. pose proof (get_constraint_inv _ _ _ _ _ H) as Hq.
  rewrite get_constraint_ok in H by assumption. split; [assumption | congruence].
Qed.

Lemma reachable_Inv ps s : reachable ps s -> Inv ps s.
Proof.
  induction 1 as [s0 s Hs0 Hnew
                 | ps s row col number s' Hr IH Hfree Hnum Hzero Hins
                 | ps s row col number s' Hr IH Hin Hrem].
  - rewrite new_sudoku_ok in Hnew by assumption.
    injection Hnew as <-. apply Inv_zero_sudoku.
  - pose proof IH as (Hwf & _ & _ & Hcnt & _).
    destruct (get_inserted_flag _ _ _ _ (proj1 Hwf) Hfree) as [Hx Hflag].
    destruct (get_constraint_count _ _ _ _ _ (proj1 Hwf) Hzero) as [Hq Hc].
    unfold insert_number_at in Hins.
    rewrite change_state_at_ok in Hins by auto. injection Hins as <-.
    apply Inv_insert; try assumption.
    + apply (Inv_flag_free ps s (row, col) IH Hx Hflag).
    + rewrite <- Hcnt by assumption. assumption.
  - pose proof IH as (Hwf & Hok & _).
    assert (Hq : slot_ok (row, col, number))
      by (rewrite Forall_forall in Hok; apply Hok, Hin).
    unfold remove_number_at in Hrem.
    pose proof (Inv_count_zero ps s (row, col, number) IH Hin) as Hc.
    rewrite change_state_at_ok in Hrem by auto.
    injection Hrem as <-. apply Inv_remove; assumption.
Qed.

Lemma reachable_by_commits_zero : reachable_by_commits [] zero_sudoku.
Proof.
  apply (rbc_new zero_sudoku); [apply shape_zero_sudoku |].
  vm_compute. reflexivity.
Defined.

(** Clues that pass the check are commits the program can make. *)
Lemma reachable_commit_all ps :
  clues_ok ps = true -> reachable_by_commits ps (commit_all ps).
Proof.
  induction ps as [| [[r c] v] ps IH]; intros Hok.
  - apply reachable_by_commits_zero.
  - cbn [clues_ok] in Hok. rewrite !andb_true_iff in Hok.
    destruct Hok as [[[Hq Hfree] Hw] Hrest].
    apply slot_okb_true in Hq. apply negb_true_iff in Hfree. apply Z.eqb_eq in Hw.
    specialize (IH Hrest).
    pose proof (reachable_Inv _ _ (reachable_by_commits_reachable _ _ IH))
      as (Hwf & _ & _ & Hcnt & Hflag & _).
    assert (Hx : cell_ok (r, c)) by apply (cell_of_ok _ Hq).
    apply (rbc_insert ps (commit_all ps) r c v); try assumption.
    + rewrite get_inserted_ok; [| apply Hwf | assumption].
      rewrite Hflag by assumption. cbn [cell_of] in Hfree. rewrite Hfree. reflexivity.
    + apply Hq.
    + rewrite get_constraint_ok; [| apply Hwf | assumption].
      rewrite Hcnt by assumption. rewrite Hw. reflexivity.
    + unfold insert_number_at. rewrite change_state_at_ok; auto.
      rewrite Hcnt by assumption. exact Hw.
Qed.

Lemma reachable_by_commits_one_clue : reachable_by_commits [(0, 0, 4)] one_clue.
Proof.
  apply (rbc_insert [] zero_sudoku 0 0 4).
  - apply reachable_by_commits_zero.
  - vm_compute. reflexivity.
  - unfold N, SQRT_N. lia.
  - vm_compute. reflexivity.
  - vm_compute. reflexivity.
Defined.

(* ================================================================== *)
(** ** Main results *)

Lemma solve_post_complete ps s s' :
  Inv ps s -> (exists ps', Inv ps' s' /\ length ps' = 81%nat /\
                 forall p, p ∈ ps -> p ∈ ps') ->
  exists h, valid_grid h /\ extends ps h.
Proof.
  intros HI (ps' & HI' & Hlen & Hsub). exists (grid_of ps'). split.
  - apply (Inv_full_valid ps' s'); assumption.
  - intros p Hp. apply grid_of_elem; [apply HI' | apply Hsub, Hp].
Qed.

(** C1. On a state reached from the empty puzzle by valid commits, [solve]
    returns, and it returns 1 exactly when the committed numbers can be
    completed to a grid in which every row, every column and every box
    holds each number exactly once.  Any depth budget of at least 81
    nested calls is enough. *)
Theorem solve_decides_completability ps s d :
  reachable_by_commits ps s -> (81 <= d)%nat ->
  exists res s',
    solve d s = Ok (res, s') /\
    (res = 1 <-> exists h, valid_grid h /\ extends ps h).
Proof.
  intros Hr Hd.
  pose proof (reachable_Inv ps s (reachable_by_commits_reachable ps s Hr)) as HI.
  pose proof (solve_spec d ps s HI) as Hpost. unfold solve_post in Hpost.
  destruct (solve d s) as [[res s'] | | |]; try contradiction; [| lia].
  exists res, s'. split; [reflexivity |].
  destruct Hpost as [(-> & ps' & HI' & Hlen & Hsub & _) | (-> & _ & Hno)].
  - split; [| reflexivity]. intros _.
    apply (solve_post_complete ps s s' HI). exists ps'. auto.
  - split; [discriminate |]. intros (h & Hv & Hext). exfalso. exact (Hno h Hv Hext).
Qed.

Lemma solve_decides_completability_witness :
  reachable_by_commits [(0, 0, 4)] one_clue /\ (81 <= 81)%nat /\
  exists res s',
    solve 81 one_clue = Ok (res, s') /\
    (res = 1 <-> exists h, valid_grid h /\ extends [(0, 0, 4)] h).
Proof.
  split; [apply reachable_by_commits_one_clue |]. split; [lia |].
  apply (solve_decides_completability [(0, 0, 4)] one_clue 81).
  - apply reachable_by_commits_one_clue.
  - lia.
Defined.

(** C2. Whenever [solve] returns 1 on a reachable state, all 81 cells of
    the resulting state are committed, each cell is left with exactly one
    open number, and these numbers form a grid in which every row, every
    column and every box holds each number exactly once; the numbers that
    were committed at entry are still in place. *)
Theorem solve_success_is_valid_grid ps s d s' :
  reachable ps s -> solve d s = Ok (1, s') ->
  ninserted s' = N * N /\
  (forall r c, 0 <= r < N -> 0 <= c < N -> get_inserted s' r c = Ok 1) /\
  (forall x, cell_ok x -> candidates s' x = [read_grid s' x]) /\
  valid_grid (read_grid s') /\
  extends ps (read_grid s').
Proof.
  intros Hr Hsolve. pose proof (reachable_Inv ps s Hr) as HI.
  pose proof (solve_spec d ps s HI) as Hpost. rewrite Hsolve in Hpost.
  destruct Hpost as [(_ & ps' & HI' & Hlen & Hsub & _) | (Habs & _)];
    [| discriminate].
  pose proof HI' as (Hwf & Hok & Hnd & _ & Hflag & Hn & _).
  assert (Hfull : forall x, cell_ok x -> x ∈ map cell_of ps')
    by (intros x Hx; apply cells_full; assumption).
  split; [rewrite Hn, Hlen; reflexivity |].
  split.
  { intros r c Hrb Hcb. rewrite get_inserted_ok; [| apply Hwf | split; assumption].
    rewrite Hflag by (split; assumption).
    rewrite (proj2 (occupied_true ps' (r, c))); [reflexivity |].
    apply Hfull. split; assumption. }
  split.
  { intros x Hx.
    destruct (Inv_slot_of_cell ps' s' x HI' (Hfull x Hx)) as (p & Hp & <- & _ & _).
    unfold read_grid. rewrite (Inv_candidates_committed ps' s' p HI' Hp). reflexivity. }
  split.
  { apply valid_grid_units. intros u Hu v Hv.
    rewrite (occurrences_ext (read_grid s') (grid_of ps')).
    - pose proof (Inv_full_valid ps' s' HI' Hlen) as Hvalid.
      rewrite valid_grid_units in Hvalid. apply Hvalid; assumption.
    - intros x Hx. apply (Inv_read_grid ps' s' x HI'). apply Hfull.
      destruct (unit_facts u Hu) as (_ & Hcells & _).
      rewrite Forall_forall in Hcells. apply Hcells, Hx. }
  intros p Hp. rewrite (Inv_read_grid ps' s' (cell_of p) HI').
  - apply grid_of_elem; [assumption | apply Hsub, Hp].
  - apply list_elem_of_In, in_map, list_elem_of_In, Hsub, Hp.
Qed.

Lemma reachable_nearly_done : reachable nearly_done_clues nearly_done.
Proof.
  apply reachable_by_commits_reachable, reachable_commit_all.
  vm_compute. reflexivity.
Defined.

Lemma solve_success_is_valid_grid_witness :
  reachable nearly_done_clues nearly_done /\
  solve 3 nearly_done = Ok (1, nearly_done_solved) /\
  ninserted nearly_done_solved = N * N /\
  (forall r c, 0 <= r < N -> 0 <= c < N -> get_inserted nearly_done_solved r c = Ok 1) /\
  (forall x, cell_ok x ->
     candidates nearly_done_solved x = [read_grid nearly_done_solved x]) /\
  valid_grid (read_grid nearly_done_solved) /\
  extends nearly_done_clues (read_grid nearly_done_solved).
Proof.
  assert (Hs : solve 3 nearly_done = Ok (1, nearly_done_solved))
    by (vm_compute; reflexivity).
  split; [exact reachable_nearly_done |]. split; [exact Hs |].
  exact (solve_success_is_valid_grid nearly_done_clues nearly_done 3 nearly_done_solved
           reachable_nearly_done Hs).
Defined.

Example nearly_done_last_row :
  map (read_grid nearly_done_solved) (row_cells 8) = [2; 3; 4; 1; 7; 5; 0; 6; 8].
Proof. vm_compute. reflexivity. Qed.

(** C3. In any state where cell (r, c) is uncommitted and the slot of
    number v at that cell is 0, [insert_number_at] followed by
    [remove_number_at] with the same arguments succeeds and gives back
    the same inserted flags, the same constraint counts and the same
    [ninserted]. *)
Theorem insert_then_remove_restores s r c v :
  wf s ->
  get_inserted s r c = Ok 0 -> 0 <= v < N -> get_constraint s r c v = Ok 0 ->
  exists s1 s2,
    insert_number_at s r c v = Ok s1 /\
    remove_number_at s1 r c v = Ok s2 /\
    inserted s2 = inserted s /\
    constraints s2 = constraints s /\
    ninserted s2 = ninserted s.
Proof.
  intros Hwf Hfree Hv Hzero.
  destruct (get_inserted_flag _ _ _ _ (proj1 Hwf) Hfree) as [Hx Hflag].
  destruct (get_constraint_count _ _ _ _ _ (proj1 Hwf) Hzero) as [Hq Hc].
  set (p := (r, c, v)) in *.
  pose proof (wf_changed s p 1 Hwf) as Hwf1.
  assert (Epp : slot_eqb p p = true) by (apply slot_eqb_true; reflexivity).
  assert (Hc1 : count_at (changed s p 1) p = 0)
    by (rewrite count_at_changed by assumption; rewrite Epp; reflexivity).
  exists (changed s p 1), (changed (changed s p 1) p (-1)).
  unfold insert_number_at, remove_number_at.
  split; [apply change_state_at_ok; auto |].
  split; [apply change_state_at_ok; auto |].
  pose proof (wf_changed _ p (-1) Hwf1) as Hwf2.
  split; [| split].
  - apply inserted_ext; [apply Hwf2 | apply Hwf |].
    intros y Hy. rewrite !flag_at_changed by (try apply Hwf1; try apply Hwf; assumption).
    destruct (cell_eqb (cell_of p) y) eqn:E; [| reflexivity].
    apply cell_eqb_true in E. subst y. symmetry. exact Hflag.
  - apply constraints_ext; [apply Hwf2 | apply Hwf |].
    intros q Hq'. rewrite !count_at_changed by assumption.
    destruct (slot_eqb p q) eqn:E.
    + apply slot_eqb_true in E. subst q. symmetry. exact Hc.
    + rewrite wrap_add_l.
      replace (count_at s q + 1 * contrib p q + -1 * contrib p q)
        with (count_at s q) by lia.
      apply wrap_small, count_at_is_int, Hwf.
  - rewrite !ninserted_changed, wrap_add_l.
    replace (ninserted s + 1 + -1) with (ninserted s) by lia.
    apply wrap_small, Hwf.
Qed.

Lemma insert_then_remove_restores_witness :
  wf one_clue /\ get_inserted one_clue 3 3 = Ok 0 /\ 0 <= 4 < N /\
  get_constraint one_clue 3 3 4 = Ok 0 /\
  exists s1 s2,
    insert_number_at one_clue 3 3 4 = Ok s1 /\
    remove_number_at s1 3 3 4 = Ok s2 /\
    inserted s2 = inserted one_clue /\
    constraints s2 = constraints one_clue /\
    ninserted s2 = ninserted one_clue.
Proof.
  assert (H1 : wf one_clue) by (apply wfb_true; vm_compute; reflexivity).
  assert (H2 : get_inserted one_clue 3 3 = Ok 0) by (vm_compute; reflexivity).
  assert (H3 : 0 <= 4 < N) by (unfold N, SQRT_N; lia).
  assert (H4 : get_constraint one_clue 3 3 4 = Ok 0) by (vm_compute; reflexivity).
  split; [exact H1 |]. split; [exact H2 |]. split; [exact H3 |]. split; [exact H4 |].
  exact (insert_then_remove_restores one_clue 3 3 4 H1 H2 H3 H4).
Defined.

(** C4. When [change_state_at] is called with [type] 1 or -1 on a slot
    whose count is 0, the sweeps touch that slot exactly 4 times, so it
    holds [type * 4] when the sweeps end (4 on a commit, -4 on a
    retraction); no assertion fails, the call returns, and the slot is
    back to 0. *)
Theorem own_slot_swept_four_times s row col number type :
  wf s -> type = 1 \/ type = -1 ->
  get_constraint s row col number = Ok 0 ->
  times (row, col, number) (sweep_slots row col number) = 4 /\
  exists s1 s',
    change_state_sweeps s row col number type = Ok s1 /\
    get_constraint s1 row col number = Ok (type * 4) /\
    change_state_at s row col number type = Ok s' /\
    get_constraint s' row col number = Ok 0.
Proof.
  intros Hwf Ht Hzero.
  destruct (get_constraint_count _ _ _ _ _ (proj1 Hwf) Hzero) as [Hq Hc].
  assert (Epp : slot_eqb (row, col, number) (row, col, number) = true)
    by (apply slot_eqb_true; reflexivity).
  split.
  { rewrite times_sweep_slots by assumption. rewrite Epp. reflexivity. }
  destruct (change_state_sweeps_ok s row col number type (proj1 Hwf) Hq Ht Hc)
    as [Hsw Hshape].
  exists (swept s (row, col, number) type), (changed s (row, col, number) type).
  split; [exact Hsw |]. split.
  { rewrite get_constraint_ok by assumption.
    rewrite count_at_swept by assumption.
    rewrite Epp, Hc, Z.add_0_l, wrap_times_4 by assumption. reflexivity. }
  split; [apply change_state_at_ok; assumption |].
  rewrite get_constraint_ok; [| apply wf_changed, Hwf | assumption].
  rewrite count_at_changed by assumption. rewrite Epp. reflexivity.
Qed.

Lemma own_slot_swept_four_times_witness :
  wf one_clue /\ (-1 = 1 \/ -1 = -1) /\ get_constraint one_clue 0 0 4 = Ok 0 /\
  times (0, 0, 4) (sweep_slots 0 0 4) = 4 /\
  exists s1 s',
    change_state_sweeps one_clue 0 0 4 (-1) = Ok s1 /\
    get_constraint s1 0 0 4 = Ok (-1 * 4) /\
    change_state_at one_clue 0 0 4 (-1) = Ok s' /\
    get_constraint s' 0 0 4 = Ok 0.
Proof.
  assert (H1 : wf one_clue) by (apply wfb_true; vm_compute; reflexivity).
  assert (H2 : -1 = 1 \/ -1 = -1) by (right; reflexivity).
  assert (H3 : get_constraint one_clue 0 0 4 = Ok 0) by (vm_compute; reflexivity).
  split; [exact H1 |]. split; [exact H2 |]. split; [exact H3 |].
  exact (own_slot_swept_four_times one_clue 0 0 4 (-1) H1 H2 H3).
Defined.

Lemma reachable_one_clue : reachable [(0, 0, 4)] one_clue.
Proof. apply reachable_by_commits_reachable, reachable_by_commits_one_clue. Defined.

(** C5, as stated, fails: after the single commit of number 4 at (0, 0),
    cell (0, 1) has one committed peer holding 4, yet its slot for 4
    holds 2, because that peer shares both the row and the box. *)
Lemma constraint_is_not_peer_count :
  ~ (forall ps s r c v,
       reachable ps s -> 0 <= r < N -> 0 <= c < N -> 0 <= v < N ->
       get_constraint s r c v = Ok (Z.of_nat (peer_count ps (r, c) v))).
Proof.
  intros H.
  specialize (H [(0, 0, 4)] one_clue 0 1 4 reachable_one_clue).
  assert (H0 : 0 <= 0 < N) by (unfold N, SQRT_N; lia).
  assert (H1 : 0 <= 1 < N) by (unfold N, SQRT_N; lia).
  assert (H4 : 0 <= 4 < N) by (unfold N, SQRT_N; lia).
  specialize (H H0 H1 H4). vm_compute in H. discriminate H.
Qed.

(** C5, amended.  In every state reachable by valid commits and retracts,
    [constraints[r][c][v]] is a non-negative integer: the sum, over the
    committed cells, of what each weighs on the slot.  A committed cell
    other than (r, c) that holds v weighs one for each group (row,
    column, box) it shares with (r, c); the cell (r, c) itself weighs
    one when it is committed with a number other than v; everything else
    weighs nothing. *)
Theorem constraint_is_weight ps s r c v :
  reachable ps s -> 0 <= r < N -> 0 <= c < N -> 0 <= v < N ->
  get_constraint s r c v = Ok (weight ps (r, c, v)) /\
  0 <= weight ps (r, c, v).
Proof.
  intros Hr Hrb Hcb Hvb. pose proof (reachable_Inv ps s Hr) as (Hwf & _ & _ & Hcnt & _).
  assert (Hq : slot_ok (r, c, v)) by (unfold slot_ok; auto).
  split; [| apply weight_bounds].
  rewrite get_constraint_ok; [| apply Hwf | assumption].
  rewrite Hcnt by assumption. reflexivity.
Qed.

Lemma constraint_is_weight_witness :
  reachable [(0, 0, 4)] one_clue /\ 0 <= 0 < N /\ 0 <= 1 < N /\ 0 <= 4 < N /\
  get_constraint one_clue 0 1 4 = Ok (weight [(0, 0, 4)] (0, 1, 4)) /\
  0 <= weight [(0, 0, 4)] (0, 1, 4).
Proof.
  assert (H0 : 0 <= 0 < N) by (unfold N, SQRT_N; lia).
  assert (H1 : 0 <= 1 < N) by (unfold N, SQRT_N; lia).
  assert (H4 : 0 <= 4 < N) by (unfold N, SQRT_N; lia).
  split; [exact reachable_one_clue |].
  split; [exact H0 |]. split; [exact H1 |]. split; [exact H4 |].
  exact (constraint_is_weight [(0, 0, 4)] one_clue 0 1 4 reachable_one_clue H0 H1 H4).
Defined.

Lemma reachable_count_nonneg ps s i j n k :
  reachable ps s -> get_constraint s i j n = Ok k -> 0 <= k.
Proof.
  intros Hr Hk. pose proof (reachable_Inv ps s Hr) as (Hwf & _ & _ & Hcnt & _).
  destruct (get_constraint_count _ _ _ _ _ (proj1 Hwf) Hk) as [Hq <-].
  rewrite Hcnt by assumption. apply weight_bounds.
Qed.

Lemma wrap_zero x : 0 <= x <= INT_MAX + 3 -> wrap x = 0 -> x = 0.
Proof.
  unfold wrap, INT_MAX. intros Hx H.
  destruct (Z_lt_le_dec (x + 2 ^ 31) (2 ^ 32)) as [Hlt | Hge].
  - rewrite Z.mod_small in H by lia. lia.
  - replace (x + 2 ^ 31) with ((x + 2 ^ 31 - 2 ^ 32) + 1 * 2 ^ 32) in H by lia.
    rewrite Z_mod_plus_full in H. rewrite Z.mod_small in H by lia. lia.
Qed.

Lemma length_filter_mono {A} (f g : A -> bool) (l : list A) :
  (forall a, a ∈ l -> f a = true -> g a = true) ->
  (length (List.filter f l) <= length (List.filter g l))%nat.
Proof.
  induction l as [| a l IH]; intros H; simpl; [lia |].
  assert (IH' : (length (List.filter f l) <= length (List.filter g l))%nat)
    by (apply IH; intros b Hb; apply H, list_elem_of_further, Hb).
  pose proof (H a (list_elem_of_here _ _)) as Ha.
  destruct (f a); [rewrite Ha by reflexivity |]; simpl; [lia |].
  destruct (g a); simpl; lia.
Qed.

(** C6. Take a state whose constraint counts are non-negative, as they
    are in every reachable state, and a valid commit of v at (r, c).
    For every cell (r', c') the number of candidates reported by
    [get_possibilities_at] after the commit is at most the number
    reported before; in particular for every cell other than (r, c). *)
Theorem commit_never_adds_candidates s r c v r' c' buf :
  wf s ->
  (forall i j n k, get_constraint s i j n = Ok k -> 0 <= k) ->
  get_inserted s r c = Ok 0 -> 0 <= v < N -> get_constraint s r c v = Ok 0 ->
  0 <= r' < N -> 0 <= c' < N -> length buf = Z.to_nat N ->
  exists s1 b0 k0 b1 k1,
    insert_number_at s r c v = Ok s1 /\
    get_possibilities_at s r' c' buf = Ok (b0, k0) /\
    get_possibilities_at s1 r' c' buf = Ok (b1, k1) /\
    k1 <= k0.
Proof.
  intros Hwf Hnn Hfree Hv Hzero Hr' Hc' Hbuf.
  destruct (get_constraint_count _ _ _ _ _ (proj1 Hwf) Hzero) as [Hq Hc].
  set (p := (r, c, v)) in *.
  assert (Hx : cell_ok (r', c')) by (split; assumption).
  pose proof (wf_changed s p 1 Hwf) as Hwf1.
  exists (changed s p 1), (filled buf (candidates s (r', c'))), (poss_count s (r', c')),
         (filled buf (candidates (changed s p 1) (r', c'))),
         (poss_count (changed s p 1) (r', c')).
  split; [apply change_state_at_ok; auto |].
  split; [apply get_possibilities_at_ok; [apply Hwf | assumption | assumption] |].
  split; [apply get_possibilities_at_ok; [apply Hwf1 | assumption | assumption] |].
  unfold poss_count, candidates. apply inj_le, length_filter_mono.
  intros n Hn H1. apply elem_of_range in Hn. simpl fst in *. simpl snd in *.
  assert (Hq' : slot_ok (r', c', n)) by (unfold slot_ok; auto).
  apply Z.eqb_eq in H1. apply Z.eqb_eq.
  rewrite count_at_changed in H1 by assumption.
  destruct (slot_eqb p (r', c', n)) eqn:E.
  - apply slot_eqb_true in E. rewrite <- E. exact Hc.
  - pose proof (Hnn r' c' n _ (get_constraint_ok s r' c' n (proj1 Hwf) Hq')) as H0.
    pose proof (count_at_is_int s (r', c', n) Hwf) as [_ Hmax].
    pose proof (contrib_bounds p (r', c', n)).
    apply wrap_zero in H1; lia.
Qed.

Lemma commit_never_adds_candidates_witness :
  wf one_clue /\
  (forall i j n k, get_constraint one_clue i j n = Ok k -> 0 <= k) /\
  get_inserted one_clue 3 3 = Ok 0 /\ 0 <= 4 < N /\
  get_constraint one_clue 3 3 4 = Ok 0 /\
  0 <= 3 < N /\ 0 <= 5 < N /\ length malloc_buffer = Z.to_nat N /\
  exists s1 b0 k0 b1 k1,
    insert_number_at one_clue 3 3 4 = Ok s1 /\
    get_possibilities_at one_clue 3 5 malloc_buffer = Ok (b0, k0) /\
    get_possibilities_at s1 3 5 malloc_buffer = Ok (b1, k1) /\
    k1 <= k0.
Proof.
  assert (H1 : wf one_clue) by (apply wfb_true; vm_compute; reflexivity).
  assert (H2 : forall i j n k, get_constraint one_clue i j n = Ok k -> 0 <= k)
    by (intros i j n k; apply (reachable_count_nonneg _ _ i j n k reachable_one_clue)).
  assert (H3 : get_inserted one_clue 3 3 = Ok 0) by (vm_compute; reflexivity).
  assert (H4 : 0 <= 4 < N) by (unfold N, SQRT_N; lia).
  assert (H5 : get_constraint one_clue 3 3 4 = Ok 0) by (vm_compute; reflexivity).
  assert (H6 : 0 <= 3 < N) by (unfold N, SQRT_N; lia).
  assert (H7 : 0 <= 5 < N) by (unfold N, SQRT_N; lia).
  assert (H8 : length malloc_buffer = Z.to_nat N) by reflexivity.
  split; [exact H1 |]. split; [exact H2 |]. split; [exact H3 |]. split; [exact H4 |].
  split; [exact H5 |]. split; [exact H6 |]. split; [exact H7 |]. split; [exact H8 |].
  exact (commit_never_adds_candidates one_clue 3 3 4 3 5 malloc_buffer
           H1 H2 H3 H4 H5 H6 H7 H8).
Defined.

(** C7. In a state with at least one uncommitted cell,
    [get_most_constrained_cell] returns an uncommitted cell together with
    its candidates: the first [poss_count] entries of the buffer are the
    open numbers of that cell in ascending order.  No uncommitted cell
    has fewer candidates, and every uncommitted cell with as few comes
    later in row-major order. *)
Theorem most_constrained_cell_is_first_minimum s buf :
  shape s -> length buf = Z.to_nat N ->
  (exists r c, get_inserted s r c = Ok 0) ->
  exists row col buf' poss_count,
    get_most_constrained_cell s buf = Ok (row, col, buf', poss_count) /\
    get_inserted s row col = Ok 0 /\
    take (Z.to_nat poss_count) buf' = candidates s (row, col) /\
    poss_count = Z.of_nat (length (candidates s (row, col))) /\
    forall r c b k,
      get_inserted s r c = Ok 0 -> get_possibilities_at s r c buf = Ok (b, k) ->
      poss_count <= k /\ (k = poss_count -> row * N + col <= r * N + c).
Proof.
  intros Hs Hbuf (r0 & c0 & H0).
  destruct (get_inserted_flag _ _ _ _ Hs H0) as [Hx0 Hf0].
  destruct (get_most_constrained_cell_ok s buf Hs Hbuf
              (ex_intro _ (r0, c0) (conj Hx0 Hf0)))
    as ([row col] & buf' & Hsel & Hlen & Hx & Hfx & Hmin).
  exists row, col, (filled buf' (candidates s (row, col))), (poss_count s (row, col)).
  split; [exact Hsel |].
  split; [rewrite get_inserted_ok by assumption; f_equal; exact Hfx |].
  split; [unfold poss_count; rewrite Nat2Z.id; apply take_filled |].
  split; [reflexivity |].
  intros r c b k Hfree Hposs.
  destruct (get_inserted_flag _ _ _ _ Hs Hfree) as [Hy Hfy].
  rewrite get_possibilities_at_ok in Hposs by assumption.
  injection Hposs as _ <-.
  exact (Hmin (r, c) Hy Hfy).
Qed.

Lemma most_constrained_cell_is_first_minimum_witness :
  shape one_clue /\ length malloc_buffer = Z.to_nat N /\
  (exists r c, get_inserted one_clue r c = Ok 0) /\
  exists row col buf' poss_count,
    get_most_constrained_cell one_clue malloc_buffer = Ok (row, col, buf', poss_count) /\
    get_inserted one_clue row col = Ok 0 /\
    take (Z.to_nat poss_count) buf' = candidates one_clue (row, col) /\
    poss_count = Z.of_nat (length (candidates one_clue (row, col))) /\
    forall r c b k,
      get_inserted one_clue r c = Ok 0 ->
      get_possibilities_at one_clue r c malloc_buffer = Ok (b, k) ->
      poss_count <= k /\ (k = poss_count -> row * N + col <= r * N + c).
Proof.
  assert (H1 : shape one_clue) by (split; vm_compute; reflexivity).
  assert (H2 : length malloc_buffer = Z.to_nat N) by reflexivity.
  assert (H3 : exists r c, get_inserted one_clue r c = Ok 0)
    by (exists 0, 1; vm_compute; reflexivity).
  split; [exact H1 |]. split; [exact H2 |]. split; [exact H3 |].
  exact (most_constrained_cell_is_first_minimum one_clue malloc_buffer H1 H2 H3).
Defined.

(** C8. On a reachable state [solve] returns whenever it may nest as many
    calls as there are uncommitted cells, which is at most 81; and a call
    that returns within depth d has committed at most d numbers more
    than it found, one per stack frame. *)
Theorem solve_terminates_within_depth ps s :
  reachable ps s ->
  0 <= N * N - ninserted s <= 81 /\
  (forall d, (Z.to_nat (N * N - ninserted s) <= d)%nat ->
     exists res s', solve d s = Ok (res, s')) /\
  (forall d res s', solve d s = Ok (res, s') ->
     ninserted s' - ninserted s <= Z.of_nat d).
Proof.
  intros Hr. pose proof (reachable_Inv ps s Hr) as HI.
  pose proof (Inv_length ps s HI) as Hlen.
  pose proof HI as (_ & _ & _ & _ & _ & Hn & _).
  rewrite N_eq. split; [lia |]. split.
  - intros d Hd. pose proof (solve_spec d ps s HI) as Hpost. unfold solve_post in Hpost.
    destruct (solve d s) as [[res s'] | | |]; try contradiction; [eauto | lia].
  - intros d res s' Hsolve.
    pose proof (solve_spec d ps s HI) as Hpost. rewrite Hsolve in Hpost.
    destruct Hpost as [(_ & ps' & HI' & Hlen' & _ & Hd) | (_ & HI' & _)].
    + destruct HI' as (_ & _ & _ & _ & _ & Hn' & _). lia.
    + destruct HI' as (_ & _ & _ & _ & _ & Hn' & _). lia.
Qed.

Lemma solve_terminates_within_depth_witness :
  reachable [(0, 0, 4)] one_clue /\
  0 <= N * N - ninserted one_clue <= 81 /\
  (forall d, (Z.to_nat (N * N - ninserted one_clue) <= d)%nat ->
     exists res s', solve d one_clue = Ok (res, s')) /\
  (forall d res s', solve d one_clue = Ok (res, s') ->
     ninserted s' - ninserted one_clue <= Z.of_nat d).
Proof.
  split; [exact reachable_one_clue |].
  exact (solve_terminates_within_depth [(0, 0, 4)] one_clue reachable_one_clue).
Defined.

(** C9. If [solve] returns 0 on a reachable state, the state it leaves has
    the inserted flags, the constraint counts and [ninserted] it had at
    entry; only [nbacktracks] may differ. *)
Theorem failed_solve_restores_state ps s d s' :
  reachable ps s -> solve d s = Ok (0, s') ->
  inserted s' = inserted s /\
  constraints s' = constraints s /\
  ninserted s' = ninserted s.
Proof.
  intros Hr Hsolve. pose proof (reachable_Inv ps s Hr) as HI.
  pose proof (solve_spec d ps s HI) as Hpost. rewrite Hsolve in Hpost.
  destruct Hpost as [(Habs & _) | (_ & HI' & _)]; [discriminate |].
  destruct (Inv_obs_eq ps s s' HI HI') as (Hc & Hi & Hn). auto.
Qed.

Lemma reachable_stuck : reachable stuck_clues stuck.
Proof.
  apply reachable_by_commits_reachable, reachable_commit_all.
  vm_compute. reflexivity.
Defined.

Lemma failed_solve_restores_state_witness :
  reachable stuck_clues stuck /\ solve 81 stuck = Ok (0, stuck_after_solve) /\
  inserted stuck_after_solve = inserted stuck /\
  constraints stuck_after_solve = constraints stuck /\
  ninserted stuck_after_solve = ninserted stuck.
Proof.
  assert (Hs : solve 81 stuck = Ok (0, stuck_after_solve)) by (vm_compute; reflexivity).
  split; [exact reachable_stuck |]. split; [exact Hs |].
  exact (failed_solve_restores_state stuck_clues stuck 81 stuck_after_solve
           reachable_stuck Hs).
Defined.

Example stuck_backtracks_once : nbacktracks stuck_after_solve = 1.
Proof. vm_compute. reflexivity. Qed.

(** C10. In a reachable state, [get_possibilities_at] on a cell that holds
    the committed number v reports one possibility, v: the cell's slot
    for v is 0 and its slot for every other number is at least 1. *)
Theorem committed_cell_has_single_possibility ps s r c v buf :
  reachable ps s -> (r, c, v) ∈ ps -> length buf = Z.to_nat N ->
  (exists buf', get_possibilities_at s r c buf = Ok (buf', 1) /\
                load_buf buf' 0 = Ok v) /\
  get_constraint s r c v = Ok 0 /\
  forall w, 0 <= w < N -> w <> v ->
    exists k, get_constraint s r c w = Ok k /\ 1 <= k.
Proof.
  intros Hr Hin Hbuf. pose proof (reachable_Inv ps s Hr) as HI.
  pose proof HI as (Hwf & Hok & _ & Hcnt & _).
  assert (Hq : slot_ok (r, c, v)) by (rewrite Forall_forall in Hok; apply Hok, Hin).
  assert (Hx : cell_ok (r, c)) by apply (cell_of_ok _ Hq).
  pose proof (Inv_candidates_committed ps s (r, c, v) HI Hin) as Hcands.
  cbn [cell_of number_of] in Hcands.
  split; [| split].
  - exists (filled buf [v]). split.
    + rewrite get_possibilities_at_ok; [| apply Hwf | assumption | assumption].
      unfold poss_count. rewrite Hcands. reflexivity.
    + apply (load_buf_filled buf [v] 0). simpl. lia.
  - rewrite get_constraint_ok; [| apply Hwf | assumption].
    rewrite (Inv_count_zero ps s _ HI Hin). reflexivity.
  - intros w Hw Hne. exists (count_at s (r, c, w)).
    assert (Hq' : slot_ok (r, c, w)) by (destruct Hx; unfold slot_ok; auto).
    split; [apply get_constraint_ok; [apply Hwf | assumption] |].
    destruct (Z.eq_dec (count_at s (r, c, w)) 0) as [Hz |].
    + exfalso. assert (Hmem : w ∈ candidates s (r, c))
        by (apply elem_of_candidates; auto).
      rewrite Hcands in Hmem. apply list_elem_of_singleton in Hmem. contradiction.
    + rewrite Hcnt in * by assumption. pose proof (weight_bounds ps (r, c, w)). lia.
Qed.

Lemma committed_cell_has_single_possibility_witness :
  reachable [(0, 0, 4)] one_clue /\ (0, 0, 4) ∈ [(0, 0, 4)] /\
  length malloc_buffer = Z.to_nat N /\
  (exists buf', get_possibilities_at one_clue 0 0 malloc_buffer = Ok (buf', 1) /\
                load_buf buf' 0 = Ok 4) /\
  get_constraint one_clue 0 0 4 = Ok 0 /\
  forall w, 0 <= w < N -> w <> 4 ->
    exists k, get_constraint one_clue 0 0 w = Ok k /\ 1 <= k.
Proof.
  assert (H2 : (0, 0, 4) ∈ [(0, 0, 4)]) by apply list_elem_of_here.
  assert (H3 : length malloc_buffer = Z.to_nat N) by reflexivity.
  split; [exact reachable_one_clue |]. split; [exact H2 |]. split; [exact H3 |].
  exact (committed_cell_has_single_possibility [(0, 0, 4)] one_clue 0 0 4 malloc_buffer
           reachable_one_clue H2 H3).
Defined.

(* ================================================================== *)
(** * More properties of the program *)

(* ================================================================== *)
(** ** More on commits and retractions *)

Lemma weight_Permutation ps ps' q : ps ≡ₚ ps' -> weight ps q = weight ps' q.
Proof. induction 1; simpl; lia. Qed.

Lemma occupied_Permutation ps ps' x : ps ≡ₚ ps' -> occupied ps x = occupied ps' x.
Proof.
  intros Hp. destruct (occupied ps' x) eqn:E.
  - apply occupied_true. apply occupied_true in E.
    change (map cell_of ps) with (cell_of <$> ps). rewrite Hp. exact E.
  - apply occupied_false. apply occupied_false in E.
    change (map cell_of ps) with (cell_of <$> ps). rewrite Hp. exact E.
Qed.

(** The invariant does not depend on the order of the commits. *)
Lemma Inv_Permutation ps ps' s : ps ≡ₚ ps' -> Inv ps s -> Inv ps' s.
Proof.
  intros Hp (Hwf & Hok & Hnd & Hcnt & Hflag & Hn & Hcons).
  split; [assumption |]. split; [rewrite <- Hp; assumption |].
  split.
  { change (map cell_of ps') with (cell_of <$> ps'). rewrite <- Hp. assumption. }
  split; [| split; [| split]].
  - intros q Hq. rewrite <- (weight_Permutation ps ps' q Hp). apply Hcnt, Hq.
  - intros x Hx. rewrite <- (occupied_Permutation ps ps' x Hp). apply Hflag, Hx.
  - rewrite <- Hp. assumption.
  - intros p Hin. rewrite <- (weight_Permutation ps ps' p Hp). apply Hcons.
    rewrite Hp. assumption.
Qed.

Lemma remove_slot_Permutation p ps :
  NoDup ps -> p ∈ ps -> p :: remove_slot p ps ≡ₚ ps.
Proof.
  induction 1 as [| p' ps Hnotin Hnd IH]; intros Hp; [inversion Hp |].
  simpl. destruct (slot_eqb p p') eqn:E.
  - apply slot_eqb_true in E. subst p'. simpl. fold (remove_slot p ps).
    rewrite remove_slot_notin by assumption. reflexivity.
  - apply slot_eqb_false in E. simpl. fold (remove_slot p ps).
    apply elem_of_cons in Hp as [-> | Hp]; [congruence |].
    rewrite Permutation_swap. f_equiv. apply IH, Hp.
Qed.

(** Two states with the same observable puzzle and the same statistics
    counter are the same state. *)
Lemma obs_eq_same s s' :
  obs_eq s s' -> nbacktracks s' = nbacktracks s -> s' = s.
Proof.
  destruct s, s'. unfold obs_eq. simpl. intros (-> & -> & ->) ->. reflexivity.
Qed.

Lemma weight_ge_contrib ps p q : p ∈ ps -> contrib p q <= weight ps q.
Proof.
  induction ps as [| p' ps IH]; intros Hp; [inversion Hp |]. simpl.
  pose proof (contrib_bounds p' q). pose proof (weight_bounds ps q).
  apply elem_of_cons in Hp as [-> | Hp]; [lia |]. specialize (IH Hp). lia.
Qed.

(** A valid commit on a state that satisfies the invariant. *)
Lemma Inv_insert_ok ps s r c v :
  Inv ps s -> get_inserted s r c = Ok 0 -> 0 <= v < N ->
  get_constraint s r c v = Ok 0 ->
  insert_number_at s r c v = Ok (changed s (r, c, v) 1) /\
  Inv ((r, c, v) :: ps) (changed s (r, c, v) 1) /\
  occupied ps (r, c) = false /\ weight ps (r, c, v) = 0.
Proof.
  intros HI Hfree Hv Hzero. pose proof HI as (Hwf & _ & _ & Hcnt & _).
  destruct (get_inserted_flag _ _ _ _ (proj1 Hwf) Hfree) as [Hx Hflag].
  destruct (get_constraint_count _ _ _ _ _ (proj1 Hwf) Hzero) as [Hq Hc].
  pose proof (Inv_flag_free ps s (r, c) HI Hx Hflag) as Hocc.
  assert (Hw : weight ps (r, c, v) = 0) by (rewrite <- Hcnt by assumption; exact Hc).
  split; [unfold insert_number_at; apply change_state_at_ok; auto |].
  split; [apply Inv_insert; assumption |]. auto.
Qed.

(** X1. Two valid commits made one after the other can be made in the
    other order, and lead to the same state. *)
Theorem commits_commute ps s r1 c1 v1 r2 c2 v2 sa sb :
  reachable ps s ->
  get_inserted s r1 c1 = Ok 0 -> 0 <= v1 < N ->
  get_constraint s r1 c1 v1 = Ok 0 ->
  insert_number_at s r1 c1 v1 = Ok sa ->
  get_inserted sa r2 c2 = Ok 0 -> 0 <= v2 < N ->
  get_constraint sa r2 c2 v2 = Ok 0 ->
  insert_number_at sa r2 c2 v2 = Ok sb ->
  exists sa',
    get_inserted s r2 c2 = Ok 0 /\
    get_constraint s r2 c2 v2 = Ok 0 /\
    insert_number_at s r2 c2 v2 = Ok sa' /\
    get_inserted sa' r1 c1 = Ok 0 /\
    get_constraint sa' r1 c1 v1 = Ok 0 /\
    insert_number_at sa' r1 c1 v1 = Ok sb.
Proof.
  intros Hr Hf1 Hv1 Hz1 Hi1 Hf2 Hv2 Hz2 Hi2.
  pose proof (reachable_Inv ps s Hr) as HI.
  destruct (Inv_insert_ok ps s r1 c1 v1 HI Hf1 Hv1 Hz1) as (E1 & HIa & Hocc1 & Hw1).
  rewrite E1 in Hi1. injection Hi1 as <-.
  destruct (Inv_insert_ok _ _ r2 c2 v2 HIa Hf2 Hv2 Hz2) as (E2 & HIb & Hocc2 & Hw2).
  rewrite E2 in Hi2. injection Hi2 as <-.
  pose proof HI as (Hwf & _ & _ & Hcnt & Hflag & _).
  destruct (get_inserted_flag _ _ _ _ (proj1 Hwf) Hf1) as [Hx1 Hflag1].
  destruct (get_constraint_count _ _ _ _ _ (proj1 Hwf) Hz1) as [Hq1 _].
  destruct (get_inserted_flag _ _ _ _ (proj1 (proj1 HIa)) Hf2) as [Hx2 _].
  destruct (get_constraint_count _ _ _ _ _ (proj1 (proj1 HIa)) Hz2) as [Hq2 _].
  (* the second commit was already valid before the first *)
  change (occupied ((r1, c1, v1) :: ps) (r2, c2))
    with (cell_eqb (r1, c1) (r2, c2) || occupied ps (r2, c2)) in Hocc2.
  apply orb_false_iff in Hocc2 as [Hne Hocc2'].
  change (weight ((r1, c1, v1) :: ps) (r2, c2, v2))
    with (contrib (r1, c1, v1) (r2, c2, v2) + weight ps (r2, c2, v2)) in Hw2.
  pose proof (contrib_bounds (r1, c1, v1) (r2, c2, v2)). pose proof (weight_bounds ps (r2, c2, v2)).
  assert (Hc12 : contrib (r1, c1, v1) (r2, c2, v2) = 0) by lia.
  assert (Hw2' : weight ps (r2, c2, v2) = 0) by lia.
  assert (Hf2' : get_inserted s r2 c2 = Ok 0).
  { rewrite get_inserted_ok; [| apply Hwf | assumption].
    rewrite Hflag by assumption. rewrite Hocc2'. reflexivity. }
  assert (Hz2' : get_constraint s r2 c2 v2 = Ok 0).
  { rewrite get_constraint_ok; [| apply Hwf | assumption].
    rewrite Hcnt by assumption. rewrite Hw2'. reflexivity. }
  destruct (Inv_insert_ok ps s r2 c2 v2 HI Hf2' Hv2 Hz2') as (E2' & HIa' & _ & _).
  pose proof HIa' as (Hwfa & _ & _ & Hcnta & Hflaga & _).
  assert (Hf1' : get_inserted (changed s (r2, c2, v2) 1) r1 c1 = Ok 0).
  { rewrite get_inserted_ok; [| apply Hwfa | assumption].
    rewrite Hflaga by assumption.
    change (occupied ((r2, c2, v2) :: ps) (r1, c1))
      with (cell_eqb (r2, c2) (r1, c1) || occupied ps (r1, c1)).
    replace (cell_eqb (r2, c2) (r1, c1)) with false.
    - rewrite Hocc1. reflexivity.
    - symmetry. apply cell_eqb_false. apply cell_eqb_false in Hne. congruence. }
  assert (Hz1' : get_constraint (changed s (r2, c2, v2) 1) r1 c1 v1 = Ok 0).
  { rewrite get_constraint_ok; [| apply Hwfa | assumption].
    rewrite Hcnta by assumption.
    change (weight ((r2, c2, v2) :: ps) (r1, c1, v1)) with (contrib (r2, c2, v2) (r1, c1, v1) + weight ps (r1, c1, v1)).
    rewrite contrib_sym, Hc12, Hw1. reflexivity. }
  destruct (Inv_insert_ok _ _ r1 c1 v1 HIa' Hf1' Hv1 Hz1') as (E1' & HIb' & _ & _).
  exists (changed s (r2, c2, v2) 1).
  split; [assumption |]. split; [assumption |]. split; [assumption |].
  split; [assumption |]. split; [assumption |].
  rewrite E1'. f_equal.
  apply obs_eq_same.
  - apply (Inv_obs_eq ((r2, c2, v2) :: (r1, c1, v1) :: ps)); [assumption |].
    apply (Inv_Permutation ((r1, c1, v1) :: (r2, c2, v2) :: ps)); [apply Permutation_swap | assumption].
  - rewrite !nbacktracks_changed. reflexivity.
Qed.

Lemma reachable_zero : reachable [] zero_sudoku.
Proof. apply reachable_by_commits_reachable, reachable_by_commits_zero. Defined.

Lemma commits_commute_witness :
  reachable [] zero_sudoku /\
  get_inserted zero_sudoku 0 0 = Ok 0 /\ 0 <= 4 < N /\
  get_constraint zero_sudoku 0 0 4 = Ok 0 /\
  insert_number_at zero_sudoku 0 0 4 = Ok one_clue /\
  get_inserted one_clue 3 3 = Ok 0 /\ 0 <= 4 < N /\
  get_constraint one_clue 3 3 4 = Ok 0 /\
  insert_number_at one_clue 3 3 4 = Ok two_clues /\
  exists sa',
    get_inserted zero_sudoku 3 3 = Ok 0 /\
    get_constraint zero_sudoku 3 3 4 = Ok 0 /\
    insert_number_at zero_sudoku 3 3 4 = Ok sa' /\
    get_inserted sa' 0 0 = Ok 0 /\
    get_constraint sa' 0 0 4 = Ok 0 /\
    insert_number_at sa' 0 0 4 = Ok two_clues.
Proof.
  assert (H1 : get_inserted zero_sudoku 0 0 = Ok 0) by (vm_compute; reflexivity).
  assert (H2 : 0 <= 4 < N) by (unfold N, SQRT_N; lia).
  assert (H3 : get_constraint zero_sudoku 0 0 4 = Ok 0) by (vm_compute; reflexivity).
  assert (H4 : insert_number_at zero_sudoku 0 0 4 = Ok one_clue)
    by (vm_compute; reflexivity).
  assert (H5 : get_inserted one_clue 3 3 = Ok 0) by (vm_compute; reflexivity).
  assert (H6 : get_constraint one_clue 3 3 4 = Ok 0) by (vm_compute; reflexivity).
  assert (H7 : insert_number_at one_clue 3 3 4 = Ok two_clues)
    by (vm_compute; reflexivity).
  split; [exact reachable_zero |]. split; [exact H1 |]. split; [exact H2 |].
  split; [exact H3 |]. split; [exact H4 |]. split; [exact H5 |]. split; [exact H2 |].
  split; [exact H6 |]. split; [exact H7 |].
  exact (commits_commute [] zero_sudoku 0 0 4 3 3 4 one_clue two_clues
           reachable_zero H1 H2 H3 H4 H5 H2 H6 H7).
Defined.

(** X2. Any committed number can be retracted, whatever was committed
    after it; the cell is then free for that number again, and committing
    it back restores the inserted flags, the constraint counts and
    [ninserted]. *)
Theorem retract_then_commit_restores ps s r c v :
  reachable ps s -> (r, c, v) ∈ ps ->
  exists s1 s2,
    remove_number_at s r c v = Ok s1 /\
    get_inserted s1 r c = Ok 0 /\
    get_constraint s1 r c v = Ok 0 /\
    insert_number_at s1 r c v = Ok s2 /\
    inserted s2 = inserted s /\
    constraints s2 = constraints s /\
    ninserted s2 = ninserted s.
Proof.
  intros Hr Hin. pose proof (reachable_Inv ps s Hr) as HI.
  pose proof HI as (Hwf & Hok & Hnd & _).
  assert (Hq : slot_ok (r, c, v)) by (rewrite Forall_forall in Hok; apply Hok, Hin).
  assert (Hx : cell_ok (r, c)) by apply (cell_of_ok _ Hq).
  pose proof (Inv_remove ps s (r, c, v) HI Hin) as HI1.
  pose proof HI1 as (Hwf1 & _ & _ & Hcnt1 & Hflag1 & _).
  exists (changed s (r, c, v) (-1)), (changed (changed s (r, c, v) (-1)) (r, c, v) 1).
  assert (E1 : remove_number_at s r c v = Ok (changed s (r, c, v) (-1))).
  { unfold remove_number_at. apply change_state_at_ok; auto.
    apply (Inv_count_zero ps s _ HI Hin). }
  assert (Hf : get_inserted (changed s (r, c, v) (-1)) r c = Ok 0).
  { rewrite get_inserted_ok; [| apply Hwf1 | assumption].
    rewrite Hflag1 by assumption.
    rewrite occupied_remove_slot by assumption. cbn [cell_of].
    rewrite (proj2 (cell_eqb_true (r, c) (r, c)) eq_refl). reflexivity. }
  assert (Hz : get_constraint (changed s (r, c, v) (-1)) r c v = Ok 0).
  { rewrite get_constraint_ok; [| apply Hwf1 | assumption].
    rewrite Hcnt1 by assumption.
    rewrite weight_remove_slot by (try apply NoDup_slots; assumption).
    destruct HI as (_ & _ & _ & _ & _ & _ & Hcons).
    rewrite (Hcons _ Hin), contrib_self. reflexivity. }
  destruct (Inv_insert_ok _ _ r c v HI1 Hf (proj2 (proj2 Hq)) Hz) as (E2 & HI2 & _ & _).
  split; [exact E1 |]. split; [exact Hf |]. split; [exact Hz |]. split; [exact E2 |].
  assert (HI2' : Inv ps (changed (changed s (r, c, v) (-1)) (r, c, v) 1)).
  { apply (Inv_Permutation ((r, c, v) :: remove_slot (r, c, v) ps)); [| assumption].
    apply remove_slot_Permutation; [apply NoDup_slots |]; assumption. }
  destruct (Inv_obs_eq ps s _ HI HI2') as (Hc & Hi & Hn). auto.
Qed.

Lemma reachable_two_clues : reachable [(3, 3, 4); (0, 0, 4)] two_clues.
Proof.
  apply reachable_by_commits_reachable, reachable_commit_all.
  vm_compute. reflexivity.
Defined.

Lemma retract_then_commit_restores_witness :
  reachable [(3, 3, 4); (0, 0, 4)] two_clues /\
  (0, 0, 4) ∈ [(3, 3, 4); (0, 0, 4)] /\
  exists s1 s2,
    remove_number_at two_clues 0 0 4 = Ok s1 /\
    get_inserted s1 0 0 = Ok 0 /\
    get_constraint s1 0 0 4 = Ok 0 /\
    insert_number_at s1 0 0 4 = Ok s2 /\
    inserted s2 = inserted two_clues /\
    constraints s2 = constraints two_clues /\
    ninserted s2 = ninserted two_clues.
Proof.
  assert (H : (0, 0, 4) ∈ [(3, 3, 4); (0, 0, 4)])
    by (apply list_elem_of_further, list_elem_of_here).
  split; [exact reachable_two_clues |]. split; [exact H |].
  exact (retract_then_commit_restores _ two_clues 0 0 4 reachable_two_clues H).
Defined.

(** X3. In a reachable state a commit that breaks the rules never goes
    through: committing v at a cell whose row, column or box already
    holds v, or at a cell that holds another number, fails the assertion
    of line 78. *)
Theorem clashing_commit_aborts ps s r c v q :
  reachable ps s -> 0 <= r < N -> 0 <= c < N -> 0 <= v < N ->
  q ∈ ps ->
  (peers (cell_of q) (r, c) = true /\ number_of q = v) \/
  (cell_of q = (r, c) /\ number_of q <> v) ->
  insert_number_at s r c v = AssertFail.
Proof.
  intros Hr Hrb Hcb Hvb Hq Hclash. pose proof (reachable_Inv ps s Hr) as HI.
  pose proof HI as (Hwf & _ & _ & Hcnt & _).
  assert (Hp : slot_ok (r, c, v)) by (unfold slot_ok; auto).
  assert (H1 : 1 <= contrib q (r, c, v)).
  { destruct Hclash as [[Hpeers Hnum] | [Hcell Hnum]].
    - apply contrib_peers; assumption.
    - rewrite (contrib_same_cell (r, c, v) q); [lia | assumption | assumption]. }
  pose proof (weight_ge_contrib ps q (r, c, v) Hq) as H2.
  unfold insert_number_at, change_state_at, change_state_sweeps.
  cbn [Z.eqb orb assert bind].
  assert (Ha : (v >=? 0) && (v <? N) = true)
    by (rewrite andb_true_iff, Z.geb_le, Z.ltb_lt; lia).
  rewrite Ha. cbn [assert bind].
  rewrite get_constraint_ok; [| apply Hwf | assumption]. cbn [bind].
  rewrite Hcnt by assumption.
  destruct (Z.eqb_spec (weight ps (r, c, v)) 0) as [E |]; [lia |]. reflexivity.
Qed.

Lemma clashing_commit_aborts_witness :
  reachable [(0, 0, 4)] one_clue /\ 0 <= 0 < N /\ 0 <= 7 < N /\ 0 <= 4 < N /\
  (0, 0, 4) ∈ [(0, 0, 4)] /\
  ((peers (cell_of (0, 0, 4)) (0, 7) = true /\ number_of (0, 0, 4) = 4) \/
   (cell_of (0, 0, 4) = (0, 7) /\ number_of (0, 0, 4) <> 4)) /\
  insert_number_at one_clue 0 7 4 = AssertFail.
Proof.
  assert (H0 : 0 <= 0 < N) by (unfold N, SQRT_N; lia).
  assert (H7 : 0 <= 7 < N) by (unfold N, SQRT_N; lia).
  assert (H4 : 0 <= 4 < N) by (unfold N, SQRT_N; lia).
  assert (Hin : (0, 0, 4) ∈ [(0, 0, 4)]) by apply list_elem_of_here.
  assert (Hc : (peers (cell_of (0, 0, 4)) (0, 7) = true /\ number_of (0, 0, 4) = 4) \/
               (cell_of (0, 0, 4) = (0, 7) /\ number_of (0, 0, 4) <> 4))
    by (left; split; reflexivity).
  split; [exact reachable_one_clue |]. split; [exact H0 |]. split; [exact H7 |].
  split; [exact H4 |]. split; [exact Hin |]. split; [exact Hc |].
  exact (clashing_commit_aborts _ one_clue 0 7 4 (0, 0, 4)
           reachable_one_clue H0 H7 H4 Hin Hc).
Defined.

(** X4. What the code does not check: committing to a cell the number it
    already holds passes every assertion.  The flags stay as they are
    while [ninserted] grows by one, so [ninserted] no longer counts the
    committed cells. *)
Theorem recommit_is_not_rejected ps s r c v :
  reachable ps s -> (r, c, v) ∈ ps ->
  exists s',
    insert_number_at s r c v = Ok s' /\
    inserted s' = inserted s /\
    ninserted s' = ninserted s + 1.
Proof.
  intros Hr Hin. pose proof (reachable_Inv ps s Hr) as HI.
  pose proof (Inv_length ps s HI) as Hlen.
  pose proof HI as (Hwf & Hok & _ & _ & Hflag & Hn & _).
  assert (Hq : slot_ok (r, c, v)) by (rewrite Forall_forall in Hok; apply Hok, Hin).
  assert (Hx : cell_ok (r, c)) by apply (cell_of_ok _ Hq).
  exists (changed s (r, c, v) 1).
  split.
  { unfold insert_number_at. apply change_state_at_ok; auto.
    apply (Inv_count_zero ps s _ HI Hin). }
  split.
  - apply inserted_ext; [apply wf_changed, Hwf | apply Hwf |].
    intros y Hy. rewrite flag_at_changed by (try apply Hwf; assumption).
    cbn [cell_of]. destruct (cell_eqb (r, c) y) eqn:E; [| reflexivity].
    apply cell_eqb_true in E. subst y. rewrite Hflag by assumption.
    rewrite (proj2 (occupied_true ps (r, c))); [reflexivity |].
    apply list_elem_of_In. apply (in_map cell_of ps (r, c, v)).
    apply list_elem_of_In, Hin.
  - rewrite ninserted_changed, Hn.
    rewrite wrap_small; [reflexivity | apply is_int_small; lia].
Qed.

Lemma recommit_is_not_rejected_witness :
  reachable [(0, 0, 4)] one_clue /\ (0, 0, 4) ∈ [(0, 0, 4)] /\
  exists s',
    insert_number_at one_clue 0 0 4 = Ok s' /\
    inserted s' = inserted one_clue /\
    ninserted s' = ninserted one_clue + 1.
Proof.
  assert (Hin : (0, 0, 4) ∈ [(0, 0, 4)]) by apply list_elem_of_here.
  split; [exact reachable_one_clue |]. split; [exact Hin |].
  exact (recommit_is_not_rejected _ one_clue 0 0 4 reachable_one_clue Hin).
Defined.

(** ** The empty puzzle, full grids and dead ends *)

Lemma filter_all_true {A : Type} (f : A -> bool) (l : list A) :
  (forall a, a ∈ l -> f a = true) -> List.filter f l = l.
Proof.
  induction l as [| a l IH]; intros H; [reflexivity |].
  cbn [List.filter]. rewrite (H a) by apply list_elem_of_here.
  f_equal. apply IH. intros b Hb. apply H, list_elem_of_further, Hb.
Qed.

Lemma candidates_zero_sudoku x : cell_ok x -> candidates zero_sudoku x = range N.
Proof.
  intros Hx. unfold candidates. apply filter_all_true. intros n Hn.
  apply elem_of_range in Hn. apply Z.eqb_eq.
  destruct Inv_zero_sudoku as (_ & _ & _ & Hcnt & _).
  rewrite Hcnt; [reflexivity |]. destruct x as [i j]. unfold cell_ok in Hx.
  unfold slot_ok. cbn [fst snd]. tauto.
Qed.

(** X5. [new_sudoku] turns a block of memory of the right size, whatever
    it holds, into the empty puzzle: no cell is committed, both counters
    are 0 and every cell has the nine candidates 0..8. *)
Theorem new_sudoku_resets s0 :
  shape s0 ->
  exists s,
    new_sudoku s0 = Ok s /\ reachable [] s /\
    ninserted s = 0 /\ nbacktracks s = 0 /\
    forall r c buf, 0 <= r < N -> 0 <= c < N -> length buf = Z.to_nat N ->
      get_inserted s r c = Ok 0 /\
      get_possibilities_at s r c buf = Ok (range N, N).
Proof.
  intros Hs. exists zero_sudoku.
  pose proof (new_sudoku_ok s0 Hs) as E.
  split; [exact E |]. split; [exact (reach_new s0 zero_sudoku Hs E) |].
  split; [reflexivity |]. split; [reflexivity |].
  intros r c buf Hr Hc Hb.
  assert (Hx : cell_ok (r, c)) by (unfold cell_ok; auto).
  destruct Inv_zero_sudoku as (Hwf & _ & _ & _ & Hflag & _).
  split.
  - rewrite get_inserted_ok; [| apply Hwf | assumption].
    rewrite Hflag by assumption. reflexivity.
  - rewrite get_possibilities_at_ok; [| apply Hwf | assumption | assumption].
    unfold poss_count, filled. rewrite candidates_zero_sudoku by assumption.
    assert (Hl : length (range N) = Z.to_nat N) by reflexivity.
    rewrite Hl, <- Hb, drop_all, app_nil_r. rewrite Hb. reflexivity.
Qed.

Lemma new_sudoku_resets_witness :
  shape garbage /\
  exists s,
    new_sudoku garbage = Ok s /\ reachable [] s /\
    ninserted s = 0 /\ nbacktracks s = 0 /\
    forall r c buf, 0 <= r < N -> 0 <= c < N -> length buf = Z.to_nat N ->
      get_inserted s r c = Ok 0 /\
      get_possibilities_at s r c buf = Ok (range N, N).
Proof.
  assert (H : shape garbage) by (split; reflexivity).
  split; [exact H | exact (new_sudoku_resets garbage H)].
Defined.

(** X6. When every cell is committed the scan of
    [get_most_constrained_cell] never assigns [*row] and [*col]; line 156
    then indexes the arrays with two indeterminate values. *)
Theorem no_free_cell_is_undefined s buf :
  shape s -> length buf = Z.to_nat N ->
  (forall i j, 0 <= i < N -> 0 <= j < N ->
     exists x, get_inserted s i j = Ok x /\ x <> 0) ->
  get_most_constrained_cell s buf = Undefined.
Proof.
  intros Hs Hb Hfull. unfold get_most_constrained_cell.
  destruct (scan_all_ok s buf Hs Hb) as [E _]. rewrite E. clear E.
  pose proof (scan_inv_all s buf) as Hinv.
  destruct (scan_all s buf) as [[sel b] m]. cbn [bind].
  destruct sel as [x |]; [| reflexivity]. exfalso.
  cbn [scan_inv] in Hinv. destruct Hinv as (l1 & l2 & Hall & Hflag & _).
  assert (Hx : cell_ok x).
  { apply all_cells_ok. rewrite Hall. apply elem_of_app. right.
    apply list_elem_of_here. }
  destruct x as [i j]. destruct (Hfull i j) as (y & Hy & Hne); try apply Hx.
  apply get_inserted_flag in Hy; [| assumption]. destruct Hy as [_ Hy]. congruence.
Qed.

Lemma inserted_is_true s x i j :
  inserted_is s x i j = true -> get_inserted s i j = Ok x.
Proof.
  unfold inserted_is. destruct (get_inserted s i j) as [y | | |]; try discriminate.
  intros H. apply Z.eqb_eq in H. congruence.
Qed.

Lemma no_free_cell_is_undefined_witness :
  shape nearly_done_solved /\ length malloc_buffer = Z.to_nat N /\
  (forall i j, 0 <= i < N -> 0 <= j < N ->
     exists x, get_inserted nearly_done_solved i j = Ok x /\ x <> 0) /\
  get_most_constrained_cell nearly_done_solved malloc_buffer = Undefined.
Proof.
  assert (H1 : shape nearly_done_solved) by (split; vm_compute; reflexivity).
  assert (H2 : length malloc_buffer = Z.to_nat N) by reflexivity.
  assert (H3 : forall i j, 0 <= i < N -> 0 <= j < N ->
             exists x, get_inserted nearly_done_solved i j = Ok x /\ x <> 0).
  { intros i j Hi Hj. exists 1. split; [| discriminate].
    apply inserted_is_true.
    assert (Hall : forall2 (inserted_is nearly_done_solved 1) = true)
      by (vm_compute; reflexivity).
    exact (forall2_true _ Hall i j (conj Hi Hj)). }
  split; [exact H1 |]. split; [exact H2 |]. split; [exact H3 |].
  exact (no_free_cell_is_undefined nearly_done_solved malloc_buffer H1 H2 H3).
Defined.

Lemma Inv_free_not_full ps s x :
  Inv ps s -> cell_ok x -> flag_at s x = 0 -> (length ps < 81)%nat.
Proof.
  intros HI Hx Hf. pose proof (Inv_length ps s HI) as Hle.
  pose proof (Inv_flag_free ps s x HI Hx Hf) as Hocc.
  destruct (Nat.eq_dec (length ps) 81%nat) as [E |]; [| lia]. exfalso.
  destruct HI as (_ & Hok & Hnd & _).
  pose proof (cells_full ps x Hok Hnd E Hx) as Hin.
  apply occupied_true in Hin. congruence.
Qed.

(** X7. A dead end is noticed wherever it is: as soon as one uncommitted
    cell has no candidate left, [solve] answers 0 without committing
    anything and without recursing (any depth budget will do), and only
    counts one more backtrack. *)
Theorem dead_end_fails_at_once ps s r c b d :
  reachable ps s ->
  get_inserted s r c = Ok 0 ->
  get_possibilities_at s r c malloc_buffer = Ok (b, 0) ->
  solve d s = Ok (0, with_nbacktracks s (wrap (nbacktracks s + 1))).
Proof.
  intros Hr Hf Hp. pose proof (reachable_Inv ps s Hr) as HI.
  pose proof HI as (Hwf & _ & _ & _ & _ & Hn & _).
  destruct (get_inserted_flag s r c 0 (proj1 Hwf) Hf) as [Hx Hflag].
  rewrite get_possibilities_at_ok in Hp; [| apply Hwf | assumption | reflexivity].
  assert (Hz : poss_count s (r, c) = 0) by congruence.
  pose proof (Inv_free_not_full ps s (r, c) HI Hx Hflag) as Hlt.
  rewrite solve_unfold.
  destruct (Z.eqb_spec (ninserted s) (N * N)) as [E | _].
  { rewrite Hn in E. unfold N, SQRT_N in E. lia. }
  destruct (get_most_constrained_cell_ok s malloc_buffer (proj1 Hwf) eq_refl)
    as (x & buf' & E & _ & Hxok & Hxf & Hmin).
  { exists (r, c). auto. }
  rewrite E. cbn [bind].
  destruct (Hmin (r, c) Hx Hflag) as [Hle _].
  pose proof (poss_count_bounds s x) as Hb.
  assert (E0 : poss_count s x = 0) by lia.
  rewrite E0. reflexivity.
Qed.

Lemma reachable_dead_end : reachable dead_end_clues dead_end.
Proof.
  apply reachable_by_commits_reachable, reachable_commit_all.
  vm_compute. reflexivity.
Defined.

Lemma dead_end_fails_at_once_witness :
  reachable dead_end_clues dead_end /\
  get_inserted dead_end 0 8 = Ok 0 /\
  get_possibilities_at dead_end 0 8 malloc_buffer = Ok (malloc_buffer, 0) /\
  solve 0 dead_end =
    Ok (0, with_nbacktracks dead_end (wrap (nbacktracks dead_end + 1))).
Proof.
  assert (H1 : get_inserted dead_end 0 8 = Ok 0) by (vm_compute; reflexivity).
  assert (H2 : get_possibilities_at dead_end 0 8 malloc_buffer = Ok (malloc_buffer, 0))
    by (vm_compute; reflexivity).
  split; [exact reachable_dead_end |]. split; [exact H1 |]. split; [exact H2 |].
  exact (dead_end_fails_at_once dead_end_clues dead_end 0 8 malloc_buffer 0%nat
           reachable_dead_end H1 H2).
Defined.

(** ** What the counts and the candidate lists say about the peers *)

Lemma StronglySorted_filter {A : Type} (R : A -> A -> Prop) (f : A -> bool) l :
  StronglySorted R l -> StronglySorted R (List.filter f l).
Proof.
  induction 1 as [| a l Hs IH Hall]; [constructor |].
  cbn [List.filter]. destruct (f a); [| exact IH].
  constructor; [exact IH |].
  rewrite Forall_forall in *. intros x Hx. apply Hall.
  apply list_elem_of_In in Hx. apply filter_In in Hx.
  apply list_elem_of_In. tauto.
Qed.

Lemma StronglySorted_range : StronglySorted Z.lt (range N).
Proof.
  change (range N) with [0; 1; 2; 3; 4; 5; 6; 7; 8].
  repeat (constructor; [| repeat (constructor; [lia |]); constructor]).
  constructor.
Qed.

Lemma StronglySorted_candidates s x : StronglySorted Z.lt (candidates s x).
Proof. apply StronglySorted_filter, StronglySorted_range. Qed.

(** X8. The contract of [get_possibilities_at] on any state: it returns
    how many numbers have count 0 at the cell and writes them in
    ascending order at the start of the buffer, leaving the rest of the
    buffer as it was. *)
Theorem get_possibilities_at_contract s r c buf :
  shape s -> 0 <= r < N -> 0 <= c < N -> length buf = Z.to_nat N ->
  exists l,
    get_possibilities_at s r c buf = Ok (l ++ drop (length l) buf, Z.of_nat (length l)) /\
    StronglySorted Z.lt l /\
    forall n, n ∈ l <-> 0 <= n < N /\ get_constraint s r c n = Ok 0.
Proof.
  intros Hs Hr Hc Hb. exists (candidates s (r, c)).
  assert (Hx : cell_ok (r, c)) by (unfold cell_ok; auto).
  split; [apply (get_possibilities_at_ok s r c buf Hs Hx Hb) |].
  split; [apply StronglySorted_candidates |].
  intros n. rewrite elem_of_candidates. cbn [fst snd]. split.
  - intros [Hn Hz]. split; [assumption |].
    rewrite get_constraint_ok; [| assumption | unfold slot_ok; auto].
    rewrite Hz. reflexivity.
  - intros [Hn Hz]. split; [assumption |].
    apply (get_constraint_count s r c n 0 Hs Hz).
Qed.

Lemma get_possibilities_at_contract_witness :
  shape one_clue /\ 0 <= 0 < N /\ 0 <= 1 < N /\
  length malloc_buffer = Z.to_nat N /\
  exists l,
    get_possibilities_at one_clue 0 1 malloc_buffer =
      Ok (l ++ drop (length l) malloc_buffer, Z.of_nat (length l)) /\
    StronglySorted Z.lt l /\
    forall n, n ∈ l <-> 0 <= n < N /\ get_constraint one_clue 0 1 n = Ok 0.
Proof.
  assert (H : shape one_clue) by (split; vm_compute; reflexivity).
  assert (H0 : 0 <= 0 < N) by (unfold N, SQRT_N; lia).
  assert (H1 : 0 <= 1 < N) by (unfold N, SQRT_N; lia).
  split; [exact H |]. split; [exact H0 |]. split; [exact H1 |].
  split; [reflexivity |].
  exact (get_possibilities_at_contract one_clue 0 1 malloc_buffer H H0 H1 eq_refl).
Defined.

Lemma contrib_zero_other p q :
  cell_of p <> cell_of q ->
  contrib p q = 0 <->
  ~ (peers (cell_of p) (cell_of q) = true /\ number_of p = number_of q).
Proof.
  destruct p as [[r0 c0] v0], q as [[r c] v]. cbn [cell_of number_of]. intros Hne.
  unfold contrib, peers, shared_groups. cbn [fst snd].
  destruct (cell_eqb (r0, c0) (r, c)) eqn:E.
  { apply cell_eqb_true in E. contradiction. }
  cbn [negb andb].
  destruct (Z.eqb_spec v0 v) as [Ev | Ev].
  - destruct (r0 =? r), (c0 =? c), (same_box (r0, c0) (r, c)); cbn;
      split; intros H; try lia; try (exfalso; apply H; auto; fail);
      try (intros [H1 _]; discriminate).
  - split; [intros _ [_ H]; contradiction | reflexivity].
Qed.

(** X9. On an uncommitted cell of a reachable state the candidates that
    [get_possibilities_at] returns are exactly the numbers that no
    committed cell of the same row, column or box holds. *)
Theorem possibilities_are_numbers_free_of_peers ps s r c buf :
  reachable ps s -> get_inserted s r c = Ok 0 -> length buf = Z.to_nat N ->
  exists l,
    get_possibilities_at s r c buf = Ok (l ++ drop (length l) buf, Z.of_nat (length l)) /\
    forall v, v ∈ l <->
      0 <= v < N /\
      forall p, p ∈ ps -> peers (cell_of p) (r, c) = true -> number_of p <> v.
Proof.
  intros Hr Hf Hb. pose proof (reachable_Inv ps s Hr) as HI.
  pose proof HI as (Hwf & _).
  destruct (get_inserted_flag s r c 0 (proj1 Hwf) Hf) as [Hx Hflag].
  pose proof (Inv_flag_free ps s (r, c) HI Hx Hflag) as Hocc.
  apply occupied_false in Hocc.
  exists (candidates s (r, c)).
  split; [apply (get_possibilities_at_ok s r c buf (proj1 Hwf) Hx Hb) |].
  intros v. rewrite (Inv_candidates ps s (r, c) v HI Hx). cbn [fst snd].
  rewrite weight_zero.
  assert (Hne : forall p, p ∈ ps -> cell_of p <> cell_of (r, c, v)).
  { intros p Hp E. apply Hocc. cbn [cell_of] in E. rewrite <- E.
    apply list_elem_of_In, in_map, list_elem_of_In, Hp. }
  split.
  - intros [Hv Hz]. split; [assumption |]. intros p Hp Hpeer Hnum.
    apply (proj1 (contrib_zero_other p (r, c, v) (Hne p Hp)) (Hz p Hp)).
    split; assumption.
  - intros [Hv Hno]. split; [assumption |]. intros p Hp.
    apply (contrib_zero_other p (r, c, v) (Hne p Hp)).
    intros [Hpeer Hnum]. apply (Hno p Hp Hpeer Hnum).
Qed.

Lemma possibilities_are_numbers_free_of_peers_witness :
  reachable [(0, 0, 4)] one_clue /\ get_inserted one_clue 0 1 = Ok 0 /\
  length malloc_buffer = Z.to_nat N /\
  exists l,
    get_possibilities_at one_clue 0 1 malloc_buffer =
      Ok (l ++ drop (length l) malloc_buffer, Z.of_nat (length l)) /\
    forall v, v ∈ l <->
      0 <= v < N /\
      forall p, p ∈ [(0, 0, 4)] -> peers (cell_of p) (0, 1) = true -> number_of p <> v.
Proof.
  assert (H : get_inserted one_clue 0 1 = Ok 0) by (vm_compute; reflexivity).
  split; [exact reachable_one_clue |]. split; [exact H |]. split; [reflexivity |].
  exact (possibilities_are_numbers_free_of_peers _ one_clue 0 1 malloc_buffer
           reachable_one_clue H eq_refl).
Defined.

Lemma contrib_split p q :
  contrib p q =
  Z.b2z (blocks_cell q p) + Z.b2z (blocks_row q p) +
  Z.b2z (blocks_col q p) + Z.b2z (blocks_box q p).
Proof.
  destruct p as [[r0 c0] v0], q as [[r c] v].
  unfold contrib, blocks_cell, blocks_row, blocks_col, blocks_box, shared_groups.
  cbn [cell_of number_of fst snd].
  destruct (cell_eqb (r0, c0) (r, c)), (v0 =? v), (r0 =? r), (c0 =? c),
    (same_box (r0, c0) (r, c)); reflexivity.
Qed.

Lemma weight_split ps q :
  weight ps q =
  tally (blocks_cell q) ps + tally (blocks_row q) ps +
  tally (blocks_col q) ps + tally (blocks_box q) ps.
Proof.
  induction ps as [| p ps IH]; [reflexivity |].
  cbn [weight tally]. rewrite IH, contrib_split. lia.
Qed.

Lemma tally_nonneg f ps : 0 <= tally f ps.
Proof.
  induction ps as [| p ps IH]; cbn [tally]; [lia |].
  destruct (f p); cbn [Z.b2z]; lia.
Qed.

Lemma tally_none f ps : (forall p, p ∈ ps -> f p = false) -> tally f ps = 0.
Proof.
  induction ps as [| p ps IH]; intros H; [reflexivity |].
  cbn [tally]. rewrite (H p) by apply list_elem_of_here.
  rewrite IH; [reflexivity |]. intros p' Hp'. apply H, list_elem_of_further, Hp'.
Qed.

Lemma tally_at_most_one f ps :
  NoDup (map cell_of ps) ->
  (forall p1 p2, p1 ∈ ps -> p2 ∈ ps -> f p1 = true -> f p2 = true ->
     cell_of p1 = cell_of p2) ->
  tally f ps <= 1.
Proof.
  induction ps as [| p ps IH]; intros Hnd H; [cbn; lia |].
  cbn [map] in Hnd. apply NoDup_cons in Hnd. destruct Hnd as [Hnot Hnd].
  cbn [tally]. destruct (f p) eqn:Ep; cbn [Z.b2z].
  - rewrite tally_none; [lia |]. intros p' Hp'.
    destruct (f p') eqn:Ep'; [| reflexivity]. exfalso. apply Hnot.
    rewrite (H p p'); auto using list_elem_of_here, list_elem_of_further.
    apply list_elem_of_In, in_map, list_elem_of_In, Hp'.
  - pose proof (IH Hnd) as IH'. cut (tally f ps <= 1); [lia |]. apply IH'.
    intros p1 p2 H1 H2. apply H; apply list_elem_of_further; assumption.
Qed.

Lemma same_group_one_cell ps s q (f : slot -> bool) :
  Inv ps s ->
  (forall p, f p = true -> number_of p = number_of q) ->
  (forall p1 p2, f p1 = true -> f p2 = true -> cell_of p1 <> cell_of p2 ->
     peers (cell_of p1) (cell_of p2) = true) ->
  tally f ps <= 1.
Proof.
  intros HI Hnum Hpeer. pose proof HI as (_ & _ & Hnd & _).
  apply tally_at_most_one; [assumption |].
  intros p1 p2 H1 H2 F1 F2.
  destruct (cell_eqb (cell_of p1) (cell_of p2)) eqn:E.
  { apply cell_eqb_true, E. }
  exfalso. apply (Inv_no_clash ps s p2 p1 HI H2 H1).
  - apply Hpeer; [assumption | assumption |].
    intros E'. apply cell_eqb_true in E'. congruence.
  - rewrite (Hnum p1 F1), (Hnum p2 F2). reflexivity.
Qed.

Lemma Inv_weight_le_4 ps s q :
  Inv ps s ->
  weight ps q <= 4 /\ (occupied ps (cell_of q) = false -> weight ps q <= 3).
Proof.
  intros HI. pose proof HI as (_ & _ & Hnd & _). rewrite weight_split.
  assert (Hc : tally (blocks_cell q) ps <= 1).
  { apply tally_at_most_one; [assumption |].
    intros p1 p2 _ _ F1 F2. unfold blocks_cell in F1, F2.
    apply andb_true_iff in F1, F2. destruct F1 as [F1 _], F2 as [F2 _].
    apply cell_eqb_true in F1, F2. congruence. }
  assert (Hr : tally (blocks_row q) ps <= 1).
  { apply (same_group_one_cell ps s q); [assumption | |].
    - intros p F. unfold blocks_row in F. rewrite !andb_true_iff in F.
      apply Z.eqb_eq. tauto.
    - intros p1 p2 F1 F2 Hne. unfold blocks_row in F1, F2.
      rewrite !andb_true_iff, !Z.eqb_eq in F1, F2. unfold peers.
      apply andb_true_iff. split.
      + apply negb_true_iff. destruct (cell_eqb (cell_of p1) (cell_of p2)) eqn:E;
          [apply cell_eqb_true in E; contradiction | reflexivity].
      + apply orb_true_iff. left. apply orb_true_iff. left. apply Z.eqb_eq.
        destruct F1 as [_ F1], F2 as [_ F2]. congruence. }
  assert (Hcol : tally (blocks_col q) ps <= 1).
  { apply (same_group_one_cell ps s q); [assumption | |].
    - intros p F. unfold blocks_col in F. rewrite !andb_true_iff in F.
      apply Z.eqb_eq. tauto.
    - intros p1 p2 F1 F2 Hne. unfold blocks_col in F1, F2.
      rewrite !andb_true_iff, !Z.eqb_eq in F1, F2. unfold peers.
      apply andb_true_iff. split.
      + apply negb_true_iff. destruct (cell_eqb (cell_of p1) (cell_of p2)) eqn:E;
          [apply cell_eqb_true in E; contradiction | reflexivity].
      + apply orb_true_iff. left. apply orb_true_iff. right. apply Z.eqb_eq.
        destruct F1 as [_ F1], F2 as [_ F2]. congruence. }
  assert (Hb : tally (blocks_box q) ps <= 1).
  { apply (same_group_one_cell ps s q); [assumption | |].
    - intros p F. unfold blocks_box in F. rewrite !andb_true_iff in F.
      apply Z.eqb_eq. tauto.
    - intros p1 p2 F1 F2 Hne. unfold blocks_box in F1, F2.
      rewrite !andb_true_iff in F1, F2. unfold peers.
      apply andb_true_iff. split.
      + apply negb_true_iff. destruct (cell_eqb (cell_of p1) (cell_of p2)) eqn:E;
          [apply cell_eqb_true in E; contradiction | reflexivity].
      + apply orb_true_iff. right.
        destruct F1 as [_ F1], F2 as [_ F2]. unfold same_box in *.
        rewrite !andb_true_iff, !Z.eqb_eq in *.
        destruct F1 as [A1 B1], F2 as [A2 B2]. split; congruence. }
  split; [lia |]. intros Hocc.
  rewrite (tally_none (blocks_cell q)); [lia |].
  intros p Hp. unfold blocks_cell.
  destruct (cell_eqb (cell_of p) (cell_of q)) eqn:E; [| reflexivity].
  exfalso. apply cell_eqb_true in E. apply occupied_false in Hocc. apply Hocc.
  rewrite <- E. apply list_elem_of_In, in_map, list_elem_of_In, Hp.
Qed.

(** X10. In a reachable state no count exceeds 4, and none exceeds 3 at
    an uncommitted cell: a number is blocked at most once by the cell
    itself and once each by its row, its column and its box.  The [+=]
    and [-=] of [change_state_at] therefore stay far from overflow. *)
Theorem counts_at_most_four ps s r c v :
  reachable ps s -> 0 <= r < N -> 0 <= c < N -> 0 <= v < N ->
  exists k,
    get_constraint s r c v = Ok k /\ 0 <= k <= 4 /\
    (get_inserted s r c = Ok 0 -> k <= 3).
Proof.
  intros Hr Hrb Hcb Hvb. pose proof (reachable_Inv ps s Hr) as HI.
  pose proof HI as (Hwf & _ & _ & Hcnt & _).
  assert (Hq : slot_ok (r, c, v)) by (unfold slot_ok; auto).
  exists (weight ps (r, c, v)).
  destruct (Inv_weight_le_4 ps s (r, c, v) HI) as [H4 H3].
  split; [| split].
  - rewrite get_constraint_ok; [| apply Hwf | assumption].
    rewrite Hcnt by assumption. reflexivity.
  - pose proof (weight_bounds ps (r, c, v)). lia.
  - intros Hf. apply H3. cbn [cell_of].
    destruct (get_inserted_flag s r c 0 (proj1 Hwf) Hf) as [Hx Hflag].
    apply (Inv_flag_free ps s (r, c) HI Hx Hflag).
Qed.

Lemma counts_at_most_four_witness :
  reachable [(0, 0, 4)] one_clue /\ 0 <= 0 < N /\ 0 <= 1 < N /\ 0 <= 4 < N /\
  exists k,
    get_constraint one_clue 0 1 4 = Ok k /\ 0 <= k <= 4 /\
    (get_inserted one_clue 0 1 = Ok 0 -> k <= 3).
Proof.
  assert (H0 : 0 <= 0 < N) by (unfold N, SQRT_N; lia).
  assert (H1 : 0 <= 1 < N) by (unfold N, SQRT_N; lia).
  assert (H4 : 0 <= 4 < N) by (unfold N, SQRT_N; lia).
  split; [exact reachable_one_clue |]. split; [exact H0 |]. split; [exact H1 |].
  split; [exact H4 |].
  exact (counts_at_most_four _ one_clue 0 1 4 reachable_one_clue H0 H1 H4).
Defined.

(** X11. What the assertions do not catch: retracting a number that
    was never committed.  On an uncommitted cell with candidate v,
    [remove_number_at] passes every assertion, [ninserted] drops by one
    and the count of every other number of the cell drops by one, below
    zero for those that were candidates. *)
Theorem retract_uncommitted_is_not_rejected ps s r c v :
  reachable ps s ->
  get_inserted s r c = Ok 0 -> 0 <= v < N -> get_constraint s r c v = Ok 0 ->
  exists s',
    remove_number_at s r c v = Ok s' /\
    ninserted s' = ninserted s - 1 /\
    forall w, 0 <= w < N -> w <> v ->
      exists k, get_constraint s r c w = Ok k /\
                get_constraint s' r c w = Ok (k - 1).
Proof.
  intros Hr Hf Hv Hz. pose proof (reachable_Inv ps s Hr) as HI.
  pose proof (Inv_length ps s HI) as Hlen.
  pose proof HI as (Hwf & _ & _ & Hcnt & _ & Hn & _).
  destruct (get_inserted_flag s r c 0 (proj1 Hwf) Hf) as [Hx _].
  assert (Hq : slot_ok (r, c, v)) by (unfold cell_ok in Hx; unfold slot_ok; tauto).
  destruct (get_constraint_count s r c v 0 (proj1 Hwf) Hz) as [_ Hc0].
  exists (changed s (r, c, v) (-1)). split; [| split].
  - unfold remove_number_at. apply change_state_at_ok; auto.
  - rewrite ninserted_changed, Hn.
    rewrite wrap_small; [lia | apply is_int_small; lia].
  - intros w Hw Hne.
    assert (Hqw : slot_ok (r, c, w)) by (unfold cell_ok in Hx; unfold slot_ok; tauto).
    exists (count_at s (r, c, w)). split.
    + apply get_constraint_ok; [apply Hwf | assumption].
    + rewrite get_constraint_ok; [| apply wf_changed, Hwf | assumption].
      rewrite count_at_changed by assumption.
      destruct (slot_eqb (r, c, v) (r, c, w)) eqn:E.
      { apply slot_eqb_true in E. congruence. }
      rewrite (contrib_same_cell (r, c, w) (r, c, v)) by (cbn; congruence).
      pose proof (weight_bounds ps (r, c, w)) as Hb. rewrite <- Hcnt in Hb by assumption.
      rewrite wrap_small; [f_equal; lia | apply is_int_small; lia].
Qed.

Lemma retract_uncommitted_is_not_rejected_witness :
  reachable [] zero_sudoku /\
  get_inserted zero_sudoku 0 0 = Ok 0 /\ 0 <= 4 < N /\
  get_constraint zero_sudoku 0 0 4 = Ok 0 /\
  exists s',
    remove_number_at zero_sudoku 0 0 4 = Ok s' /\
    ninserted s' = ninserted zero_sudoku - 1 /\
    forall w, 0 <= w < N -> w <> 4 ->
      exists k, get_constraint zero_sudoku 0 0 w = Ok k /\
                get_constraint s' 0 0 w = Ok (k - 1).
Proof.
  assert (H1 : get_inserted zero_sudoku 0 0 = Ok 0) by (vm_compute; reflexivity).
  assert (H2 : 0 <= 4 < N) by (unfold N, SQRT_N; lia).
  assert (H3 : get_constraint zero_sudoku 0 0 4 = Ok 0) by (vm_compute; reflexivity).
  split; [exact reachable_zero |]. split; [exact H1 |]. split; [exact H2 |].
  split; [exact H3 |].
  exact (retract_uncommitted_is_not_rejected [] zero_sudoku 0 0 4
           reachable_zero H1 H2 H3).
Defined.

(** X12. Which arguments [change_state_at] checks: a [type] other than
    1 and -1, or a number outside 0..8, fails an assertion before the
    state is touched; a row or a column outside the grid is not checked,
    and the first thing done with it is to index [constraints] outside its
    bounds. *)
Theorem change_state_at_checks_number_only s row col number type :
  (type <> 1 /\ type <> -1 ->
   change_state_at s row col number type = AssertFail) /\
  (~ 0 <= number < N ->
   change_state_at s row col number type = AssertFail) /\
  (type = 1 \/ type = -1 -> 0 <= number < N ->
   ~ (0 <= row < N /\ 0 <= col < N) ->
   change_state_at s row col number type = Undefined).
Proof.
  unfold change_state_at, change_state_sweeps. split; [| split].
  - intros [H1 H2].
    destruct (Z.eqb_spec type (-1)) as [E |]; [contradiction |].
    destruct (Z.eqb_spec type 1) as [E |]; [contradiction |]. reflexivity.
  - intros Hn.
    destruct ((type =? -1) || (type =? 1)); [| reflexivity]. cbn [assert bind].
    assert (E : (number >=? 0) && (number <? N) = false).
    { apply andb_false_iff. destruct (Z.geb_spec number 0); [| auto].
      right. apply Z.ltb_ge. lia. }
    rewrite E. reflexivity.
  - intros Ht Hn Hrc.
    assert (E1 : (type =? -1) || (type =? 1) = true).
    { destruct Ht as [-> | ->]; reflexivity. }
    assert (E2 : (number >=? 0) && (number <? N) = true).
    { rewrite andb_true_iff, Z.geb_le, Z.ltb_lt. lia. }
    rewrite E1, E2. cbn [assert bind]. unfold get_constraint, offset3.
    assert (E3 : in_bounds row && in_bounds col = false).
    { unfold in_bounds. apply andb_false_iff.
      destruct (Z.leb_spec 0 row), (Z.ltb_spec row N), (Z.leb_spec 0 col),
        (Z.ltb_spec col N); cbn [andb]; auto. exfalso. apply Hrc. lia. }
    rewrite E3. reflexivity.
Qed.

Lemma change_state_at_checks_number_only_witness :
  (2 <> 1 /\ 2 <> -1 -> change_state_at zero_sudoku 0 0 0 2 = AssertFail) /\
  (~ 0 <= 9 < N -> change_state_at zero_sudoku 0 0 9 1 = AssertFail) /\
  (1 = 1 \/ 1 = -1 -> 0 <= 0 < N -> ~ (0 <= 9 < N /\ 0 <= 0 < N) ->
   change_state_at zero_sudoku 9 0 0 1 = Undefined) /\
  change_state_at zero_sudoku 0 0 0 2 = AssertFail /\
  change_state_at zero_sudoku 0 0 9 1 = AssertFail /\
  change_state_at zero_sudoku 9 0 0 1 = Undefined.
Proof.
  pose proof (change_state_at_checks_number_only zero_sudoku 0 0 0 2) as (H1 & _ & _).
  pose proof (change_state_at_checks_number_only zero_sudoku 0 0 9 1) as (_ & H2 & _).
  pose proof (change_state_at_checks_number_only zero_sudoku 9 0 0 1) as (_ & _ & H3).
  split; [exact H1 |]. split; [exact H2 |]. split; [exact H3 |].
  split; [apply H1; lia |].
  split; [apply H2; unfold N, SQRT_N; lia |].
  apply H3; [left; reflexivity | unfold N, SQRT_N; lia | unfold N, SQRT_N; lia].
Defined.

Lemma row_major_inj x y :
  cell_ok x -> cell_ok y -> row_major x = row_major y -> x = y.
Proof.
  destruct x as [i j], y as [i' j']. unfold cell_ok, row_major, N, SQRT_N.
  cbn [fst snd]. intros Hx Hy H. f_equal; lia.
Qed.

(** X13. The content of the buffer handed to
    [get_most_constrained_cell] does not matter: the cell, the count and
    the candidates written at the start of the buffer are the same
    whatever the buffer held.  ([solve] and [print] hand it memory fresh
    from [malloc].) *)
Theorem most_constrained_cell_ignores_buffer_content s buf1 buf2 :
  shape s -> length buf1 = Z.to_nat N -> length buf2 = Z.to_nat N ->
  (exists r c, get_inserted s r c = Ok 0) ->
  exists row col n out1 out2,
    get_most_constrained_cell s buf1 = Ok (row, col, out1, n) /\
    get_most_constrained_cell s buf2 = Ok (row, col, out2, n) /\
    take (Z.to_nat n) out1 = take (Z.to_nat n) out2.
Proof.
  intros Hs H1 H2 (r & c & Hf).
  destruct (get_inserted_flag s r c 0 Hs Hf) as [Hx Hflag].
  destruct (get_most_constrained_cell_ok s buf1 Hs H1)
    as (x1 & b1 & E1 & _ & Hx1 & Hf1 & Hmin1); [exists (r, c); auto |].
  destruct (get_most_constrained_cell_ok s buf2 Hs H2)
    as (x2 & b2 & E2 & _ & Hx2 & Hf2 & Hmin2); [exists (r, c); auto |].
  assert (Ex : x2 = x1).
  { destruct (Hmin1 x2 Hx2 Hf2) as [Hle1 Htie1].
    destruct (Hmin2 x1 Hx1 Hf1) as [Hle2 Htie2].
    apply row_major_inj; try assumption.
    assert (Hpc : poss_count s x2 = poss_count s x1) by lia.
    specialize (Htie1 Hpc). specialize (Htie2 (eq_sym Hpc)). lia. }
  subst x2.
  exists (fst x1), (snd x1), (poss_count s x1),
    (filled b1 (candidates s x1)), (filled b2 (candidates s x1)).
  split; [exact E1 |]. split; [exact E2 |].
  unfold poss_count. rewrite Nat2Z.id, !take_filled. reflexivity.
Qed.

Lemma most_constrained_cell_ignores_buffer_content_witness :
  shape one_clue /\ length malloc_buffer = Z.to_nat N /\
  length (range N) = Z.to_nat N /\
  (exists r c, get_inserted one_clue r c = Ok 0) /\
  exists row col n out1 out2,
    get_most_constrained_cell one_clue malloc_buffer = Ok (row, col, out1, n) /\
    get_most_constrained_cell one_clue (range N) = Ok (row, col, out2, n) /\
    take (Z.to_nat n) out1 = take (Z.to_nat n) out2.
Proof.
  assert (H : shape one_clue) by (split; vm_compute; reflexivity).
  assert (Hf : exists r c, get_inserted one_clue r c = Ok 0)
    by (exists 0, 1; vm_compute; reflexivity).
  split; [exact H |]. split; [reflexivity |]. split; [reflexivity |].
  split; [exact Hf |].
  exact (most_constrained_cell_ignores_buffer_content one_clue malloc_buffer (range N)
           H eq_refl eq_refl Hf).
Defined.

(* ================================================================== *)
(** ** What [read_input] reads

    In the linear format cell [(i, j)] is the character at position
    [9 i + j] of the input, in the grid format the one at [10 i + j]. *)

(** *** Characters *)

Lemma Z_of_byte_bounds b : 0 <= Z_of_byte b < 256.
Proof.
  unfold Z_of_byte. pose proof (Byte.to_N_bounded b). lia.
Qed.

Lemma digit_to_char sc b :
  (to_char sc (Z_of_byte b) >=? 49) && (to_char sc (Z_of_byte b) <=? 57) =
  (49 <=? Z_of_byte b) && (Z_of_byte b <=? 57).
Proof. destruct sc, b; reflexivity. Qed.

Lemma digit_to_char_eq sc b :
  (49 <=? Z_of_byte b) && (Z_of_byte b <=? 57) = true ->
  to_char sc (Z_of_byte b) = Z_of_byte b.
Proof. destruct sc, b; vm_compute; intros H; congruence. Qed.

Lemma to_char_EOF sc :
  to_char sc EOF = (if sc then EOF else 255).
Proof. destruct sc; reflexivity. Qed.

(** *** The stream *)

Lemma stream_at_0 bytes : stream_at bytes 0 = mk_stream bytes false.
Proof.
  unfold stream_at. cbn [Z.to_nat drop]. f_equal. apply Z.ltb_ge. lia.
Qed.

Lemma getchar_stream_at bytes k :
  0 <= k -> getchar (stream_at bytes k) = (char_at bytes k, stream_at bytes (k + 1)).
Proof.
  intros Hk. unfold getchar, stream_at, char_at. cbn [pending eof_flag].
  replace (Z.to_nat (k + 1)) with (S (Z.to_nat k)) by lia.
  destruct (bytes !! Z.to_nat k) as [b |] eqn:E.
  - rewrite (drop_S _ _ _ E). pose proof (lookup_lt_Some _ _ _ E) as Hlt.
    f_equal. f_equal.
    rewrite (proj2 (Z.ltb_ge _ _)) by lia. symmetry. apply Z.ltb_ge. lia.
  - pose proof (lookup_ge_None_1 _ _ E) as Hge.
    rewrite !drop_ge by lia. f_equal. f_equal. symmetry. apply Z.ltb_lt. lia.
Qed.

Lemma stream_at_exhausted bytes k k' :
  Z.of_nat (length bytes) < k -> k <= k' -> stream_at bytes k = stream_at bytes k'.
Proof.
  intros H H'. unfold stream_at. rewrite !drop_ge by lia.
  f_equal. rewrite (proj2 (Z.ltb_lt _ _)) by lia. symmetry. apply Z.ltb_lt. lia.
Qed.

Lemma char_at_beyond bytes k :
  Z.of_nat (length bytes) <= k -> char_at bytes k = EOF.
Proof.
  intros H. unfold char_at. rewrite lookup_ge_None_2 by lia. reflexivity.
Qed.

Lemma char_at_EOF bytes k :
  0 <= k -> char_at bytes k = EOF -> Z.of_nat (length bytes) <= k.
Proof.
  intros Hk. unfold char_at. destruct (bytes !! Z.to_nat k) as [b |] eqn:E.
  - pose proof (Z_of_byte_bounds b). unfold EOF. lia.
  - intros _. pose proof (lookup_ge_None_1 _ _ E). lia.
Qed.

(** *** Clues *)

Lemma add_clue_beyond width bytes ps x :
  Z.of_nat (length bytes) <= fst x * width + snd x ->
  add_clue width bytes ps x = ps.
Proof.
  intros H. unfold add_clue, clue_at. rewrite char_at_beyond by assumption.
  reflexivity.
Qed.

Lemma foldl_add_clue_beyond width bytes cells : forall ps,
  (forall x, x ∈ cells -> Z.of_nat (length bytes) <= fst x * width + snd x) ->
  foldl (add_clue width bytes) ps cells = ps.
Proof.
  induction cells as [| x cells IH]; intros ps H; [reflexivity |].
  cbn [foldl]. rewrite add_clue_beyond by (apply H, list_elem_of_here).
  apply IH. intros y Hy. apply H, list_elem_of_further, Hy.
Qed.

Lemma clues_ok_tail p ps : clues_ok (p :: ps) = true -> clues_ok ps = true.
Proof.
  cbn [clues_ok]. rewrite !andb_true_iff. tauto.
Qed.

Lemma clues_ok_add_clue width bytes ps x :
  clues_ok (add_clue width bytes ps x) = true -> clues_ok ps = true.
Proof.
  unfold add_clue. destruct (clue_at width bytes x); [apply clues_ok_tail | auto].
Qed.

Lemma clues_ok_foldl width bytes cells : forall ps,
  clues_ok (foldl (add_clue width bytes) ps cells) = true -> clues_ok ps = true.
Proof.
  induction cells as [| x cells IH]; intros ps H; [exact H |].
  cbn [foldl] in H. apply IH in H. apply (clues_ok_add_clue _ _ _ _ H).
Qed.

Lemma elem_of_add_clue width bytes ps x p :
  p ∈ add_clue width bytes ps x <-> p ∈ ps \/ clue_at width bytes x = Some p.
Proof.
  unfold add_clue. destruct (clue_at width bytes x) as [p' |]; cbn [option_list option_rect app].
  - rewrite elem_of_cons. split.
    + intros [-> | H]; auto.
    + intros [H | H]; [auto | left; congruence].
  - split; [auto | intros [H | H]; [auto | discriminate]].
Qed.

Lemma elem_of_foldl_add_clue width bytes cells : forall ps p,
  p ∈ foldl (add_clue width bytes) ps cells <->
  p ∈ ps \/ exists x, x ∈ cells /\ clue_at width bytes x = Some p.
Proof.
  induction cells as [| x cells IH]; intros ps p; cbn [foldl].
  - split; [auto |]. intros [H | (x & Hx & _)]; [auto |].
    apply elem_of_nil in Hx. contradiction.
  - rewrite IH, elem_of_add_clue. split.
    + intros [[H | H] | (y & Hy & H)]; [auto | |].
      * right. exists x. split; [apply list_elem_of_here | assumption].
      * right. exists y. split; [apply list_elem_of_further, Hy | assumption].
    + intros [H | (y & Hy & H)]; [auto |].
      apply elem_of_cons in Hy. destruct Hy as [-> | Hy]; [auto |].
      right. exists y. auto.
Qed.

Lemma clue_at_cell width bytes x p : clue_at width bytes x = Some p -> cell_of p = x.
Proof.
  unfold clue_at.
  destruct ((49 <=? _) && (_ <=? 57)); [| discriminate].
  intros H. injection H as <-. destruct x. reflexivity.
Qed.

Lemma Inv_commit_all ps : clues_ok ps = true -> Inv ps (commit_all ps).
Proof.
  intros H. apply reachable_Inv, reachable_by_commits_reachable.
  apply reachable_commit_all, H.
Qed.

Lemma insert_commit_all r c v ps :
  clues_ok ((r, c, v) :: ps) = true ->
  insert_number_at (commit_all ps) r c v = Ok (commit_all ((r, c, v) :: ps)).
Proof.
  intros Hok. pose proof (clues_ok_tail _ _ Hok) as Hps.
  pose proof (Inv_commit_all ps Hps) as HI.
  cbn [clues_ok] in Hok. rewrite !andb_true_iff in Hok.
  destruct Hok as [[[Hq Hfree] Hw] _].
  apply slot_okb_true in Hq. apply negb_true_iff in Hfree. apply Z.eqb_eq in Hw.
  pose proof HI as (Hwf & _ & _ & Hcnt & Hflag & _).
  assert (Hx : cell_ok (r, c)) by apply (cell_of_ok _ Hq).
  unfold insert_number_at. apply change_state_at_ok; auto.
  rewrite Hcnt by assumption. exact Hw.
Qed.

Lemma insert_blocked ps s r c v :
  Inv ps s -> slot_ok (r, c, v) -> weight ps (r, c, v) <> 0 ->
  insert_number_at s r c v = AssertFail.
Proof.
  intros HI Hp Hw. pose proof HI as (Hwf & _ & _ & Hcnt & _).
  unfold insert_number_at, change_state_at, change_state_sweeps.
  cbn [Z.eqb orb assert bind].
  assert (Ha : (v >=? 0) && (v <? N) = true).
  { destruct Hp as (_ & _ & Hv). rewrite andb_true_iff, Z.geb_le, Z.ltb_lt. lia. }
  rewrite Ha. cbn [assert bind].
  rewrite get_constraint_ok; [| apply Hwf | assumption]. cbn [bind].
  rewrite Hcnt by assumption.
  destruct (Z.eqb_spec (weight ps (r, c, v)) 0) as [E |]; [contradiction |].
  reflexivity.
Qed.

(** *** The loops of [read_input] *)

Section ReadInput.

Variable signed_char : bool.

Variable intype : Z.

Variable bytes : list byte.

Hypothesis intype_ok : intype = LINEAR_INPUT \/ intype = GRID_INPUT.

Hypothesis bytes_ok : Forall (fun b => eof_like signed_char b = false) bytes.

Lemma stride_bounds : N <= stride intype <= N + 1.
Proof.
  unfold stride. destruct (intype =? GRID_INPUT); unfold N, SQRT_N; lia.
Qed.

Lemma fresh_not_occupied ps i j :
  (forall p, p ∈ ps -> row_major (cell_of p) < i * N + j) ->
  occupied ps (i, j) = false.
Proof.
  intros H. apply occupied_false. intros Hin.
  apply list_elem_of_In, in_map_iff in Hin. destruct Hin as (p & E & Hp).
  apply list_elem_of_In in Hp. specialize (H p Hp). rewrite E in H.
  unfold row_major in H. cbn [fst snd] in H. lia.
Qed.

Lemma read_cell_step i j ps :
  0 <= i < N -> 0 <= j < N ->
  clues_ok ps = true -> occupied ps (i, j) = false ->
  read_cell signed_char i j
    (commit_all ps, stream_at bytes (i * stride intype + j)) =
  if clues_ok (add_clue (stride intype) bytes ps (i, j)) then
    if (char_at bytes (i * stride intype + j) =? EOF) && signed_char
    then Ok (Return (commit_all (add_clue (stride intype) bytes ps (i, j)),
                     stream_at bytes (i * stride intype + j + 1)))
    else Ok (Next (commit_all (add_clue (stride intype) bytes ps (i, j)),
                   stream_at bytes (i * stride intype + j + 1)))
  else AssertFail.
Proof.
  intros Hi Hj Hok Hfree. pose proof stride_bounds as Hw.
  assert (Hk : 0 <= i * stride intype + j) by nia.
  unfold read_cell. rewrite getchar_stream_at by assumption.
  unfold add_clue, clue_at. cbn [fst snd].
  unfold char_at. destruct (bytes !! Z.to_nat (i * stride intype + j)) as [b |] eqn:E.
  - assert (Hb : eof_like signed_char b = false).
    { rewrite Forall_forall in bytes_ok. apply bytes_ok.
      apply (list_elem_of_lookup_2 _ _ _ E). }
    unfold eof_like in Hb. rewrite Hb. rewrite digit_to_char.
    assert (Hne : (Z_of_byte b =? EOF) = false).
    { apply Z.eqb_neq. pose proof (Z_of_byte_bounds b). unfold EOF. lia. }
    rewrite Hne. cbn [andb].
    destruct ((49 <=? Z_of_byte b) && (Z_of_byte b <=? 57)) eqn:Ed.
    + cbn [option_list option_rect app]. rewrite (digit_to_char_eq _ _ Ed).
      apply andb_true_iff in Ed. destruct Ed as [E1 E2].
      apply Z.leb_le in E1, E2.
      rewrite wrap_small by (apply is_int_small; lia).
      destruct (clues_ok (_ :: ps)) eqn:Ec.
      * rewrite (insert_commit_all _ _ _ _ Ec). reflexivity.
      * assert (Hq : slot_ok (i, j, Z_of_byte b - 49)).
        { unfold slot_ok. unfold N, SQRT_N in *. lia. }
        rewrite (insert_blocked ps (commit_all ps)); [reflexivity | | assumption |].
        { apply Inv_commit_all, Hok. }
        intros Hz. cbn [clues_ok cell_of] in Ec.
        rewrite (proj2 (slot_okb_true _) Hq), Hfree, Hz, Hok in Ec. discriminate.
    + cbn [option_list option_rect app]. rewrite Hok. reflexivity.
  - rewrite to_char_EOF. cbn [Z.leb Z.compare andb EOF option_list option_rect app]. rewrite Hok.
    destruct signed_char; reflexivity.
Qed.

Lemma read_result_fail r ps ps' cells k :
  r = AssertFail -> clues_ok ps = false ->
  ps' = foldl (add_clue (stride intype) bytes) ps cells ->
  read_result bytes r ps' k.
Proof.
  intros -> Hps ->. unfold read_result.
  destruct (clues_ok (foldl _ ps cells)) eqn:E; [| reflexivity].
  apply clues_ok_foldl in E. congruence.
Qed.

Lemma read_cells_spec i :
  0 <= i < N ->
  forall n j ps,
    0 <= j -> j + Z.of_nat n = N ->
    clues_ok ps = true ->
    (forall p, p ∈ ps -> row_major (cell_of p) < i * N + j) ->
    read_result bytes
      (for_each_ctl (seqZ j (Z.of_nat n)) (read_cell signed_char i)
         (commit_all ps, stream_at bytes (i * stride intype + j)))
      (foldl (add_clue (stride intype) bytes) ps
         (map (fun j => (i, j)) (seqZ j (Z.of_nat n))))
      (i * stride intype + N).
Proof.
  intros Hi. pose proof stride_bounds as Hw.
  induction n as [| n IH]; intros j ps Hj Hn Hok Hfresh.
  - change (seqZ j (Z.of_nat 0)) with (@nil Z). cbn [for_each_ctl map foldl].
    unfold read_result. rewrite Hok. left.
    replace j with N by lia. reflexivity.
  - rewrite seqZ_cons by lia.
    replace (Z.pred (Z.of_nat (S n))) with (Z.of_nat n) by lia.
    cbn [for_each_ctl map foldl].
    rewrite read_cell_step; [| assumption | lia | assumption |
                               apply fresh_not_occupied, Hfresh].
    set (ps1 := add_clue (stride intype) bytes ps (i, j)).
    destruct (clues_ok ps1) eqn:Eok.
    + destruct ((char_at bytes (i * stride intype + j) =? EOF) && signed_char) eqn:Ee.
      * cbn [bind].
        apply andb_true_iff in Ee. destruct Ee as [Ee _]. apply Z.eqb_eq in Ee.
        apply char_at_EOF in Ee; [| nia].
        rewrite foldl_add_clue_beyond.
        2:{ intros x Hx. apply list_elem_of_In, in_map_iff in Hx.
            destruct Hx as (j' & <- & Hj'). apply list_elem_of_In, elem_of_seqZ in Hj'.
            cbn [fst snd]. lia. }
        unfold read_result. rewrite Eok. right. split; [| lia].
        rewrite (stream_at_exhausted bytes (i * stride intype + j + 1)
                   (i * stride intype + N)) by lia.
        reflexivity.
      * cbn [bind].
        replace (i * stride intype + j + 1) with (i * stride intype + Z.succ j) by lia.
        apply IH; [lia | lia | assumption |].
        intros p Hp. apply elem_of_add_clue in Hp. destruct Hp as [Hp | Hp].
        -- specialize (Hfresh p Hp). lia.
        -- apply clue_at_cell in Hp. rewrite Hp. unfold row_major. cbn [fst snd]. lia.
    + cbn [bind]. apply (read_result_fail _ ps1 _ _ _ eq_refl Eok eq_refl).
Qed.

Lemma read_row_step i ps :
  0 <= i < N ->
  clues_ok ps = true ->
  (forall p, p ∈ ps -> row_major (cell_of p) < i * N) ->
  read_result bytes
    (read_row signed_char intype i (commit_all ps, stream_at bytes (i * stride intype)))
    (foldl (add_clue (stride intype) bytes) ps (map (fun j => (i, j)) (range N)))
    ((i + 1) * stride intype).
Proof.
  intros Hi Hok Hfresh. pose proof stride_bounds as Hw.
  pose proof (read_cells_spec i Hi 9%nat 0 ps) as H.
  replace (i * stride intype + 0) with (i * stride intype) in H by lia.
  change (seqZ 0 (Z.of_nat 9)) with (range N) in H.
  specialize (H ltac:(lia) eq_refl Hok).
  specialize (H ltac:(intros p Hp; specialize (Hfresh p Hp); lia)).
  unfold read_row. unfold read_result in *.
  destruct (clues_ok (foldl _ ps (map _ (range N)))).
  - destruct H as [-> | [-> Hlen]]; cbn [bind].
    + left. destruct intype_ok as [-> | ->].
      * change (LINEAR_INPUT =? GRID_INPUT) with false. cbv iota.
        change (stride LINEAR_INPUT) with 9. do 4 f_equal. unfold N, SQRT_N. lia.
      * change (GRID_INPUT =? GRID_INPUT) with true. cbv iota.
        rewrite getchar_stream_at by nia. cbn [snd].
        change (stride GRID_INPUT) with 10. do 4 f_equal. unfold N, SQRT_N. lia.
    + right. split; [| nia].
      rewrite (stream_at_exhausted bytes (i * stride intype + N)
                 ((i + 1) * stride intype)) by nia.
      reflexivity.
  - rewrite H. reflexivity.
Qed.

Lemma read_rows_spec :
  forall n i ps,
    0 <= i -> i + Z.of_nat n = N ->
    clues_ok ps = true ->
    (forall p, p ∈ ps -> row_major (cell_of p) < i * N) ->
    read_result bytes
      (for_each_ctl (seqZ i (Z.of_nat n)) (read_row signed_char intype)
         (commit_all ps, stream_at bytes (i * stride intype)))
      (foldl (add_clue (stride intype) bytes) ps
         (flat_map (fun i => map (fun j => (i, j)) (range N)) (seqZ i (Z.of_nat n))))
      (N * stride intype).
Proof.
  pose proof stride_bounds as Hw.
  induction n as [| n IH]; intros i ps Hi Hn Hok Hfresh.
  - change (seqZ i (Z.of_nat 0)) with (@nil Z). cbn [for_each_ctl flat_map foldl].
    unfold read_result. rewrite Hok. left. replace i with N by lia. reflexivity.
  - rewrite seqZ_cons by lia.
    replace (Z.pred (Z.of_nat (S n))) with (Z.of_nat n) by lia.
    cbn [for_each_ctl flat_map]. rewrite foldl_app.
    pose proof (read_row_step i ps ltac:(lia) Hok Hfresh) as Hrow.
    set (ps1 := foldl (add_clue (stride intype) bytes) ps
                  (map (fun j => (i, j)) (range N))) in *.
    unfold read_result in Hrow.
    destruct (clues_ok ps1) eqn:Eok.
    + destruct Hrow as [-> | [-> Hlen]]; cbn [bind].
      * replace ((i + 1) * stride intype) with (Z.succ i * stride intype) by lia.
        apply IH; [lia | lia | assumption |].
        intros p Hp. apply elem_of_foldl_add_clue in Hp.
        destruct Hp as [Hp | (x & Hx & Hp)].
        -- specialize (Hfresh p Hp). unfold N, SQRT_N in *. lia.
        -- apply clue_at_cell in Hp. rewrite Hp.
           apply list_elem_of_In, in_map_iff in Hx. destruct Hx as (j & <- & Hj).
           apply list_elem_of_In, elem_of_range in Hj.
           unfold row_major. cbn [fst snd]. lia.
      * rewrite foldl_add_clue_beyond.
        2:{ intros x Hx. apply list_elem_of_In, in_flat_map in Hx.
            destruct Hx as (i' & Hi' & Hx). apply in_map_iff in Hx.
            destruct Hx as (j & <- & Hj).
            apply list_elem_of_In, elem_of_seqZ in Hi'.
            apply list_elem_of_In, elem_of_range in Hj.
            cbn [fst snd]. nia. }
        unfold read_result. rewrite Eok. right. split; [| nia].
        rewrite (stream_at_exhausted bytes ((i + 1) * stride intype)
                   (N * stride intype)) by nia.
        reflexivity.
    + rewrite Hrow. cbn [bind].
      apply (read_result_fail _ ps1 _ _ _ eq_refl Eok eq_refl).
Qed.

Lemma read_input_zero :
  read_input signed_char zero_sudoku intype (mk_stream bytes false) =
  if clues_ok (clues_read (stride intype) bytes)
  then Ok (commit_all (clues_read (stride intype) bytes),
           stream_at bytes (consumed intype))
  else AssertFail.
Proof.
  pose proof stride_bounds as Hw.
  pose proof (read_rows_spec 9%nat 0 [] ltac:(lia) eq_refl eq_refl) as H.
  specialize (H ltac:(intros p Hp; apply elem_of_nil in Hp; contradiction)).
  change (seqZ 0 (Z.of_nat 9)) with (range N) in H.
  assert (E0 : commit_all [] = zero_sudoku) by reflexivity.
  rewrite E0 in H. clear E0.
  replace (0 * stride intype) with 0 in H by lia. rewrite stream_at_0 in H.
  unfold clues_read, all_cells. unfold read_input. unfold read_result in H.
  revert H.
  generalize (foldl (add_clue (stride intype) bytes) []
                (flat_map (fun i => map (fun j => (i, j)) (range N)) (range N))).
  intros ps H. destruct (clues_ok ps).
  - destruct H as [-> | [-> Hlen]]; cbn [bind].
    + destruct intype_ok as [-> | ->].
      * change (LINEAR_INPUT =? LINEAR_INPUT) with true. cbv iota.
        rewrite getchar_stream_at by (vm_compute; discriminate).
        reflexivity.
      * reflexivity.
    + f_equal. f_equal. apply stream_at_exhausted; [assumption |].
      destruct intype_ok as [-> | ->]; unfold stride, consumed, N, SQRT_N; cbn; lia.
  - rewrite H. reflexivity.
Qed.

End ReadInput.

(** *** The clues that were read *)

Lemma clue_at_Some width bytes x i j v :
  clue_at width bytes x = Some (i, j, v) <->
  x = (i, j) /\ 0 <= v < N /\ char_at bytes (i * width + j) = 49 + v.
Proof.
  unfold clue_at. destruct x as [i' j']. cbn [fst snd].
  destruct ((49 <=? char_at bytes (i' * width + j')) &&
            (char_at bytes (i' * width + j') <=? 57)) eqn:E.
  - apply andb_true_iff in E. destruct E as [E1 E2]. apply Z.leb_le in E1, E2.
    split.
    + intros H. injection H as <- <- <-. unfold N, SQRT_N. split; [reflexivity | lia].
    + intros (H & Hv & Hc). injection H as -> ->. do 2 f_equal. lia.
  - split; [discriminate |]. intros (H & Hv & Hc). injection H as -> ->.
    apply andb_false_iff in E. unfold N, SQRT_N in Hv.
    destruct E as [E | E]; apply Z.leb_gt in E; lia.
Qed.

Lemma elem_of_clues_read width bytes i j v :
  (i, j, v) ∈ clues_read width bytes <->
  0 <= i < N /\ 0 <= j < N /\ 0 <= v < N /\ char_at bytes (i * width + j) = 49 + v.
Proof.
  unfold clues_read. rewrite elem_of_foldl_add_clue. split.
  - intros [H | (x & Hx & H)]; [apply elem_of_nil in H; contradiction |].
    apply clue_at_Some in H. destruct H as (-> & Hv & Hc).
    apply all_cells_ok in Hx. unfold cell_ok in Hx. tauto.
  - intros (Hi & Hj & Hv & Hc). right. exists (i, j). split.
    + apply elem_of_all_cells. unfold cell_ok. auto.
    + apply clue_at_Some. auto.
Qed.

Lemma NoDup_foldl_add_clue width bytes cells : forall ps,
  NoDup cells -> NoDup (map cell_of ps) ->
  (forall p, p ∈ ps -> cell_of p ∉ cells) ->
  NoDup (map cell_of (foldl (add_clue width bytes) ps cells)).
Proof.
  induction cells as [| x cells IH]; intros ps Hc Hps Hfresh; [exact Hps |].
  apply NoDup_cons in Hc. destruct Hc as [Hx Hc].
  cbn [foldl]. apply IH; [assumption | |].
  - unfold add_clue. destruct (clue_at width bytes x) as [p |] eqn:E;
      cbn [option_list option_rect app map]; [| assumption].
    apply NoDup_cons. split; [| assumption].
    rewrite (clue_at_cell _ _ _ _ E). intros Hin.
    apply list_elem_of_In, in_map_iff in Hin. destruct Hin as (p' & Ep & Hp').
    apply (Hfresh p'); [apply list_elem_of_In, Hp' |].
    rewrite Ep. apply list_elem_of_here.
  - intros p Hp Hin. apply elem_of_add_clue in Hp. destruct Hp as [Hp | Hp].
    + apply (Hfresh p Hp). apply list_elem_of_further, Hin.
    + apply clue_at_cell in Hp. congruence.
Qed.

Lemma NoDup_clues_read width bytes : NoDup (map cell_of (clues_read width bytes)).
Proof.
  apply NoDup_foldl_add_clue; [apply NoDup_all_cells | constructor |].
  intros p Hp. apply elem_of_nil in Hp. contradiction.
Qed.

Lemma clues_read_ok width bytes : Forall slot_ok (clues_read width bytes).
Proof.
  apply Forall_forall. intros [[i j] v] Hp. apply elem_of_clues_read in Hp.
  unfold slot_ok. tauto.
Qed.

(** *** Which lists of clues [clues_ok] accepts *)




Lemma bytes_ok_check signed_char bytes :
  forallb (fun b => negb (eof_like signed_char b)) bytes = true ->
  Forall (fun b => eof_like signed_char b = false) bytes.
Proof.
  intros H. apply Forall_forall. intros b Hb.
  rewrite forallb_forall in H. apply negb_true_iff, H, list_elem_of_In, Hb.
Qed.

(** X14. [read_input] on a fresh puzzle: cell (i, j) gets number v
    exactly when the character at position 9 i + j of the input (10 i + j
    in the grid format, whose tenth character of each row is skipped
    unseen) is the digit '1' + v; any other character, and a missing
    one when the input ends early, leaves the cell blank.  The call
    consumes 82 characters (90 in the grid format), fewer if the input
    ends before, and then the end-of-file indicator is set.  It aborts
    when a clue is rejected by the assertions of [insert_number_at]. *)
Theorem read_input_commits_the_clues signed_char intype bytes :
  intype = LINEAR_INPUT \/ intype = GRID_INPUT ->
  Forall (fun b => eof_like signed_char b = false) bytes ->
  (forall i j v,
     (i, j, v) ∈ clues_read (stride intype) bytes <->
     0 <= i < N /\ 0 <= j < N /\ 0 <= v < N /\
     char_at bytes (i * stride intype + j) = 49 + v) /\
  read_input signed_char zero_sudoku intype (mk_stream bytes false) =
    if clues_ok (clues_read (stride intype) bytes)
    then Ok (commit_all (clues_read (stride intype) bytes),
             mk_stream (drop (Z.to_nat (consumed intype)) bytes)
                       (Z.of_nat (length bytes) <? consumed intype))
    else AssertFail.
Proof.
  intros Hi Hb. split.
  - intros i j v. apply elem_of_clues_read.
  - apply (read_input_zero signed_char intype bytes Hi Hb).
Qed.

Lemma read_input_commits_the_clues_witness :
  (GRID_INPUT = LINEAR_INPUT \/ GRID_INPUT = GRID_INPUT) /\
  Forall (fun b => eof_like true b = false) grid_puzzle /\
  (forall i j v,
     (i, j, v) ∈ clues_read (stride GRID_INPUT) grid_puzzle <->
     0 <= i < N /\ 0 <= j < N /\ 0 <= v < N /\
     char_at grid_puzzle (i * stride GRID_INPUT + j) = 49 + v) /\
  read_input true zero_sudoku GRID_INPUT (mk_stream grid_puzzle false) =
    if clues_ok (clues_read (stride GRID_INPUT) grid_puzzle)
    then Ok (commit_all (clues_read (stride GRID_INPUT) grid_puzzle),
             mk_stream (drop (Z.to_nat (consumed GRID_INPUT)) grid_puzzle)
                       (Z.of_nat (length grid_puzzle) <? consumed GRID_INPUT))
    else AssertFail.
Proof.
  assert (H1 : GRID_INPUT = LINEAR_INPUT \/ GRID_INPUT = GRID_INPUT)
    by (right; reflexivity).
  assert (H2 : Forall (fun b => eof_like true b = false) grid_puzzle)
    by (apply bytes_ok_check; vm_compute; reflexivity).
  split; [exact H1 |]. split; [exact H2 |].
  exact (read_input_commits_the_clues true GRID_INPUT grid_puzzle H1 H2).
Defined.



(** X16. Where [char] is signed, a byte 255 in the input is taken for
    the end of the input: [read_input] returns at once, leaving the
    puzzle as it is, the rest of the input unread and the end-of-file
    indicator untouched. *)
Theorem byte_255_reads_as_end_of_input s intype rest e :
  read_input true s intype (mk_stream (Byte.xff :: rest) e) =
  Ok (s, mk_stream rest e).
Proof.
  unfold read_input, range.
  rewrite (seqZ_cons 0 N) by (vm_compute; reflexivity). cbn [for_each_ctl].
  unfold read_row at 1. unfold range.
  rewrite (seqZ_cons 0 N) by (vm_compute; reflexivity). cbn [for_each_ctl].
  unfold read_cell at 1. unfold getchar. cbn [pending eof_flag].
  change (to_char true (Z_of_byte Byte.xff)) with EOF.
  change (EOF =? EOF) with true. cbn [bind]. reflexivity.
Qed.

(* ================================================================== *)
(** ** What [print] writes *)

Lemma foldl_putchar {A : Type} (f : A -> byte) (l : list A) : forall out,
  foldl (fun out a => out ++ [f a]) out l = out ++ map f l.
Proof.
  induction l as [| a l IH]; intros out; cbn [foldl map].
  - rewrite app_nil_r. reflexivity.
  - rewrite IH, <- app_assoc. reflexivity.
Qed.

Lemma candidates_singleton s x v :
  candidates s x = [v] -> 0 <= v < N.
Proof.
  intros H. assert (Hv : v ∈ candidates s x) by (rewrite H; apply list_elem_of_here).
  apply elem_of_candidates in Hv. tauto.
Qed.

Lemma print_cell_ok s mode i j buf out :
  shape s -> cell_ok (i, j) -> length buf = Z.to_nat N -> 0 <= mode <= 2 ->
  print_cell s mode i j (filled buf (candidates s (i, j))) (poss_count s (i, j)) out =
  Ok (out ++ cell_text s mode (i, j)).
Proof.
  intros Hs Hx Hb Hm. unfold print_cell, cell_text.
  destruct (Z.eqb_spec mode HYPOTHESIS_COUNT) as [E0 | E0].
  { pose proof (poss_count_bounds s (i, j)).
    rewrite wrap_small by (apply is_int_small; lia). reflexivity. }
  destruct (Z.eqb_spec mode VALUE) as [E1 | E1].
  { unfold poss_count.
    destruct (candidates s (i, j)) as [| v [| w l]] eqn:E.
    - reflexivity.
    - change (Z.of_nat (length [v]) =? 1) with true. cbv iota.
      rewrite (load_buf_filled buf [v] 0) by (cbn [length]; lia).
      change (nth (Z.to_nat 0) [v] 0) with v. cbn [bind].
      pose proof (candidates_singleton s (i, j) v E) as Hv.
      rewrite wrap_small by (apply is_int_small; unfold N, SQRT_N in Hv; lia).
      reflexivity.
    - destruct (Z.eqb_spec (Z.of_nat (length (v :: w :: l))) 1) as [F |]; [| reflexivity].
      cbn [length] in F. lia. }
  destruct (Z.eqb_spec mode ALL_HYPOTHESIS) as [E2 | E2].
  2:{ unfold HYPOTHESIS_COUNT, VALUE, ALL_HYPOTHESIS in *. lia. }
  cbv zeta.
  destruct (for_each_pure (fun _ : list byte => True) (fun n => 0 <= n < N)
              (fun out n => out ++ [if count_at s (i, j, n) =? 0
                                    then byte_of_Z (n + 49) else " "%byte])
              (fun n out =>
                 do x <- get_constraint s i j n ;;
                 if x =? 0 then Ok (putchar (wrap (n + 49)) out)
                 else Ok (putchar 32 out))
              (range N)) with (s := putchar 91 out) as [E _].
  - intros n o Hn _. split; [| exact I].
    rewrite get_constraint_ok; [| assumption | unfold cell_ok in Hx; unfold slot_ok; tauto].
    cbn [bind]. destruct (count_at s (i, j, n) =? 0); [| reflexivity].
    rewrite wrap_small by (apply is_int_small; unfold N, SQRT_N in Hn; lia).
    reflexivity.
  - apply Forall_forall. intros n Hn. apply elem_of_range, Hn.
  - exact I.
  - rewrite E. cbn [bind]. rewrite foldl_putchar. unfold putchar.
    cbn [fst snd]. rewrite <- !app_assoc. reflexivity.
Qed.

Lemma print_row_ok s mode i :
  shape s -> 0 <= i < N -> 0 <= mode <= 2 ->
  forall cols, Forall (fun j => 0 <= j < N) cols ->
  forall buf out, length buf = Z.to_nat N ->
  exists buf',
    for_each cols (fun j '(buf, out) =>
        do '(buf, poss_count) <- get_possibilities_at s i j buf ;;
        do out <- print_cell s mode i j buf poss_count out ;;
        Ok (buf, out)) (buf, out) =
    Ok (buf', out ++ flat_map (fun j => cell_text s mode (i, j)) cols) /\
    length buf' = Z.to_nat N.
Proof.
  intros Hs Hi Hm. induction cols as [| j cols IH]; intros Hc buf out Hb.
  - exists buf. cbn [for_each flat_map]. rewrite app_nil_r. auto.
  - apply Forall_cons in Hc. destruct Hc as [Hj Hc].
    assert (Hx : cell_ok (i, j)) by (unfold cell_ok; auto).
    cbn [for_each flat_map].
    rewrite (get_possibilities_at_ok s i j buf Hs Hx Hb). cbn [bind].
    rewrite (print_cell_ok s mode i j buf out Hs Hx Hb Hm). cbn [bind].
    destruct (IH Hc (filled buf (candidates s (i, j))) (out ++ cell_text s mode (i, j)))
      as (buf' & E & Hb').
    { rewrite length_filled; [assumption |]. rewrite Hb. apply length_candidates. }
    exists buf'. rewrite E, <- app_assoc. auto.
Qed.

Lemma print_rows_ok s mode :
  shape s -> 0 <= mode <= 2 ->
  forall rows, Forall (fun i => 0 <= i < N) rows ->
  forall buf out, length buf = Z.to_nat N ->
  exists buf',
    for_each rows (fun i '(buf, out) =>
      do '(buf, out) <- for_each (range N) (fun j '(buf, out) =>
          do '(buf, poss_count) <- get_possibilities_at s i j buf ;;
          do out <- print_cell s mode i j buf poss_count out ;;
          Ok (buf, out)) (buf, out) ;;
      Ok (buf, putchar 10 out)) (buf, out) =
    Ok (buf', out ++ flat_map (fun i =>
                        flat_map (fun j => cell_text s mode (i, j)) (range N) ++
                        ["010"%byte]) rows) /\
    length buf' = Z.to_nat N.
Proof.
  intros Hs Hm. induction rows as [| i rows IH]; intros Hr buf out Hb.
  - exists buf. cbn [for_each flat_map]. rewrite app_nil_r. auto.
  - apply Forall_cons in Hr. destruct Hr as [Hi Hr].
    cbn [for_each flat_map].
    destruct (print_row_ok s mode i Hs Hi Hm (range N)) with (buf := buf) (out := out)
      as (buf1 & E1 & Hb1); [| assumption |].
    { apply Forall_forall. intros j Hj. apply elem_of_range, Hj. }
    rewrite E1. cbn [bind].
    destruct (IH Hr buf1
                (putchar 10 (out ++ flat_map (fun j => cell_text s mode (i, j)) (range N)))
                Hb1) as (buf' & E & Hb').
    exists buf'. rewrite E. unfold putchar. rewrite <- !app_assoc. auto.
Qed.

Lemma print_ok s mode out :
  shape s -> 0 <= mode <= 2 -> print s mode out = Ok (out ++ rendering s mode).
Proof.
  intros Hs Hm. unfold print.
  destruct (print_rows_ok s mode Hs Hm (range N)) with (buf := malloc_buffer) (out := out)
    as (buf' & E & _); [| reflexivity |].
  { apply Forall_forall. intros j Hj. apply elem_of_range, Hj. }
  rewrite E. cbn [bind]. unfold putchar, rendering. rewrite <- app_assoc. reflexivity.
Qed.

Lemma length_flat_map_const {A B : Type} (f : A -> list B) (k : nat) (l : list A) :
  (forall a, a ∈ l -> length (f a) = k) ->
  length (flat_map f l) = (length l * k)%nat.
Proof.
  induction l as [| a l IH]; intros H; [reflexivity |].
  cbn [flat_map length]. rewrite length_app, (H a) by apply list_elem_of_here.
  rewrite IH; [lia |]. intros b Hb. apply H, list_elem_of_further, Hb.
Qed.

Lemma lookup_flat_map_const {A B : Type} (f : A -> list B) (k : nat) (l : list A) :
  (forall a, a ∈ l -> length (f a) = k) ->
  forall i j a, l !! i = Some a -> (j < k)%nat ->
    flat_map f l !! (i * k + j)%nat = f a !! j.
Proof.
  induction l as [| a0 l IH]; intros H i j a Hi Hj; [discriminate |].
  pose proof (H a0 (list_elem_of_here _ _)) as H0.
  cbn [flat_map]. destruct i as [| i].
  - injection Hi as ->. cbn [Nat.mul Nat.add]. apply lookup_app_l. lia.
  - cbn [lookup list_lookup] in Hi.
    rewrite lookup_app_r by lia.
    replace (S i * k + j - length (f a0))%nat with (i * k + j)%nat by lia.
    apply IH; [| assumption | assumption].
    intros b Hb. apply H, list_elem_of_further, Hb.
Qed.

Lemma lookup_range i : 0 <= i < N -> range N !! Z.to_nat i = Some i.
Proof.
  intros Hi. unfold range. apply lookup_seqZ. split; lia.
Qed.

Lemma length_cell_text s mode x :
  0 <= mode <= 2 ->
  length (cell_text s mode x) = if mode =? ALL_HYPOTHESIS then 11%nat else 1%nat.
Proof.
  intros Hm. unfold cell_text.
  destruct (Z.eqb_spec mode HYPOTHESIS_COUNT) as [-> | E0]; [reflexivity |].
  destruct (Z.eqb_spec mode VALUE) as [-> | E1].
  { destruct (candidates s x) as [| v [| w l]]; reflexivity. }
  destruct (Z.eqb_spec mode ALL_HYPOTHESIS) as [E2 | E2].
  - rewrite !length_app, length_map. reflexivity.
  - unfold HYPOTHESIS_COUNT, VALUE, ALL_HYPOTHESIS in *. lia.
Qed.

Lemma length_rendering s mode :
  0 <= mode <= 2 ->
  length (rendering s mode) = if mode =? ALL_HYPOTHESIS then 901%nat else 91%nat.
Proof.
  intros Hm. unfold rendering. rewrite length_app.
  rewrite (length_flat_map_const _
             (if (mode =? ALL_HYPOTHESIS)%Z then 100 else 10)%nat).
  - destruct (mode =? ALL_HYPOTHESIS); reflexivity.
  - intros i _. rewrite length_app.
    rewrite (length_flat_map_const _ (if (mode =? ALL_HYPOTHESIS)%Z then 11 else 1)%nat).
    + destruct (mode =? ALL_HYPOTHESIS); reflexivity.
    + intros j _. apply length_cell_text, Hm.
Qed.

Lemma rendering_lookup s i j :
  0 <= i < N -> 0 <= j < N ->
  rendering s VALUE !! Z.to_nat (10 * i + j) = cell_text s VALUE (i, j) !! 0%nat.
Proof.
  intros Hi Hj. unfold rendering.
  assert (Hrow : forall a, length (flat_map (fun j => cell_text s VALUE (a, j)) (range N) ++
                             ["010"%byte]) = 10%nat).
  { intros a. rewrite length_app, (length_flat_map_const _ 1%nat); [reflexivity |].
    intros b _. apply (length_cell_text s VALUE). unfold VALUE. lia. }
  replace (Z.to_nat (10 * i + j)) with (Z.to_nat i * 10 + Z.to_nat j)%nat
    by (unfold N, SQRT_N in *; lia).
  rewrite lookup_app_l.
  2:{ rewrite (length_flat_map_const _ 10%nat) by (intros a _; apply Hrow).
      change (length (range N)) with 9%nat. unfold N, SQRT_N in *. lia. }
  rewrite (lookup_flat_map_const _ 10%nat (range N) (fun a _ => Hrow a)
             (Z.to_nat i) (Z.to_nat j) i (lookup_range i Hi))
    by (unfold N, SQRT_N in *; lia).
  rewrite lookup_app_l.
  2:{ rewrite (length_flat_map_const _ 1%nat).
      - change (length (range N)) with 9%nat. unfold N, SQRT_N in *. lia.
      - intros b _. apply (length_cell_text s VALUE). unfold VALUE. lia. }
  replace (Z.to_nat j) with (Z.to_nat j * 1 + 0)%nat at 1 by lia.
  apply (lookup_flat_map_const (fun j => cell_text s VALUE (i, j)) 1%nat (range N));
    [| apply lookup_range, Hj | lia].
  intros b _. apply (length_cell_text s VALUE). unfold VALUE. lia.
Qed.

Lemma rendering_lookup_newline s i :
  0 <= i < N ->
  rendering s VALUE !! Z.to_nat (10 * i + 9) = Some "010"%byte.
Proof.
  intros Hi. unfold rendering.
  assert (Hcells : forall a, length (flat_map (fun j => cell_text s VALUE (a, j)) (range N))
                             = 9%nat).
  { intros a. rewrite (length_flat_map_const _ 1%nat); [reflexivity |].
    intros b _. apply (length_cell_text s VALUE). unfold VALUE. lia. }
  assert (Hrow : forall a, length (flat_map (fun j => cell_text s VALUE (a, j)) (range N) ++
                             ["010"%byte]) = 10%nat).
  { intros a. rewrite length_app, Hcells. reflexivity. }
  replace (Z.to_nat (10 * i + 9)) with (Z.to_nat i * 10 + 9)%nat
    by (unfold N, SQRT_N in *; lia).
  rewrite lookup_app_l.
  2:{ rewrite (length_flat_map_const _ 10%nat) by (intros a _; apply Hrow).
      change (length (range N)) with 9%nat. unfold N, SQRT_N in *. lia. }
  rewrite (lookup_flat_map_const _ 10%nat (range N) (fun a _ => Hrow a)
             (Z.to_nat i) 9%nat i (lookup_range i Hi)) by lia.
  rewrite lookup_app_r by (rewrite Hcells; lia).
  rewrite Hcells. reflexivity.
Qed.

(** X17. [print] in its three modes, on any state: it never fails, and
    writes nine lines of nine cells and an empty line, 91 characters in
    all (901 in [ALL_HYPOTHESIS] mode, where a cell takes 11).  A cell
    shows its number of candidates, or its only candidate and ['*'] when
    there is not exactly one, or its candidates between brackets; the
    candidate buffer left by the previous cell never shows. *)
Theorem print_layout s mode out :
  shape s -> 0 <= mode <= 2 ->
  print s mode out = Ok (out ++ rendering s mode) /\
  length (rendering s mode) = if mode =? ALL_HYPOTHESIS then 901%nat else 91%nat.
Proof.
  intros Hs Hm. split; [apply print_ok; assumption | apply length_rendering, Hm].
Qed.

Lemma print_layout_witness :
  shape one_clue /\ 0 <= ALL_HYPOTHESIS <= 2 /\
  print one_clue ALL_HYPOTHESIS [] = Ok ([] ++ rendering one_clue ALL_HYPOTHESIS) /\
  length (rendering one_clue ALL_HYPOTHESIS) =
    if ALL_HYPOTHESIS =? ALL_HYPOTHESIS then 901%nat else 91%nat.
Proof.
  assert (H : shape one_clue) by (split; vm_compute; reflexivity).
  assert (Hm : 0 <= ALL_HYPOTHESIS <= 2) by (unfold ALL_HYPOTHESIS; lia).
  split; [exact H |]. split; [exact Hm |].
  exact (print_layout one_clue ALL_HYPOTHESIS [] H Hm).
Defined.

(** X18. A mode outside the enumeration reaches [abort()] at the first
    cell, before anything is written. *)
Theorem print_aborts_on_unknown_mode s mode out :
  shape s -> ~ 0 <= mode <= 2 -> print s mode out = AssertFail.
Proof.
  intros Hs Hm. unfold print, range.
  rewrite (seqZ_cons 0 N) by (vm_compute; reflexivity). cbn [for_each].
  rewrite (get_possibilities_at_ok s 0 0 malloc_buffer Hs); [| | reflexivity].
  2:{ unfold cell_ok, N, SQRT_N. lia. }
  cbn [bind]. unfold print_cell.
  destruct (Z.eqb_spec mode HYPOTHESIS_COUNT) as [E0 | E0];
    [unfold HYPOTHESIS_COUNT in E0; lia |].
  destruct (Z.eqb_spec mode VALUE) as [E1 | E1]; [unfold VALUE in E1; lia |].
  destruct (Z.eqb_spec mode ALL_HYPOTHESIS) as [E2 | E2];
    [unfold ALL_HYPOTHESIS in E2; lia |].
  reflexivity.
Qed.

Lemma print_aborts_on_unknown_mode_witness :
  shape zero_sudoku /\ ~ 0 <= 3 <= 2 /\ print zero_sudoku 3 [] = AssertFail.
Proof.
  assert (H : shape zero_sudoku) by (split; reflexivity).
  assert (Hm : ~ 0 <= 3 <= 2) by lia.
  split; [exact H |]. split; [exact Hm |].
  exact (print_aborts_on_unknown_mode zero_sudoku 3 [] H Hm).
Defined.

(** X19. [print] in [VALUE] mode on a reachable state: the character of
    cell (r, c) is at position 10 r + c; it is the digit '1' + v when v
    is committed there.  An uncommitted cell also shows a digit when a
    single candidate is left for it, and ['*'] otherwise.  Every line ends
    with a newline. *)
Theorem print_value_of_reachable ps s out :
  reachable ps s ->
  exists text,
    print s VALUE out = Ok (out ++ text) /\
    (forall r c v, (r, c, v) ∈ ps ->
       text !! Z.to_nat (10 * r + c) = Some (byte_of_Z (v + 49))) /\
    (forall r c, get_inserted s r c = Ok 0 ->
       text !! Z.to_nat (10 * r + c) =
         Some (match candidates s (r, c) with
               | [v] => byte_of_Z (v + 49)
               | _ => "*"%byte
               end)) /\
    (forall r, 0 <= r < N -> text !! Z.to_nat (10 * r + 9) = Some "010"%byte).
Proof.
  intros Hr. pose proof (reachable_Inv ps s Hr) as HI.
  pose proof HI as (Hwf & Hok & _).
  exists (rendering s VALUE). split; [| split; [| split]].
  - apply print_ok; [apply Hwf | unfold VALUE; lia].
  - intros r c v Hin.
    assert (Hq : slot_ok (r, c, v)) by (rewrite Forall_forall in Hok; apply Hok, Hin).
    rewrite rendering_lookup by (unfold slot_ok in Hq; tauto).
    unfold cell_text. cbn [Z.eqb VALUE HYPOTHESIS_COUNT].
    change (VALUE =? HYPOTHESIS_COUNT) with false. change (VALUE =? VALUE) with true.
    cbv iota.
    pose proof (Inv_candidates_committed ps s (r, c, v) HI Hin) as Hc.
    cbn [cell_of number_of] in Hc. rewrite Hc. reflexivity.
  - intros r c Hf.
    destruct (get_inserted_flag s r c 0 (proj1 Hwf) Hf) as [Hx _].
    rewrite rendering_lookup by (unfold cell_ok in Hx; tauto).
    unfold cell_text.
    change (VALUE =? HYPOTHESIS_COUNT) with false. change (VALUE =? VALUE) with true.
    cbv iota. destruct (candidates s (r, c)) as [| v [| w l]]; reflexivity.
  - intros r Hrow. apply rendering_lookup_newline, Hrow.
Qed.

Lemma print_value_of_reachable_witness :
  reachable [(0, 0, 4)] one_clue /\
  exists text,
    print one_clue VALUE [] = Ok ([] ++ text) /\
    (forall r c v, (r, c, v) ∈ [(0, 0, 4)] ->
       text !! Z.to_nat (10 * r + c) = Some (byte_of_Z (v + 49))) /\
    (forall r c, get_inserted one_clue r c = Ok 0 ->
       text !! Z.to_nat (10 * r + c) =
         Some (match candidates one_clue (r, c) with
               | [v] => byte_of_Z (v + 49)
               | _ => "*"%byte
               end)) /\
    (forall r, 0 <= r < N -> text !! Z.to_nat (10 * r + 9) = Some "010"%byte).
Proof.
  split; [exact reachable_one_clue |].
  exact (print_value_of_reachable [(0, 0, 4)] one_clue [] reachable_one_clue).
Defined.

(** *** A solved puzzle on the screen *)

Lemma flat_map_singleton {A B : Type} (g : A -> B) (f : A -> list B) (l : list A) :
  (forall a, a ∈ l -> f a = [g a]) -> flat_map f l = map g l.
Proof.
  induction l as [| a l IH]; intros H; [reflexivity |].
  cbn [flat_map map]. rewrite (H a) by apply list_elem_of_here.
  rewrite IH; [reflexivity |]. intros b Hb. apply H, list_elem_of_further, Hb.
Qed.

Lemma flat_map_ext_in {A B : Type} (f g : A -> list B) (l : list A) :
  (forall a, a ∈ l -> f a = g a) -> flat_map f l = flat_map g l.
Proof.
  induction l as [| a l IH]; intros H; [reflexivity |].
  cbn [flat_map]. rewrite (H a) by apply list_elem_of_here.
  rewrite IH; [reflexivity |]. intros b Hb. apply H, list_elem_of_further, Hb.
Qed.

Lemma rendering_full ps s :
  Inv ps s -> length ps = 81%nat -> rendering s VALUE = show_grid (grid_of ps).
Proof.
  intros HI Hlen. pose proof HI as (_ & Hok & Hnd & _).
  unfold rendering, show_grid. f_equal.
  apply flat_map_ext_in. intros i Hi. apply elem_of_range in Hi. f_equal.
  apply flat_map_singleton. intros j Hj. apply elem_of_range in Hj.
  assert (Hx : cell_ok (i, j)) by (unfold cell_ok; auto).
  pose proof (cells_full ps (i, j) Hok Hnd Hlen Hx) as Hin.
  destruct (Inv_slot_of_cell ps s (i, j) HI Hin) as (p & Hp & Hc & Hg & _).
  unfold cell_text.
  change (VALUE =? HYPOTHESIS_COUNT) with false. change (VALUE =? VALUE) with true.
  cbv iota. rewrite <- Hc at 1.
  rewrite (Inv_candidates_committed ps s p HI Hp), Hg. reflexivity.
Qed.

Lemma rendering_ext s s' mode :
  constraints s' = constraints s -> rendering s' mode = rendering s mode.
Proof.
  intros H. unfold rendering, cell_text, poss_count, candidates, count_at.
  rewrite H. reflexivity.
Qed.

(** X20. [solve] followed by [print]: when [solve] answers 1 on a
    reachable state, [print] in [VALUE] mode shows a grid that obeys the
    rules and keeps every number committed at entry, one digit per
    cell. *)
Theorem solved_puzzle_is_printed ps s d s' out :
  reachable ps s -> solve d s = Ok (1, s') ->
  exists h,
    valid_grid h /\ extends ps h /\
    print s' VALUE out = Ok (out ++ show_grid h).
Proof.
  intros Hr Hsolve. pose proof (reachable_Inv ps s Hr) as HI.
  pose proof (solve_spec d ps s HI) as Hpost. rewrite Hsolve in Hpost.
  cbn [solve_post] in Hpost.
  destruct Hpost as [(_ & ps' & HI' & Hlen & Hsub & _) | (H01 & _)]; [| discriminate].
  exists (grid_of ps'). split; [| split].
  - apply (Inv_full_valid ps' s' HI' Hlen).
  - intros p Hp. apply grid_of_elem; [apply HI' | apply Hsub, Hp].
  - rewrite print_ok; [| apply HI' | unfold VALUE; lia].
    rewrite (rendering_full ps' s' HI' Hlen). reflexivity.
Qed.

Lemma solved_puzzle_is_printed_witness :
  reachable nearly_done_clues nearly_done /\
  solve 3 nearly_done = Ok (1, nearly_done_solved) /\
  exists h,
    valid_grid h /\ extends nearly_done_clues h /\
    print nearly_done_solved VALUE [] = Ok ([] ++ show_grid h).
Proof.
  assert (H : solve 3 nearly_done = Ok (1, nearly_done_solved))
    by (vm_compute; reflexivity).
  split; [exact reachable_nearly_done |]. split; [exact H |].
  exact (solved_puzzle_is_printed nearly_done_clues nearly_done 3 nearly_done_solved []
           reachable_nearly_done H).
Defined.

(* ================================================================== *)
(** ** What a run of the program prints *)

Lemma char_at_app bytes more k :
  0 <= k < Z.of_nat (length bytes) -> char_at (bytes ++ more) k = char_at bytes k.
Proof.
  intros H. unfold char_at. rewrite lookup_app_l by lia. reflexivity.
Qed.

Lemma foldl_add_clue_ext width b1 b2 cells :
  (forall x, x ∈ cells -> clue_at width b1 x = clue_at width b2 x) ->
  forall ps, foldl (add_clue width b1) ps cells = foldl (add_clue width b2) ps cells.
Proof.
  induction cells as [| x cells IH]; intros H ps; [reflexivity |].
  cbn [foldl]. unfold add_clue at 2 4. rewrite (H x) by apply list_elem_of_here.
  apply IH. intros y Hy. apply H, list_elem_of_further, Hy.
Qed.

Lemma clues_read_prefix intype p more :
  intype = LINEAR_INPUT \/ intype = GRID_INPUT ->
  Z.of_nat (length p) = consumed intype ->
  clues_read (stride intype) (p ++ more) = clues_read (stride intype) p.
Proof.
  intros Hi Hlen. unfold clues_read. apply foldl_add_clue_ext.
  intros [i j] Hx. apply all_cells_ok in Hx. unfold cell_ok in Hx.
  unfold clue_at. cbn [fst snd]. rewrite char_at_app; [reflexivity |].
  rewrite Hlen. unfold N, SQRT_N in Hx.
  destruct Hi as [-> | ->]; vm_compute stride; vm_compute consumed; lia.
Qed.

Lemma clues_read_nil intype :
  intype = LINEAR_INPUT \/ intype = GRID_INPUT ->
  clues_read (stride intype) [] = [].
Proof.
  intros Hi. unfold clues_read. apply foldl_add_clue_beyond.
  intros [i j] Hx. apply all_cells_ok in Hx. unfold cell_ok in Hx.
  cbn [fst snd length]. unfold N, SQRT_N in Hx.
  destruct Hi as [-> | ->]; vm_compute stride; lia.
Qed.

Lemma stream_at_app p more k :
  k = Z.of_nat (length p) -> stream_at (p ++ more) k = mk_stream more false.
Proof.
  intros ->. unfold stream_at. rewrite Nat2Z.id, drop_app_length.
  f_equal. apply Z.ltb_ge. rewrite length_app. lia.
Qed.

Lemma ninserted_commit_all ps :
  clues_ok ps = true -> ninserted (commit_all ps) = Z.of_nat (length ps).
Proof.
  intros H. apply (Inv_commit_all ps H).
Qed.

Lemma solve_enough_depth d ps s :
  Inv ps s -> (81 <= d)%nat ->
  exists s',
    (solve d s = Ok (1, s') /\
     exists ps', Inv ps' s' /\ length ps' = 81%nat /\ forall p, p ∈ ps -> p ∈ ps') \/
    (solve d s = Ok (0, s') /\ Inv ps s' /\
     forall h, valid_grid h -> ~ extends ps h).
Proof.
  intros HI Hd. pose proof (solve_spec d ps s HI) as Hpost.
  destruct (solve d s) as [[res s'] | | |]; cbn [solve_post] in Hpost;
    try contradiction; [| lia].
  exists s'. destruct Hpost as [(-> & ps' & HI' & Hlen & Hsub & _) | (-> & HI' & Hno)].
  - left. split; [reflexivity |]. exists ps'. auto.
  - right. auto.
Qed.

Lemma main_loop_end fuel depth signed_char intype s out :
  intype = LINEAR_INPUT \/ intype = GRID_INPUT -> shape s ->
  main_loop (S fuel) depth signed_char intype s (mk_stream [] false) out = Ok out.
Proof.
  intros Hi Hs. cbn [main_loop feof eof_flag].
  rewrite (new_sudoku_ok s Hs). cbn [bind].
  rewrite (read_input_zero signed_char intype [] Hi (Forall_nil_2 _)).
  rewrite (clues_read_nil intype Hi). cbn [clues_ok bind]. reflexivity.
Qed.

Lemma stream_at_short bytes k :
  Z.of_nat (length bytes) < k -> stream_at bytes k = mk_stream [] true.
Proof.
  intros H. unfold stream_at. rewrite drop_ge by lia. f_equal. apply Z.ltb_lt, H.
Qed.

(** One iteration on a puzzle with at least one clue. *)
Lemma main_loop_iter fuel depth signed_char intype s bytes out :
  intype = LINEAR_INPUT \/ intype = GRID_INPUT -> shape s -> (81 <= depth)%nat ->
  Forall (fun b => eof_like signed_char b = false) bytes ->
  clues_ok (clues_read (stride intype) bytes) = true ->
  clues_read (stride intype) bytes <> [] ->
  exists s' text,
    shape s' /\ answer_for (clues_read (stride intype) bytes) text /\
    main_loop (S fuel) depth signed_char intype s (mk_stream bytes false) out =
    main_loop fuel depth signed_char intype s'
      (stream_at bytes (consumed intype)) (out ++ text).
Proof.
  intros Hi Hs Hd Hb Hok Hne.
  cbn [main_loop feof eof_flag].
  rewrite (new_sudoku_ok s Hs). cbn [bind].
  rewrite (read_input_zero signed_char intype bytes Hi Hb), Hok. cbn [bind].
  rewrite (ninserted_commit_all _ Hok).
  destruct (Z.eqb_spec (Z.of_nat (length (clues_read (stride intype) bytes))) 0)
    as [E | _].
  { destruct (clues_read (stride intype) bytes); [contradiction | cbn [length] in E; lia]. }
  pose proof (Inv_commit_all _ Hok) as HI.
  destruct (solve_enough_depth depth _ _ HI Hd)
    as (s' & [(E & ps' & HI' & Hfull & Hsub) | (E & HI' & Hno)]); rewrite E; cbn [bind].
  - exists s', (show_grid (grid_of ps')).
    split; [apply HI' |]. split.
    + left. exists (grid_of ps'). split; [apply (Inv_full_valid ps' s' HI' Hfull) |].
      split; [| reflexivity].
      intros q Hq. apply grid_of_elem; [apply HI' | apply Hsub, Hq].
    + rewrite print_ok; [| apply HI' | unfold VALUE; lia]. cbn [bind].
      rewrite (rendering_full ps' s' HI' Hfull). reflexivity.
  - exists s', (rendering (commit_all (clues_read (stride intype) bytes)) VALUE).
    split; [apply HI' |]. split.
    + right. auto.
    + rewrite print_ok; [| apply HI' | unfold VALUE; lia]. cbn [bind].
      destruct (Inv_obs_eq _ _ _ HI HI') as (Hc & _).
      rewrite (rendering_ext _ _ VALUE Hc). reflexivity.
Qed.

(** What is left of the input after the last complete puzzle. *)
Lemma main_loop_tail fuel depth signed_char intype s tail out :
  intype = LINEAR_INPUT \/ intype = GRID_INPUT -> shape s -> (81 <= depth)%nat ->
  Z.of_nat (length tail) < consumed intype ->
  Forall (fun b => eof_like signed_char b = false) tail ->
  clues_ok (clues_read (stride intype) tail) = true ->
  exists last,
    main_loop (S fuel) depth signed_char intype s (mk_stream tail false) out =
      Ok (out ++ last) /\
    (clues_read (stride intype) tail = [] -> last = []) /\
    (clues_read (stride intype) tail <> [] -> answer intype tail last).
Proof.
  intros Hi Hs Hd Hlen Hb Hok.
  destruct (clues_read (stride intype) tail) as [| q l] eqn:Ecl.
  - exists []. split; [| split; [reflexivity | contradiction]].
    cbn [main_loop feof eof_flag].
    rewrite (new_sudoku_ok s Hs). cbn [bind].
    rewrite (read_input_zero signed_char intype tail Hi Hb), Ecl. cbn [clues_ok bind].
    rewrite app_nil_r. reflexivity.
  - destruct (main_loop_iter fuel depth signed_char intype s tail out Hi Hs Hd Hb)
      as (s' & text & _ & Hans & E).
    { rewrite Ecl. exact Hok. }
    { rewrite Ecl. discriminate. }
    exists text. rewrite E, (stream_at_short tail _ Hlen).
    split; [destruct fuel; reflexivity |].
    split; [discriminate |]. intros _. unfold answer. rewrite Ecl.
    rewrite Ecl in Hans. exact Hans.
Qed.

Lemma main_loop_batch depth signed_char intype tail :
  intype = LINEAR_INPUT \/ intype = GRID_INPUT -> (81 <= depth)%nat ->
  Z.of_nat (length tail) < consumed intype ->
  Forall (fun b => eof_like signed_char b = false) tail ->
  clues_ok (clues_read (stride intype) tail) = true ->
  forall puzzles, Forall (puzzle_ok signed_char intype) puzzles ->
  forall fuel s out, shape s -> (length puzzles < fuel)%nat ->
  exists texts last,
    main_loop fuel depth signed_char intype s
      (mk_stream (concat puzzles ++ tail) false) out =
      Ok (out ++ concat texts ++ last) /\
    Forall2 (answer intype) puzzles texts /\
    (clues_read (stride intype) tail = [] -> last = []) /\
    (clues_read (stride intype) tail <> [] -> answer intype tail last).
Proof.
  intros Hi Hd Hlen Htail Htok.
  induction puzzles as [| p puzzles IH]; intros Hall fuel s out Hs Hfuel.
  - destruct fuel as [| fuel]; [cbn [length] in Hfuel; lia |].
    destruct (main_loop_tail fuel depth signed_char intype s tail out
                Hi Hs Hd Hlen Htail Htok) as (last & E & H1 & H2).
    exists [], last. cbn [concat app]. split; [exact E |].
    split; [constructor | split; assumption].
  - apply Forall_cons in Hall. destruct Hall as [(Hplen & Hp & Hok & Hne) Hall].
    destruct fuel as [| fuel]; [cbn [length] in Hfuel; lia |].
    cbn [concat]. rewrite <- app_assoc.
    assert (Hrest : Forall (fun b => eof_like signed_char b = false)
                      (concat puzzles ++ tail)).
    { apply Forall_app. split; [| assumption].
      apply Forall_concat. apply (Forall_impl _ _ _ Hall). intros q Hq. apply Hq. }
    pose proof (clues_read_prefix intype p (concat puzzles ++ tail) Hi Hplen) as Epre.
    destruct (main_loop_iter fuel depth signed_char intype s
                (p ++ concat puzzles ++ tail) out Hi Hs Hd)
      as (s' & text & Hs' & Hans & E).
    { apply Forall_app. auto. }
    { rewrite Epre. exact Hok. }
    { rewrite Epre. exact Hne. }
    rewrite Epre in Hans.
    rewrite (stream_at_app p (concat puzzles ++ tail)) in E by (symmetry; exact Hplen).
    destruct (IH Hall fuel s' (out ++ text) Hs') as (texts & last & E' & Hans' & H1 & H2).
    { cbn [length] in Hfuel. lia. }
    exists (text :: texts), last. rewrite E, E'. cbn [concat].
    rewrite <- !app_assoc.
    split; [reflexivity |]. split; [constructor; assumption | split; assumption].
Qed.







(* ================================================================== *)
(** ** The solution, and the output read back *)

Lemma solved_cell_reads ps s r c :
  Inv ps s -> length ps = 81%nat -> 0 <= r < N -> 0 <= c < N ->
  (r, c, grid_of ps (r, c)) ∈ ps /\ candidates s (r, c) = [grid_of ps (r, c)].
Proof.
  intros HI Hlen Hr Hc. pose proof HI as (_ & Hok & Hnd & _).
  assert (Hx : cell_ok (r, c)) by (unfold cell_ok; auto).
  pose proof (cells_full ps (r, c) Hok Hnd Hlen Hx) as Hin.
  destruct (Inv_slot_of_cell ps s (r, c) HI Hin) as (p & Hp & Hcell & Hg & _).
  pose proof (Inv_candidates_committed ps s p HI Hp) as Hcand.
  rewrite Hcell, <- Hg in Hcand. split; [| exact Hcand].
  destruct p as [[r' c'] v]. cbn [cell_of number_of] in Hcell, Hg.
  injection Hcell as -> ->. rewrite Hg. exact Hp.
Qed.

Lemma full_read_grid ps s :
  Inv ps s -> length ps = 81%nat ->
  valid_grid (read_grid s) /\
  forall x, cell_ok x -> read_grid s x = grid_of ps x.
Proof.
  intros HI Hlen. pose proof HI as (_ & Hok & Hnd & _).
  assert (Hread : forall x, cell_ok x -> read_grid s x = grid_of ps x).
  { intros x Hx. apply (Inv_read_grid ps s x HI). apply cells_full; assumption. }
  split; [| exact Hread].
  apply valid_grid_units. intros u Hu v Hv.
  rewrite (occurrences_ext (read_grid s) (grid_of ps)).
  - pose proof (Inv_full_valid ps s HI Hlen) as Hvalid.
    rewrite valid_grid_units in Hvalid. apply Hvalid; assumption.
  - intros x Hx. apply Hread.
    destruct (unit_facts u Hu) as (_ & Hcells & _).
    rewrite Forall_forall in Hcells. apply Hcells, Hx.
Qed.

Lemma singles_unique ps s h h' :
  Inv ps s -> singles_check ps s = true ->
  valid_grid h -> extends ps h -> valid_grid h' -> extends ps h' ->
  forall x, cell_ok x -> h' x = h x.
Proof.
  intros HI Hsingle Hv He Hv' He' x Hx.
  destruct (occupied ps x) eqn:Eocc.
  - apply occupied_true in Eocc. apply list_elem_of_In, in_map_iff in Eocc.
    destruct Eocc as (p & Ecell & Hp). apply list_elem_of_In in Hp.
    rewrite <- Ecell, (He' p Hp), (He p Hp). reflexivity.
  - pose proof (completion_candidate _ _ h' x HI Hv' He' Hx Eocc) as H1.
    pose proof (completion_candidate _ _ h x HI Hv He Hx Eocc) as H2.
    unfold singles_check in Hsingle. rewrite forallb_forall in Hsingle.
    specialize (Hsingle x (proj1 (list_elem_of_In _ _) (elem_of_all_cells _ Hx))).
    rewrite Eocc in Hsingle. cbn [negb implb] in Hsingle.
    apply Nat.eqb_eq in Hsingle.
    destruct (candidates s x) as [| v [| w l]]; try discriminate.
    apply list_elem_of_singleton in H1, H2. congruence.
Qed.

(** X24. When the puzzle has exactly one solution, [solve] ends with
    that solution in the state: every cell has one candidate left, the
    number the solution gives it, which is how [print] reads a cell. *)
Theorem solve_finds_the_unique_solution ps s h d :
  reachable ps s ->
  valid_grid h -> extends ps h ->
  (forall h', valid_grid h' -> extends ps h' ->
     forall r c, 0 <= r < N -> 0 <= c < N -> h' (r, c) = h (r, c)) ->
  (81 <= d)%nat ->
  exists s',
    solve d s = Ok (1, s') /\
    forall r c, 0 <= r < N -> 0 <= c < N ->
      exists buf, get_possibilities_at s' r c malloc_buffer = Ok (buf, 1) /\
                  load_buf buf 0 = Ok (h (r, c)).
Proof.
  intros Hr Hv He Huniq Hd. pose proof (reachable_Inv ps s Hr) as HI.
  destruct (solve_enough_depth d ps s HI Hd)
    as (s' & [(E & ps' & HI' & Hfull & Hsub) | (_ & _ & Hno)]).
  2:{ exfalso. apply (Hno h Hv He). }
  exists s'. split; [exact E |]. intros r c Hrb Hcb.
  destruct (solved_cell_reads ps' s' r c HI' Hfull Hrb Hcb) as [_ Hcand].
  assert (Hg : grid_of ps' (r, c) = h (r, c)).
  { apply Huniq; try assumption.
    - apply (Inv_full_valid ps' s' HI' Hfull).
    - intros p Hp. apply grid_of_elem; [apply HI' | apply Hsub, Hp]. }
  exists (filled malloc_buffer [h (r, c)]). split.
  - rewrite get_possibilities_at_ok; [| apply HI' | unfold cell_ok; auto | reflexivity].
    unfold poss_count. rewrite Hcand, Hg. reflexivity.
  - apply (load_buf_filled malloc_buffer [h (r, c)] 0). cbn [length]. lia.
Qed.

Lemma solve_finds_the_unique_solution_witness :
  reachable nearly_done_clues nearly_done /\
  valid_grid (read_grid nearly_done_solved) /\
  extends nearly_done_clues (read_grid nearly_done_solved) /\
  (forall h', valid_grid h' -> extends nearly_done_clues h' ->
     forall r c, 0 <= r < N -> 0 <= c < N ->
       h' (r, c) = read_grid nearly_done_solved (r, c)) /\
  (81 <= 81)%nat /\
  exists s',
    solve 81 nearly_done = Ok (1, s') /\
    forall r c, 0 <= r < N -> 0 <= c < N ->
      exists buf, get_possibilities_at s' r c malloc_buffer = Ok (buf, 1) /\
                  load_buf buf 0 = Ok (read_grid nearly_done_solved (r, c)).
Proof.
  pose proof (reachable_Inv _ _ reachable_nearly_done) as HI.
  assert (Hsolve : solve 3 nearly_done = Ok (1, nearly_done_solved))
    by (vm_compute; reflexivity).
  pose proof (solve_spec 3 _ _ HI) as Hpost. rewrite Hsolve in Hpost.
  cbn [solve_post] in Hpost.
  destruct Hpost as [(_ & ps' & HI' & Hfull & Hsub & _) | (H01 & _)]; [| discriminate].
  destruct (full_read_grid ps' _ HI' Hfull) as [Hvalid Hread'].
  assert (Hread : forall r c, 0 <= r < N -> 0 <= c < N ->
            read_grid nearly_done_solved (r, c) = grid_of ps' (r, c)).
  { intros r c Hr Hc. apply Hread'. unfold cell_ok. auto. }
  assert (Hext : extends nearly_done_clues (read_grid nearly_done_solved)).
  { intros [[r c] v] Hp. cbn [cell_of number_of].
    pose proof HI as (_ & Hok & _). rewrite Forall_forall in Hok.
    pose proof (Hok _ Hp) as (Hr & Hc & _).
    rewrite Hread by assumption.
    apply (grid_of_elem ps' (r, c, v)); [apply HI' | apply Hsub, Hp]. }
  assert (Hsingle : singles_check nearly_done_clues nearly_done = true)
    by (vm_compute; reflexivity).
  assert (Huniq : forall h', valid_grid h' -> extends nearly_done_clues h' ->
     forall r c, 0 <= r < N -> 0 <= c < N ->
       h' (r, c) = read_grid nearly_done_solved (r, c)).
  { intros h' Hv' He' r c Hr Hc.
    apply (singles_unique _ _ _ h' HI Hsingle Hvalid Hext Hv' He').
    unfold cell_ok. auto. }
  split; [exact reachable_nearly_done |]. split; [exact Hvalid |].
  split; [exact Hext |]. split; [exact Huniq |]. split; [lia |].
  exact (solve_finds_the_unique_solution nearly_done_clues nearly_done
           (read_grid nearly_done_solved) 81 reachable_nearly_done Hvalid Hext Huniq
           (le_n 81)).
Defined.

(** *** Reading the output back *)

Lemma Z_of_byte_of_Z x : 0 <= x < 256 -> Z_of_byte (byte_of_Z x) = x.
Proof.
  intros Hx. unfold Z_of_byte, byte_of_Z. rewrite Z.mod_small by assumption.
  destruct (Byte.of_N (Z.to_N x)) as [b |] eqn:E; unfold default; cbn [from_option id].
  - apply Byte.to_of_N in E. rewrite E. apply Z2N.id. lia.
  - apply Byte.of_N_None_iff in E. apply N2Z.inj_lt in E.
    rewrite Z2N.id in E by lia. change (Z.of_N 255) with 255 in E. lia.
Qed.

Lemma clues_ok_intro ps :
  Forall slot_ok ps -> NoDup (map cell_of ps) ->
  (forall p q, p ∈ ps -> q ∈ ps ->
     peers (cell_of p) (cell_of q) = true -> number_of p <> number_of q) ->
  clues_ok ps = true.
Proof.
  induction ps as [| p ps IH]; intros Hall Hnd Hno; [reflexivity |].
  apply Forall_cons in Hall. destruct Hall as [Hp Hall].
  cbn [map] in Hnd. apply NoDup_cons in Hnd. destruct Hnd as [Hfree Hnd].
  cbn [clues_ok].
  rewrite (proj2 (slot_okb_true p) Hp), (proj2 (occupied_false ps (cell_of p)) Hfree).
  rewrite IH; [| assumption | assumption |].
  2:{ intros p1 p2 H1 H2. apply Hno; apply list_elem_of_further; assumption. }
  cbn [negb andb]. rewrite andb_true_r. apply Z.eqb_eq, weight_zero.
  intros p' Hp'.
  assert (Hne : cell_of p' <> cell_of p).
  { intros E. apply Hfree. rewrite <- E.
    apply list_elem_of_In, in_map, list_elem_of_In, Hp'. }
  apply (contrib_zero_other p' p Hne). intros [Hpeer Hnum].
  apply (Hno p' p); auto using list_elem_of_here, list_elem_of_further.
Qed.

Lemma eof_like_digit signed_char v :
  0 <= v < N -> eof_like signed_char (byte_of_Z (v + 49)) = false.
Proof.
  intros Hv. unfold N, SQRT_N in Hv.
  assert (Hc : v = 0 \/ v = 1 \/ v = 2 \/ v = 3 \/ v = 4 \/ v = 5 \/ v = 6 \/
               v = 7 \/ v = 8) by lia.
  destruct signed_char;
    repeat (destruct Hc as [-> | Hc]; [reflexivity |]); subst v; reflexivity.
Qed.

Lemma rendering_full_bytes signed_char ps s :
  Inv ps s -> length ps = 81%nat ->
  Forall (fun b => eof_like signed_char b = false) (rendering s VALUE).
Proof.
  intros HI Hlen. rewrite (rendering_full ps s HI Hlen).
  pose proof (Inv_full_valid ps s HI Hlen) as Hv.
  assert (Hnl : eof_like signed_char "010"%byte = false)
    by (destruct signed_char; reflexivity).
  unfold show_grid. apply Forall_app. split; [| repeat constructor; exact Hnl].
  apply Forall_forall. intros b Hb.
  apply list_elem_of_In, in_flat_map in Hb. destruct Hb as (i & Hi & Hb).
  apply list_elem_of_In, elem_of_range in Hi.
  apply in_app_iff in Hb. destruct Hb as [Hb | Hb].
  - apply in_map_iff in Hb. destruct Hb as (j & <- & Hj).
    apply list_elem_of_In, elem_of_range in Hj.
    apply eof_like_digit. apply (valid_grid_bounds _ (i, j) Hv). unfold cell_ok. auto.
  - destruct Hb as [<- | []]. exact Hnl.
Qed.

Lemma rendering_full_char ps s i j :
  Inv ps s -> length ps = 81%nat -> 0 <= i < N -> 0 <= j < N ->
  char_at (rendering s VALUE) (i * stride GRID_INPUT + j) = 49 + grid_of ps (i, j).
Proof.
  intros HI Hlen Hi Hj. unfold char_at.
  change (stride GRID_INPUT) with 10.
  replace (i * 10 + j) with (10 * i + j) by lia.
  rewrite rendering_lookup by assumption.
  unfold cell_text.
  change (VALUE =? HYPOTHESIS_COUNT) with false. change (VALUE =? VALUE) with true.
  cbv iota.
  destruct (solved_cell_reads ps s i j HI Hlen Hi Hj) as [_ ->].
  cbn [lookup list_lookup].
  pose proof (valid_grid_bounds _ (i, j) (Inv_full_valid ps s HI Hlen)
                (conj Hi Hj)) as Hb.
  unfold N, SQRT_N in Hb. rewrite Z_of_byte_of_Z by lia. lia.
Qed.

Lemma clues_of_rendering ps s p :
  Inv ps s -> length ps = 81%nat ->
  p ∈ clues_read (stride GRID_INPUT) (rendering s VALUE) <-> p ∈ ps.
Proof.
  intros HI Hlen. destruct p as [[i j] v]. rewrite elem_of_clues_read. split.
  - intros (Hi & Hj & Hv & Hc).
    rewrite (rendering_full_char ps s i j HI Hlen Hi Hj) in Hc.
    destruct (solved_cell_reads ps s i j HI Hlen Hi Hj) as [Hin _].
    replace v with (grid_of ps (i, j)) by lia. exact Hin.
  - intros Hin. pose proof HI as (_ & Hok & Hnd & _).
    rewrite Forall_forall in Hok. pose proof (Hok _ Hin) as (Hi & Hj & Hv).
    split; [assumption |]. split; [assumption |]. split; [assumption |].
    rewrite (rendering_full_char ps s i j HI Hlen Hi Hj).
    pose proof (grid_of_elem ps (i, j, v) Hnd Hin) as Hg.
    cbn [cell_of number_of] in Hg. rewrite Hg. reflexivity.
Qed.

Lemma show_grid_ext h h' :
  (forall x, cell_ok x -> h x = h' x) -> show_grid h = show_grid h'.
Proof.
  intros H. unfold show_grid. f_equal.
  apply flat_map_ext_in. intros i Hi. apply elem_of_range in Hi. f_equal.
  apply map_ext_in. intros j Hj. apply list_elem_of_In, elem_of_range in Hj.
  rewrite (H (i, j)) by (unfold cell_ok; auto). reflexivity.
Qed.

Lemma rendering_last s : rendering s VALUE !! 90%nat = Some "010"%byte.
Proof.
  unfold rendering.
  assert (Hlen : length (flat_map (fun i =>
                    flat_map (fun j => cell_text s VALUE (i, j)) (range N) ++
                    ["010"%byte]) (range N)) = 90%nat).
  { rewrite (length_flat_map_const _ 10%nat); [reflexivity |].
    intros a _. rewrite length_app, (length_flat_map_const _ 1%nat); [reflexivity |].
    intros b _. apply (length_cell_text s VALUE). unfold VALUE. lia. }
  rewrite lookup_app_r by (rewrite Hlen; lia). rewrite Hlen. reflexivity.
Qed.

Lemma main_loop_reads_back fuel depth signed_char s0 ps s :
  Inv ps s -> length ps = 81%nat -> shape s0 ->
  (2 <= fuel)%nat -> (81 <= depth)%nat ->
  main_loop fuel depth signed_char GRID_INPUT s0
    (mk_stream (rendering s VALUE) false) [] = Ok (rendering s VALUE).
Proof.
  intros HI Hlen Hs0 Hfuel Hd.
  set (text := rendering s VALUE).
  assert (Htext : length text = 91%nat).
  { apply (length_rendering s VALUE). unfold VALUE. lia. }
  assert (Hbytes : Forall (fun b => eof_like signed_char b = false) text)
    by apply (rendering_full_bytes signed_char ps s HI Hlen).
  assert (Hi : GRID_INPUT = LINEAR_INPUT \/ GRID_INPUT = GRID_INPUT)
    by (right; reflexivity).
  assert (Hsplit : text = take 90 text ++ drop 90 text)
    by (symmetry; apply take_drop).
  assert (Hp90 : Z.of_nat (length (take 90 text)) = consumed GRID_INPUT).
  { rewrite length_take, Htext. reflexivity. }
  assert (Hpre : clues_read (stride GRID_INPUT) (take 90 text) =
                 clues_read (stride GRID_INPUT) text).
  { rewrite Hsplit at 2. symmetry. apply clues_read_prefix; assumption. }
  assert (Hmem : forall p, p ∈ clues_read (stride GRID_INPUT) (take 90 text) <-> p ∈ ps).
  { intros p. rewrite Hpre. apply (clues_of_rendering ps s p HI Hlen). }
  assert (Hok : clues_ok (clues_read (stride GRID_INPUT) (take 90 text)) = true).
  { apply clues_ok_intro; [apply clues_read_ok | apply NoDup_clues_read |].
    intros p q Hp Hq. apply Hmem in Hp, Hq.
    apply (Inv_no_clash ps s q p HI Hq Hp). }
  assert (Hpuzzle : puzzle_ok signed_char GRID_INPUT (take 90 text)).
  { split; [exact Hp90 |]. split; [| split; [exact Hok |]].
    - rewrite Hsplit in Hbytes. apply Forall_app in Hbytes. tauto.
    - intros E.
      destruct (solved_cell_reads ps s 0 0 HI Hlen) as [Hin _];
        try (unfold N, SQRT_N; lia).
      apply Hmem in Hin. rewrite E in Hin. apply elem_of_nil in Hin. exact Hin. }
  assert (Hdrop : length (drop 90 text) = 1%nat) by (rewrite length_drop, Htext; reflexivity).
  assert (Htail : clues_read (stride GRID_INPUT) (drop 90 text) = []).
  { destruct (clues_read (stride GRID_INPUT) (drop 90 text)) as [| [[i j] v] l] eqn:E;
      [reflexivity |]. exfalso.
    assert (Hin : (i, j, v) ∈ clues_read (stride GRID_INPUT) (drop 90 text))
      by (rewrite E; apply list_elem_of_here).
    apply elem_of_clues_read in Hin. destruct Hin as (H1 & H2 & Hv & Hc).
    change (stride GRID_INPUT) with 10 in Hc. unfold N, SQRT_N in *.
    unfold char_at in Hc. rewrite lookup_drop in Hc.
    destruct (Z.to_nat (i * 10 + j)) as [| n].
    - pose proof (rendering_last s) as Hl. fold text in Hl.
      rewrite Nat.add_0_r, Hl in Hc.
      change (Z_of_byte "010"%byte) with 10 in Hc. lia.
    - rewrite lookup_ge_None_2 in Hc by (rewrite Htext; lia). unfold EOF in Hc. lia. }
  destruct (main_loop_batch depth signed_char GRID_INPUT (drop 90 text) Hi Hd)
    with (puzzles := [take 90 text]) (fuel := fuel) (s := s0) (out := @nil byte)
    as (texts & last & E & Hans & Hlast & _).
  { rewrite Hdrop. reflexivity. }
  { rewrite Hsplit in Hbytes. apply Forall_app in Hbytes. tauto. }
  { rewrite Htail. reflexivity. }
  { constructor; [exact Hpuzzle | constructor]. }
  { exact Hs0. }
  { cbn [length]. lia. }
  cbn [concat] in E. rewrite app_nil_r, <- Hsplit in E. rewrite E.
  rewrite (Hlast Htail), app_nil_r. cbn [app].
  apply Forall2_cons_inv_l in Hans. destruct Hans as (t1 & rest & Ht1 & Hrest & ->).
  apply Forall2_nil_inv_l in Hrest. subst rest. cbn [concat]. rewrite app_nil_r.
  f_equal. unfold answer, answer_for in Ht1.
  destruct Ht1 as [(h & Hv & He & ->) | (Hno & _)].
  - unfold text. rewrite (rendering_full ps s HI Hlen).
    apply show_grid_ext. intros [i j] [Hi' Hj'].
    destruct (solved_cell_reads ps s i j HI Hlen Hi' Hj') as [Hin _].
    apply Hmem in Hin. apply (He _ Hin).
  - exfalso. apply (Hno (grid_of ps) (Inv_full_valid ps s HI Hlen)).
    intros p Hp. apply Hmem in Hp. apply grid_of_elem; [apply HI | exact Hp].
Qed.

(** X25. The output can be read back: when [solve] has answered 1 and
    [print] has written the solution, the program run on these 91
    characters in the grid format accepts them as a puzzle and prints
    them again, unchanged. *)
Theorem printed_solution_reads_back
    strtol fuel depth signed_char s0 argv arg ps s d s' text :
  reachable ps s -> solve d s = Ok (1, s') ->
  print s' VALUE [] = Ok text ->
  argv !! 1%nat = Some arg -> strtol arg = (GRID_INPUT, []) ->
  shape s0 -> (2 <= fuel)%nat -> (81 <= depth)%nat ->
  main strtol fuel depth signed_char s0 2 argv text = Ok (0, text).
Proof.
  intros Hr Hsolve Hprint Harg Hstr Hs0 Hfuel Hd.
  pose proof (reachable_Inv ps s Hr) as HI.
  pose proof (solve_spec d ps s HI) as Hpost. rewrite Hsolve in Hpost.
  cbn [solve_post] in Hpost.
  destruct Hpost as [(_ & ps' & HI' & Hfull & _ & _) | (H01 & _)]; [| discriminate].
  rewrite print_ok in Hprint; [| apply HI' | unfold VALUE; lia].
  cbn [app] in Hprint. injection Hprint as <-.
  unfold main. change (negb (2 =? 2)) with false. cbv iota.
  rewrite Harg, Hstr. change (wrap GRID_INPUT) with GRID_INPUT.
  change (negb true || (GRID_INPUT <? 1) || (GRID_INPUT >? 2)) with false. cbv iota.
  rewrite (main_loop_reads_back fuel depth signed_char s0 ps' s' HI' Hfull Hs0 Hfuel Hd).
  reflexivity.
Qed.

Lemma printed_solution_reads_back_witness :
  reachable nearly_done_clues nearly_done /\
  solve 3 nearly_done = Ok (1, nearly_done_solved) /\
  print nearly_done_solved VALUE [] = Ok (rendering nearly_done_solved VALUE) /\
  [bytes_of "solver"; bytes_of "2"] !! 1%nat = Some (bytes_of "2") /\
  strtol_digit (bytes_of "2") = (GRID_INPUT, []) /\
  shape garbage /\ (2 <= 2)%nat /\ (81 <= 81)%nat /\
  main strtol_digit 2 81 false garbage 2 [bytes_of "solver"; bytes_of "2"]
       (rendering nearly_done_solved VALUE) =
    Ok (0, rendering nearly_done_solved VALUE).
Proof.
  assert (H1 : solve 3 nearly_done = Ok (1, nearly_done_solved))
    by (vm_compute; reflexivity).
  assert (H2 : print nearly_done_solved VALUE [] = Ok (rendering nearly_done_solved VALUE))
    by (vm_compute; reflexivity).
  assert (H3 : [bytes_of "solver"; bytes_of "2"] !! 1%nat = Some (bytes_of "2"))
    by reflexivity.
  assert (H4 : strtol_digit (bytes_of "2") = (GRID_INPUT, [])) by reflexivity.
  assert (H5 : shape garbage) by (split; reflexivity).
  split; [exact reachable_nearly_done |]. split; [exact H1 |]. split; [exact H2 |].
  split; [exact H3 |]. split; [exact H4 |]. split; [exact H5 |].
  split; [lia |]. split; [lia |].
  exact (printed_solution_reads_back strtol_digit 2 81 false garbage _ _
           nearly_done_clues nearly_done 3 nearly_done_solved _
           reachable_nearly_done H1 H2 H3 H4 H5 (le_n 2) (le_n 81)).
Defined.
